(** * EnergyDrinkFinder: the HTTP handlers and the schema they run on

    A shallow embedding of the route handlers of the application (scan,
    nearby stores, geocode, autocomplete) and of the relational schema of
    [db/migrations], followed by the properties the specification states
    about them.  The definitions go on with further code of the same files
    (the list of all stores, the import from OpenStreetMap, the batch
    geocoder, the ingest script, the administration of the catalog), and
    the properties with what that code shows of itself.

    Conventions of the embedding.
    - A table is the list of its rows, in insertion order.
    - A JavaScript [number] carried by a JSON body or produced by
      [parseFloat] is a rational ([Q]); [NaN] is kept apart where the code
      can meet it.  Row identifiers are integers ([Z]).
    - A field that a JSON body may leave out is an [option].
    - A text is the sequence of the bytes of its UTF-8 encoding.
    - A row of the inventory holds its price as the column does, a
      [DECIMAL(6, 2)]: rounded to two decimals, and refused beyond six
      digits.  The store id of a scan is read as an [INTEGER] and the limit
      of a search as a [BIGINT]: the statement fails outside the range of
      the type.  Elsewhere a row holds the values the statement that wrote
      it was given, and what a table refuses is left to its interface.
    - A handler is a function from the database (and the clock, where
      [CURRENT_TIMESTAMP] is read) and the parsed request to the database
      after the request, the console output and the HTTP response. *)

From stdpp Require Import base list sorting strings pretty.
From Stdlib Require Import ZArith QArith Qabs.

Local Open Scope string_scope.
Local Open Scope Z_scope.
Local Open Scope list_scope.

(** ** JavaScript values *)

(** What [parseFloat] and [parseInt] make of a text. *)
Inductive parsed (A : Type) :=
  | NaN
  | Num (a : A).
Arguments NaN {A}.
Arguments Num {A} a.

(** [parseFloat] itself belongs to the runtime. *)
Class JsRuntime := {
  parseFloat : string -> parsed Q
}.

Module Js.

(** [ToBoolean] on an optional string: [undefined] and [''] are falsy. *)
Definition truthy_string (s : option string) : bool :=
  match s with
  | Some s => negb (String.eqb s "")
  | None => false
  end.

(** [ToBoolean] on an optional integer: [undefined] and [0] are falsy. *)
Definition truthy_int (n : option Z) : bool :=
  match n with
  | Some n => negb (n =? 0)
  | None => false
  end.

(** [ToBoolean] on an optional number: [undefined] and [0] are falsy. *)
Definition truthy_number (x : option Q) : bool :=
  match x with
  | Some q => negb (Qeq_bool q 0)
  | None => false
  end.

(** [x || d] on an optional number. *)
Definition or_number (x : option Q) (d : Q) : Q :=
  match x with
  | Some q => if Qeq_bool q 0 then d else q
  | None => d
  end.

(** [x !== undefined ? x : d]. *)
Definition defined_or {A} (x : option A) (d : A) : A :=
  match x with
  | Some a => a
  | None => d
  end.

(** [a || b] on optional strings. *)
Definition or_string (a : option string) (b : option string) : option string :=
  if truthy_string a then a else b.

(** [s.toLowerCase()], on the letters of the ASCII range. *)
Definition lower_char (c : Ascii.ascii) : Ascii.ascii :=
  let n := Ascii.N_of_ascii c in
  if (65 <=? n)%N && (n <=? 90)%N then Ascii.ascii_of_N (n + 32) else c.

Fixpoint toLowerCase (s : string) : string :=
  match s with
  | EmptyString => EmptyString
  | String c s' => String (lower_char c) (toLowerCase s')
  end.

(** [s.includes(t)]. *)
Fixpoint includes (s t : string) : bool :=
  String.prefix t s
  || match s with
     | EmptyString => false
     | String _ s' => includes s' t
     end.

(** *** White space

    [String.prototype.trim] and the class [\s] of a regular expression take
    the same characters as white space, the WhiteSpace and LineTerminator
    of ECMAScript: U+0009 to U+000D, U+0020, U+00A0, U+1680, U+2000 to
    U+200A, U+2028, U+2029, U+202F, U+205F, U+3000 and U+FEFF.  In UTF-8
    the first six are one byte, U+00A0 is two, the others are three. *)

Definition byte (c : Ascii.ascii) : N := Ascii.N_of_ascii c.

(** [ch] is the encoding of one white space character. *)
Definition white_space (ch : string) : bool :=
  match ch with
  | String c1 EmptyString => Ascii.is_space c1
  | String c1 (String c2 EmptyString) =>
      (* U+00A0 *)
      (byte c1 =? 0xC2)%N && (byte c2 =? 0xA0)%N
  | String c1 (String c2 (String c3 EmptyString)) =>
      (* U+1680 *)
      (byte c1 =? 0xE1)%N && (byte c2 =? 0x9A)%N && (byte c3 =? 0x80)%N
      (* U+2000 to U+200A, U+2028, U+2029, U+202F *)
      || (byte c1 =? 0xE2)%N && (byte c2 =? 0x80)%N
         && ((0x80 <=? byte c3)%N && (byte c3 <=? 0x8A)%N
             || (byte c3 =? 0xA8)%N || (byte c3 =? 0xA9)%N || (byte c3 =? 0xAF)%N)
      (* U+205F *)
      || (byte c1 =? 0xE2)%N && (byte c2 =? 0x81)%N && (byte c3 =? 0x9F)%N
      (* U+3000 *)
      || (byte c1 =? 0xE3)%N && (byte c2 =? 0x80)%N && (byte c3 =? 0x80)%N
      (* U+FEFF *)
      || (byte c1 =? 0xEF)%N && (byte c2 =? 0xBB)%N && (byte c3 =? 0xBF)%N
  | _ => false
  end.

(** U+00A0, the no-break space. *)
Definition no_break_space : string :=
  String (Ascii.ascii_of_N 0xC2) (String (Ascii.ascii_of_N 0xA0) "").

(** [!s.trim()]: nothing but white space. *)
Fixpoint blank (s : string) : bool :=
  match s with
  | EmptyString => true
  | String c1 s1 =>
      if white_space (String c1 "") then blank s1
      else
        match s1 with
        | EmptyString => false
        | String c2 s2 =>
            if white_space (String c1 (String c2 "")) then blank s2
            else
              match s2 with
              | EmptyString => false
              | String c3 s3 =>
                  white_space (String c1 (String c2 (String c3 ""))) && blank s3
              end
        end
  end.

(** The word read so far, if any, put before the words that follow; its
    bytes were kept last first. *)
Definition flush (cur : string) (rest : list string) : list string :=
  match cur with
  | EmptyString => rest
  | _ => String.rev cur :: rest
  end.

(** The words of a text: the longest runs of bytes that hold no white
    space character. *)
Fixpoint words_go (cur : string) (s : string) : list string :=
  match s with
  | EmptyString => flush cur []
  | String c1 s1 =>
      let word := words_go (String c1 cur) s1 in
      if white_space (String c1 "") then flush cur (words_go "" s1)
      else
        match s1 with
        | EmptyString => word
        | String c2 s2 =>
            if white_space (String c1 (String c2 "")) then flush cur (words_go "" s2)
            else
              match s2 with
              | EmptyString => word
              | String c3 s3 =>
                  if white_space (String c1 (String c2 (String c3 "")))
                  then flush cur (words_go "" s3)
                  else word
              end
        end
  end.

Definition words (s : string) : list string := words_go "" s.

(** [s.trim().split(/\s+/)]: the words of [s], one empty word when it has
    none. *)
Definition trim_split (s : string) : list string :=
  match words s with
  | [] => [""]
  | ws => ws
  end.

(** [parts.join(sep)]. *)
Fixpoint join (sep : string) (parts : list string) : string :=
  match parts with
  | [] => ""
  | [x] => x
  | x :: rest => x +:+ sep +:+ join sep rest
  end.

(** [parts.filter(Boolean)] on optional strings. *)
Definition filter_Boolean (parts : list (option string)) : list string :=
  omap (λ x, if truthy_string x then x else None) parts.

End Js.

(** ** The schema ([db/migrations/001_initial_schema.sql], [002_add_barcodes.sql]) *)

Definition timestamp := Z.

Module Store.
Record t := mk {
  id : Z;
  name : string;
  address : string;
  city : string;
  state : string;
  zip_code : string;
  latitude : Q;
  longitude : Q
}.
End Store.

Module EnergyDrink.
Record t := mk {
  id : Z;
  brand : string;
  flavor : string;
  size_ml : Z;
  caffeine_mg : option Z;
  barcode : option string;
  sugar_g : option Q;
  calories : option Z;
  description : option string;
  image_url : option string
}.
End EnergyDrink.

Module StoreInventory.
Record t := mk {
  id : Z;
  store_id : Z;
  drink_id : Z;
  price : Q;
  in_stock : bool;
  last_updated : timestamp
}.

(** The row without its timestamp. *)
Definition content (r : t) : Z * Z * Z * Q * bool :=
  (id r, store_id r, drink_id r, price r, in_stock r).
End StoreInventory.

Record Db := mkDb {
  stores : list Store.t;
  energy_drinks : list EnergyDrink.t;
  store_inventory : list StoreInventory.t;
  (* the sequence behind [store_inventory.id SERIAL] *)
  store_inventory_id_seq : Z
}.

(** ** Failing statements

    A statement the database refuses makes the driver throw; the [catch] of
    the handler answers 500 and copies the message of the exception into
    the [error] field.  The wording of that message is the database's. *)

Inductive SqlError :=
  | unbound_parameter
  | limit_not_a_number
  | limit_negative
  (* a [LIMIT] beyond the range of [BIGINT] *)
  | limit_out_of_range
  (* a parameter beyond the range of the [INTEGER] it is compared with *)
  | integer_out_of_range
  (* a value beyond the precision of its [DECIMAL] column *)
  | numeric_field_overflow.

Inductive ErrorText :=
  | Text (s : string)
  | MessageOf (e : SqlError).

(** *** The ranges of the column types *)

(** [INTEGER], the type of every [id]. *)
Definition fits_integer (n : Z) : bool := (-2147483648 <=? n) && (n <=? 2147483647).

(** [BIGINT], the type of a [LIMIT]. *)
Definition fits_bigint (n : Z) : bool :=
  (-9223372036854775808 <=? n) && (n <=? 9223372036854775807).

(** The integer nearest to [x], the farther from 0 of the two when [x] is
    half way: the rounding of [NUMERIC]. *)
Definition round_half_away (x : Q) : Z :=
  let n := Qnum x in
  let d := Z.pos (Qden x) in
  if 0 <=? n then (2 * n + d) / (2 * d) else - ((2 * - n + d) / (2 * d)).

(** What a [DECIMAL(6, 2)] column makes of [x]: [x] rounded to two
    decimals, and nothing when that takes more than six digits. *)
Definition decimal_6_2 (x : Q) : option Q :=
  let cents := round_half_away (x * 100) in
  if Z.abs cents <? 1000000 then Some (cents # 100) else None.

(** ** PostGIS

    A geography point is a (longitude, latitude) pair.  The extension is
    outside the repository: its distance function and its nearest-neighbour
    operator are an interface. *)

Definition geography := (Q * Q)%type.

Definition ST_MakePoint (lon lat : Q) : geography := (lon, lat).

(** [store_location_trigger]: [location] is always the point made of the
    row's longitude and latitude. *)
Definition location (s : Store.t) : geography :=
  ST_MakePoint (Store.longitude s) (Store.latitude s).

Class PostGIS := {
(** [ST_Distance(a, b)] on geographies, in metres. *)
  ST_Distance : geography -> geography -> Q;
(** [a <-> b], the value [ORDER BY] sorts on. *)
  knn_distance : geography -> geography -> Q
}.

(** [ST_DWithin(a, b, d)]: the two geographies are at most [d] metres apart. *)
Definition ST_DWithin `{PostGIS} (a b : geography) (d : Q) : Prop :=
  (ST_Distance a b <= d)%Q.

Global Instance Qle_dec (x y : Q) : Decision (x <= y)%Q :=
  match Qlt_le_dec y x with
  | left H => right (Qlt_not_le _ _ H)
  | right H => left H
  end.

Global Instance ST_DWithin_dec `{PostGIS} a b d : Decision (ST_DWithin a b d) :=
  Qle_dec _ _.

(** [ORDER BY location <-> p]. *)
Definition nearer `{PostGIS} (p : geography) (s1 s2 : Store.t) : Prop :=
  (knn_distance (location s1) p <= knn_distance (location s2) p)%Q.

Global Instance nearer_dec `{PostGIS} p s1 s2 : Decision (nearer p s1 s2) :=
  Qle_dec _ _.

(** The assumption on the extension under which an order by [<->] can be
    read as an order by [ST_Distance]: the nearest-neighbour operator
    orders the points as [ST_Distance] does. *)
Definition knn_agrees `{PostGIS} : Prop :=
  ∀ p a b : geography,
    (knn_distance a p <= knn_distance b p)%Q → (ST_Distance a p <= ST_Distance b p)%Q.

Global Instance Qlt_dec (x y : Q) : Decision (x < y)%Q :=
  match Qlt_le_dec x y with
  | left H => left H
  | right H => right (Qle_not_lt _ _ H)
  end.

(** ** POST /api/scan ([src/app/api/scan/route.ts], lines 24-178) *)

Module Scan.

(** [ScanRequest]: the parsed JSON body. *)
Record ScanRequest := mkRequest {
  barcode : option string;
  store_id : option Z;
  latitude : option Q;
  longitude : option Q;
  price : option Q;
  in_stock : option bool
}.

Record ScanData := mkData {
  drink : EnergyDrink.t;
  store : Store.t;
  (* [inventoryResult[0]] *)
  inventory : option StoreInventory.t;
  was_created : bool
}.

Record ScanResponse := mkResponse {
  success : bool;
  message : string;
  data : option ScanData;
  error : option ErrorText
}.

(** What the handler prints in its [try] block: the warning about a far
    nearest store.  Its [catch] prints the exception that the answer
    carries in [error]. *)
Inductive console_line :=
  | warn_nearest_far (distanceKm : Q).

Record Outcome := mkOutcome {
  db_after : Db;
  console : list console_line;
  status : Z;
  body : ScanResponse
}.

Definition failure (msg err : string) : ScanResponse :=
  {| success := false; message := msg; data := None; error := Some (Text err) |}.

(** The answer of the [catch] to a statement that failed. *)
Definition thrown (e : SqlError) : ScanResponse :=
  {| success := false; message := "Internal server error"; data := None;
     error := Some (MessageOf e) |}.

(** A value spliced into a template literal. *)
Definition spliced (s : option string) : string := default "undefined" s.

(** [SELECT ... FROM energy_drinks WHERE barcode = $1 LIMIT 1]; a comparison
    with NULL selects nothing. *)
Definition select_drink (db : Db) (bc : option string) : list EnergyDrink.t :=
  match bc with
  | Some b => take 1 (filter (λ d, EnergyDrink.barcode d = Some b) (energy_drinks db))
  | None => []
  end.

(** [SELECT ... FROM stores WHERE id = $1 LIMIT 1]: the parameter is read
    as an [INTEGER], and the statement fails on a number outside the range
    of the type. *)
Definition select_store (db : Db) (id : option Z) : SqlError + list Store.t :=
  match id with
  | Some i =>
      if fits_integer i then inr (take 1 (filter (λ s, Store.id s = i) (stores db)))
      else inl integer_out_of_range
  | None => inr []
  end.

(** [SELECT ..., ST_Distance(location, p) / 1000 AS distance_km FROM stores
    ORDER BY location <-> p LIMIT 1], with [p] the point of the request. *)
Definition select_nearest_store `{PostGIS} (db : Db) (lon lat : Q) : list (Store.t * Q) :=
  let p := ST_MakePoint lon lat in
  (λ s, (s, ST_Distance (location s) p / 1000)%Q) <$> take 1 (merge_sort (nearer p) (stores db)).

(** The conflict target of the upsert: [UNIQUE (store_id, drink_id)]. *)
Definition same_pair (sid did : Z) (r : StoreInventory.t) : Prop :=
  StoreInventory.store_id r = sid ∧ StoreInventory.drink_id r = did.

Global Instance same_pair_dec sid did r : Decision (same_pair sid did r).
Proof. unfold same_pair. apply _. Defined.

(** [DO UPDATE SET price = EXCLUDED.price, in_stock = EXCLUDED.in_stock,
    last_updated = CURRENT_TIMESTAMP] on one row. *)
Definition do_update (now : timestamp) (p : Q) (inStock : bool) (r : StoreInventory.t) : StoreInventory.t :=
  {| StoreInventory.id := StoreInventory.id r;
     StoreInventory.store_id := StoreInventory.store_id r;
     StoreInventory.drink_id := StoreInventory.drink_id r;
     StoreInventory.price := p;
     StoreInventory.in_stock := inStock;
     StoreInventory.last_updated := now |}.

(** The insertion or the update of the row of a pair, [p] being the price
    as the column holds it: the database after it and the rows of
    [RETURNING], the inserted row or the updated one.  The proposed row
    draws its [id] from the sequence and its [last_updated] from the clock. *)
Definition upsert_rows (now : timestamp) (db : Db) (sid did : Z) (p : Q) (inStock : bool)
  : Db * list StoreInventory.t :=
  let proposed := StoreInventory.mk (store_inventory_id_seq db) sid did p inStock now in
  let table := store_inventory db in
  let table' :=
    if decide (Exists (same_pair sid did) table)
    then (λ r, if decide (same_pair sid did r) then do_update now p inStock r else r) <$> table
    else (table ++ [proposed])%list in
  let returning :=
    if decide (Exists (same_pair sid did) table)
    then filter (same_pair sid did) table'
    else [proposed] in
  (mkDb (stores db) (energy_drinks db) table' (store_inventory_id_seq db + 1), returning).

(** [INSERT INTO store_inventory (store_id, drink_id, price, in_stock)
    VALUES (...) ON CONFLICT (store_id, drink_id) DO UPDATE SET ...
    RETURNING ...]: the price is taken as a [DECIMAL(6, 2)]; the statement
    fails on a price the column cannot hold.  The price is a parameter of
    the statement and is brought to the type of its column before any row
    is built: the statement that fails has written nothing. *)
Definition upsert_inventory (now : timestamp) (db : Db) (sid did : Z) (p : Q) (inStock : bool)
  : SqlError + Db * list StoreInventory.t :=
  match decimal_6_2 p with
  | Some stored => inr (upsert_rows now db sid did stored inStock)
  | None => inl numeric_field_overflow
  end.

(** The end of the handler, once the drink and the store are known. *)
Definition record_inventory (now : timestamp) (db : Db) (req : ScanRequest)
    (drink : EnergyDrink.t) (store : Store.t) (log : list console_line) : Outcome :=
  let price := Js.or_number (price req) 0 in
  let inStock := Js.defined_or (in_stock req) true in
  match upsert_inventory now db (Store.id store) (EnergyDrink.id drink) price inStock with
  | inr (db', inventoryResult) =>
      let inventory := head inventoryResult in
      let wasCreated := (0 <? length inventoryResult)%nat in
      mkOutcome db' log 200
        {| success := true;
           message :=
             if wasCreated
             then "Successfully added " +:+ EnergyDrink.brand drink +:+ " "
                  +:+ EnergyDrink.flavor drink +:+ " to " +:+ Store.name store
             else "Updated " +:+ EnergyDrink.brand drink +:+ " " +:+ EnergyDrink.flavor drink
                  +:+ " at " +:+ Store.name store;
           data := Some (mkData drink store inventory wasCreated);
           error := None |}
  | inl e => mkOutcome db log 500 (thrown e)
  end.

Definition POST `{PostGIS} (now : timestamp) (db : Db) (req : ScanRequest) : Outcome :=
  if negb (Js.truthy_string (barcode req)) then
    mkOutcome db [] 400 (failure "Barcode is required" "Missing barcode field")
  else if negb (Js.truthy_int (store_id req))
          && (negb (Js.truthy_number (latitude req)) || negb (Js.truthy_number (longitude req))) then
    mkOutcome db [] 400
      (failure "Either store_id or latitude/longitude is required" "Missing store identification")
  else
    match select_drink db (barcode req) with
    | [] =>
        mkOutcome db [] 404
          (failure ("No energy drink found with barcode " +:+ spliced (barcode req)) "Drink not found")
    | drink :: _ =>
        if Js.truthy_int (store_id req) then
          match select_store db (store_id req) with
          | inl e => mkOutcome db [] 500 (thrown e)
          | inr [] =>
              mkOutcome db [] 404
                (failure ("Store with ID " +:+ spliced (pretty <$> store_id req) +:+ " not found")
                         "Store not found")
          | inr (store :: _) => record_inventory now db req drink store []
          end
        else
          match longitude req, latitude req with
          | Some lon, Some lat =>
              match select_nearest_store db lon lat with
              | [] =>
                  mkOutcome db [] 404 (failure "No stores found in database" "No stores available")
              | (store, distanceKm) :: _ =>
                  record_inventory now db req drink store
                    (if decide (1 < distanceKm)%Q then [warn_nearest_far distanceKm] else [])
              end
          | _, _ =>
              (* not reached: with no store id, the validation has seen both
                 coordinates; an unbound query parameter makes the driver throw *)
              mkOutcome db [] 500 (thrown unbound_parameter)
          end
    end.

(** The part of the handler that reads the catalog: either the early
    response, or the drink, the store and the warning it arrives at. *)
Definition resolve `{PostGIS} (db : Db) (req : ScanRequest)
  : Z * ScanResponse + EnergyDrink.t * Store.t * list console_line :=
  if negb (Js.truthy_string (barcode req)) then
    inl (400, failure "Barcode is required" "Missing barcode field")
  else if negb (Js.truthy_int (store_id req))
          && (negb (Js.truthy_number (latitude req)) || negb (Js.truthy_number (longitude req))) then
    inl (400, failure "Either store_id or latitude/longitude is required"
                "Missing store identification")
  else
    match select_drink db (barcode req) with
    | [] => inl (404, failure ("No energy drink found with barcode " +:+ spliced (barcode req))
                        "Drink not found")
    | drink :: _ =>
        if Js.truthy_int (store_id req) then
          match select_store db (store_id req) with
          | inl e => inl (500, thrown e)
          | inr [] => inl (404, failure ("Store with ID " +:+ spliced (pretty <$> store_id req)
                                         +:+ " not found") "Store not found")
          | inr (store :: _) => inr (drink, store, [])
          end
        else
          match longitude req, latitude req with
          | Some lon, Some lat =>
              match select_nearest_store db lon lat with
              | [] => inl (404, failure "No stores found in database" "No stores available")
              | (store, distanceKm) :: _ =>
                  inr (drink, store,
                       if decide (1 < distanceKm)%Q then [warn_nearest_far distanceKm] else [])
              end
          | _, _ => inl (500, thrown unbound_parameter)
          end
    end.

(** *** The readings of a request on which the handler decides *)

(** The request has no barcode, or an empty one. *)
Definition lacks_barcode (req : ScanRequest) : Prop :=
  barcode req = None ∨ barcode req = Some "".

(** The request names a store: it has a store id other than 0. *)
Definition names_store (req : ScanRequest) : Prop :=
  ∃ i, store_id req = Some i ∧ i ≠ 0.

(** The request names a place: it has both coordinates, neither being 0. *)
Definition names_place (req : ScanRequest) : Prop :=
  ∃ lat lon, latitude req = Some lat ∧ longitude req = Some lon
             ∧ ¬ (lat == 0)%Q ∧ ¬ (lon == 0)%Q.

(** The price as the inventory holds it after the request, when the
    column can hold it. *)
Definition stored_price (req : ScanRequest) : option Q :=
  decimal_6_2 (Js.or_number (price req) 0).

(** *** Requests for the examples *)

(** A can of Red Bull scanned in midtown Manhattan, located by coordinates. *)
Definition midtown_scan : ScanRequest :=
  mkRequest (Some "611269991000") None (Some 40.75%Q) (Some (-73.99)%Q) None None.

(** A request with a barcode and both coordinates, sent from the equator. *)
Definition equator_scan : ScanRequest :=
  mkRequest (Some "611269991000") None (Some 0%Q) (Some (-73.99)%Q) None None.

(** A can of Red Bull scanned at a store the table does not have. *)
Definition unknown_store_scan : ScanRequest :=
  mkRequest (Some "611269991000") (Some 99) None None None None.


(** A can of Red Bull scanned at Greenwich, on the prime meridian. *)
Definition meridian_scan : ScanRequest :=
  mkRequest (Some "611269991000") None (Some 51.48%Q) (Some 0%Q) None None.

(** A can of Red Bull scanned in Philadelphia, far from the four stores. *)
Definition philadelphia_scan : ScanRequest :=
  mkRequest (Some "611269991000") None (Some 39.95%Q) (Some (-75.16)%Q) None None.

(** A can of Red Bull scanned at store 1, priced to the tenth of a cent. *)
Definition tenth_of_a_cent_scan : ScanRequest :=
  mkRequest (Some "611269991000") (Some 1) None None (Some 3.999%Q) None.

(** A can of Red Bull scanned at store 1, priced beyond six digits. *)
Definition seven_digit_scan : ScanRequest :=
  mkRequest (Some "611269991000") (Some 1) None None (Some 12345.67%Q) None.

(** A can of Red Bull scanned at a store whose id is no [INTEGER]. *)
Definition beyond_integer_scan : ScanRequest :=
  mkRequest (Some "611269991000") (Some 2147483648) None None None None.

End Scan.

(** ** The database the migrations leave behind

    [001_initial_schema.sql] inserts four stores, ten drinks and the
    inventory of each store; [002_add_barcodes.sql] gives every drink its
    barcode.  Timestamps are counted from the migration. *)

Module Sample.

Definition drink (id : Z) (brand flavor : string) (size_ml caffeine_mg : Z)
    (sugar_g : Q) (calories : Z) (description barcode : string) : EnergyDrink.t :=
  EnergyDrink.mk id brand flavor size_ml (Some caffeine_mg) (Some barcode) (Some sugar_g)
    (Some calories) (Some description) None.

Definition sample_stores : list Store.t :=
  [ Store.mk 1 "7-Eleven Downtown" "123 Main St" "New York" "NY" "10001"
      (40750580 # 1000000) (-73993584 # 1000000);
    Store.mk 2 "QuikTrip Midtown" "456 5th Ave" "New York" "NY" "10018"
      (40754932 # 1000000) (-73984016 # 1000000);
    Store.mk 3 "Wawa Plaza" "789 Broadway" "New York" "NY" "10003"
      (40732000 # 1000000) (-73990000 # 1000000);
    Store.mk 4 "Circle K East" "321 Park Ave" "New York" "NY" "10022"
      (40758896 # 1000000) (-73968285 # 1000000) ].

Definition sample_drinks : list EnergyDrink.t :=
  [ drink 1 "Red Bull" "Original" 250 80 27 110 "Classic Red Bull energy drink" "611269991000";
    drink 2 "Red Bull" "Sugar Free" 250 80 0 10 "Red Bull with zero sugar" "611269991017";
    drink 3 "Monster" "Original" 473 160 54 210 "Monster Energy original green" "070847811169";
    drink 4 "Monster" "Ultra White" 473 150 0 10 "Monster Ultra zero sugar white" "070847030928";
    drink 5 "Bang" "Cotton Candy" 473 300 0 0 "Bang Energy cotton candy flavor" "819005020306";
    drink 6 "Bang" "Blue Razz" 473 300 0 0 "Bang Energy blue raspberry" "819005020207";
    drink 7 "Celsius" "Sparkling Orange" 355 200 0 10 "Celsius fitness drink orange" "889392002027";
    drink 8 "Reign" "Melon Mania" 473 300 0 10 "Reign Total Body Fuel melon" "084879518801";
    drink 9 "Rockstar" "Original" 473 160 62 250 "Rockstar original energy" "818094002875";
    drink 10 "5-hour Energy" "Berry" 59 200 0 4 "Extra strength 5-hour shot" "719410100018" ].

Definition stock (id store_id drink_id cents : Z) (in_stock : bool) : StoreInventory.t :=
  StoreInventory.mk id store_id drink_id (cents # 100) in_stock 0.

Definition sample_inventory : list StoreInventory.t :=
  [ stock 1 1 1 299 true; stock 2 1 2 299 true; stock 3 1 3 349 true;
    stock 4 1 5 399 true; stock 5 1 7 329 true; stock 6 1 10 449 false;
    stock 7 2 3 329 true; stock 8 2 4 329 true; stock 9 2 5 379 true;
    stock 10 2 6 379 true; stock 11 2 9 349 true;
    stock 12 3 1 319 true; stock 13 3 2 319 true; stock 14 3 7 349 true;
    stock 15 3 8 399 true;
    stock 16 4 1 289 true; stock 17 4 3 319 true; stock 18 4 4 319 true;
    stock 19 4 5 369 true; stock 20 4 7 339 true; stock 21 4 8 389 true;
    stock 22 4 9 329 true; stock 23 4 10 429 true ].

Definition db : Db := mkDb sample_stores sample_drinks sample_inventory 24.

(** A stand-in for the extension where a concrete one is needed: both
    distances are the rectilinear one, at 111 km to the degree. *)
Definition rectilinear (a b : geography) : Q :=
  (111000 * (Qabs (a.1 - b.1) + Qabs (a.2 - b.2)))%Q.

Definition flat : PostGIS :=
  {| ST_Distance := rectilinear; knn_distance := rectilinear |}.

(** A stand-in that differs where the extension does: [ST_Distance]
    measures a geography on the spheroid, [<->] on the sphere.  Near the
    equator a degree of longitude is 111320 m on the spheroid and a degree
    of latitude 110574 m; on the sphere both are 111195 m. *)
Definition on_spheroid (a b : geography) : Q :=
  (111320 * Qabs (a.1 - b.1) + 110574 * Qabs (a.2 - b.2))%Q.

Definition on_sphere (a b : geography) : Q :=
  (111195 * (Qabs (a.1 - b.1) + Qabs (a.2 - b.2)))%Q.

Definition round_earth : PostGIS :=
  {| ST_Distance := on_spheroid; knn_distance := on_sphere |}.

(** Two stores about a kilometre from the point of latitude 1 and
    longitude 1, one to the east of it and one to the north. *)
Definition east : Store.t :=
  Store.mk 1 "East" "1 East Rd" "Libreville" "GA" "00001" 1%Q (1.00898)%Q.

Definition north : Store.t :=
  Store.mk 2 "North" "1 North Rd" "Libreville" "GA" "00002" (1.009)%Q 1%Q.

Definition crossroads : Db := mkDb [east; north] sample_drinks [] 1.

End Sample.

(** ** GET /api/stores/nearby ([src/app/api/stores/nearby/route.ts], lines 30-99) *)

Module Nearby.

(** The query string, each parameter read as the number its text denotes:
    [None] for a parameter that is absent or empty (the [|| '...'] default
    then applies), [Some NaN] for a text that is not a number. *)
Record NearbyQuery := mkQuery {
  latitude : option (parsed Q);
  longitude : option (parsed Q);
  radius : option (parsed Q);
  limit : option (parsed Z)
}.

(** A store of the answer, with its [distance_km]. *)
Definition NearbyStore := (Store.t * Q)%type.

Definition distance_km (row : NearbyStore) : Q := row.2.

Record NearbyStoresResponse := mkResponse {
  success : bool;
  message : string;
  data : option (list NearbyStore);
  error : option ErrorText
}.

(** [!x || isNaN(x)] on a number. *)
Definition falsy (x : parsed Q) : bool :=
  match x with
  | NaN => true
  | Num q => Qeq_bool q 0
  end.

(** [parseFloat(searchParams.get('latitude') || '')], and the longitude alike. *)
Definition parse_coordinate (x : option (parsed Q)) : parsed Q := default NaN x.

(** [parseFloat(searchParams.get('radius') || '10')]. *)
Definition parse_radius (q : NearbyQuery) : parsed Q := default (Num 10%Q) (radius q).

(** [parseInt(searchParams.get('limit') || '10')]. *)
Definition parse_limit (q : NearbyQuery) : parsed Z := default (Num 10) (limit q).

(** [WHERE ST_DWithin(location, p, radius * 1000)]; a comparison with NaN
    does not hold. *)
Definition within `{PostGIS} (p : geography) (radius : parsed Q) (s : Store.t) : Prop :=
  match radius with
  | Num r => ST_DWithin (location s) p (r * 1000)
  | NaN => False
  end.

Global Instance within_dec `{PostGIS} p radius s : Decision (within p radius s).
Proof. destruct radius; apply _. Defined.

(** [SELECT ..., ST_Distance(location, p) / 1000 AS distance_km FROM stores
    WHERE ST_DWithin(location, p, $3) ORDER BY location <-> p LIMIT $4],
    [p] being [ST_MakePoint($1, $2)].  The statement fails on a limit that
    is not a number, is negative or is no [BIGINT]. *)
Definition select_nearby `{PostGIS} (db : Db) (longitude latitude radius : parsed Q)
    (limit : parsed Z) : SqlError + list NearbyStore :=
  match longitude, latitude with
  | Num lon, Num lat =>
      let p := ST_MakePoint lon lat in
      match limit with
      | Num n =>
          if negb (fits_bigint n) then inl limit_out_of_range
          else if decide (0 ≤ n)
          then inr ((λ s, (s, ST_Distance (location s) p / 1000)%Q)
                      <$> take (Z.to_nat n)
                            (merge_sort (nearer p) (filter (within p radius) (stores db))))
          else inl limit_negative
      | NaN => inl limit_not_a_number
      end
  | _, _ =>
      (* not reached: the handler has refused coordinates that are not numbers *)
      inl unbound_parameter
  end.

Definition GET `{PostGIS} (db : Db) (q : NearbyQuery) : Z * NearbyStoresResponse :=
  let latitude := parse_coordinate (latitude q) in
  let longitude := parse_coordinate (longitude q) in
  let radius := parse_radius q in
  let limit := parse_limit q in
  if falsy latitude || falsy longitude then
    (400, mkResponse false "Latitude and longitude are required" None
            (Some (Text "Missing or invalid location parameters")))
  else
    match select_nearby db longitude latitude radius limit with
    | inr stores =>
        (200, mkResponse true ("Found " +:+ pretty (length stores) +:+ " nearby stores")
                (Some stores) None)
    | inl e =>
        (500, mkResponse false "Internal server error" None (Some (MessageOf e)))
    end.

(** The order of the answer, read on [distance_km] and on [<->]. *)
Definition by_distance_km (a b : NearbyStore) : Prop := (distance_km a <= distance_km b)%Q.

Definition by_knn `{PostGIS} (p : geography) (a b : NearbyStore) : Prop := nearer p a.1 b.1.

(** The two nearest stores of midtown Manhattan, the radius left to its
    default. *)
Definition midtown_query : NearbyQuery :=
  mkQuery (Some (Num 40.75%Q)) (Some (Num (-73.99)%Q)) None (Some (Num 2)).

(** The stores around the point of latitude 1 and longitude 1, the radius
    and the limit left to their defaults. *)
Definition crossroads_query : NearbyQuery :=
  mkQuery (Some (Num 1%Q)) (Some (Num 1%Q)) None None.

End Nearby.

(** ** Geocoding ([src/lib/geocode.ts], lines 38-103) and POST /api/geocode
       ([src/unnamed/part_003], lines 53-116) *)

Module Geocode.

Record GeocodeResult := mkResult {
  latitude : parsed Q;
  longitude : parsed Q;
  display_name : option string;
  boundingbox : option (string * string * string * string)
}.

Record AddressComponents := mkComponents {
  address : option string;
  city : option string;
  state : option string;
  zip_code : option string;
  country : option string
}.

(** One candidate of the provider's answer. *)
Record GeocodeApiResponse := mkCandidate {
  lat : string;
  lon : string;
  api_display_name : string;
  api_boundingbox : string * string * string * string;
  place_id : Z;
  osm_type : string;
  osm_id : Z
}.

(** The ways the exchange with geocode.maps.co can go. *)
Inductive FetchOutcome :=
  (* [fetch] rejects with an [Error] *)
  | fetch_failed (message : string)
  (* [!response.ok]; [errorText] is the body, or the text the code
     substitutes when the body cannot be read *)
  | not_ok (status : Z) (statusText errorText : string)
  (* [response.json()] rejects with an [Error] *)
  | json_failed (message : string)
  (* the parsed body: [null] or the list of candidates *)
  | json (data : option (list GeocodeApiResponse)).

(** The process environment and the provider. *)
Record World := mkWorld {
  GEOCODING_API_KEY : option string;
  (* the answer to a search for [q] under the key [api_key] *)
  fetch : string → string → FetchOutcome
}.

(** A computation that returns or throws an [Error] with a message. *)
Definition throws (A : Type) : Type := (string + A)%type.

(** The text searched for. *)
Definition queryAddress (address : string + AddressComponents) : string :=
  match address with
  | inl full => full
  | inr c =>
      Js.join " "
        (Js.filter_Boolean
           [Geocode.address c; city c; state c; zip_code c; Js.or_string (country c) (Some "US")])
  end.

(** The body of the [try] block. *)
Definition search `{JsRuntime} (w : World) (apiKey q : string) : throws GeocodeResult :=
  match fetch w q apiKey with
  | fetch_failed m => inl m
  | not_ok status statusText errorText =>
      inl ("Geocoding API error: " +:+ pretty status +:+ " " +:+ statusText +:+ " - " +:+ errorText)
  | json_failed m => inl m
  | json None | json (Some []) => inl ("No results found for address: " +:+ q)
  | json (Some (result :: _)) =>
      inr {| latitude := parseFloat (lat result);
             longitude := parseFloat (lon result);
             display_name := Some (api_display_name result);
             boundingbox := Some (api_boundingbox result) |}
  end.

Definition geocodeAddress `{JsRuntime} (w : World) (address : string + AddressComponents)
  : throws GeocodeResult :=
  if negb (Js.truthy_string (GEOCODING_API_KEY w)) then
    inl "GEOCODING_API_KEY not found in environment variables"
  else
    let q := queryAddress address in
    if Js.blank q then inl "Address cannot be empty"
    else
      match search w (default "" (GEOCODING_API_KEY w)) q with
      | inl m => inl ("Geocoding failed: " +:+ m)
      | inr r => inr r
      end.

(** [GeocodeRequest], the parsed JSON body of the POST. *)
Definition GeocodeRequest := AddressComponents.

Record GeocodeResponse := mkResponse {
  success : bool;
  message : option string;
  data : option GeocodeResult;
  error : option string
}.

Definition hasFullAddress (body : GeocodeRequest) : bool := Js.truthy_string (address body).

Definition hasComponents (body : GeocodeRequest) : bool :=
  Js.truthy_string (city body) || Js.truthy_string (state body) || Js.truthy_string (zip_code body).

(** The argument the handler passes to [geocodeAddress]. *)
Definition addressInput (body : GeocodeRequest) : string + AddressComponents :=
  if hasFullAddress body && negb (hasComponents body)
  then inl (default "" (address body))
  else inr {| address := address body; city := city body; state := state body;
              zip_code := zip_code body;
              country := Js.or_string (country body) (Some "US") |}.

Definition POST `{JsRuntime} (w : World) (body : GeocodeRequest) : Z * GeocodeResponse :=
  if negb (hasFullAddress body) && negb (hasComponents body) then
    (400, mkResponse false
            (Some "Address is required. Provide either a full address string or address components (city, state, zip_code)")
            None (Some "Missing address data"))
  else
    match geocodeAddress w (addressInput body) with
    | inr result =>
        (200, mkResponse true (Some "Address successfully geocoded") (Some result) None)
    | inl errorMessage =>
        let isNotFound := Js.includes (Js.toLowerCase errorMessage) "no results found" in
        (if isNotFound then 404 else 500,
         mkResponse false (Some (if isNotFound then "Address not found" else "Geocoding failed"))
           None (Some errorMessage))
    end.

(** GET /api/geocode ([src/unnamed/part_003], lines 134-199): the same
    answer, the address being read from the query string. *)
Record GeocodeQuery := mkGeocodeQuery {
  param_q : option string;
  param_address : option string;
  param_city : option string;
  param_state : option string;
  param_zip : option string;
  param_zip_code : option string;
  param_country : option string
}.

(** [x || undefined]. *)
Definition or_undefined (x : option string) : option string :=
  if Js.truthy_string x then x else None.

Definition fullAddress (query : GeocodeQuery) : option string :=
  Js.or_string (param_q query) (param_address query).

Definition zipCode (query : GeocodeQuery) : option string :=
  Js.or_string (param_zip query) (param_zip_code query).

(** [!fullAddress && !city && !state && !zipCode] *)
Definition hasNothing (query : GeocodeQuery) : bool :=
  negb (Js.truthy_string (fullAddress query)) && negb (Js.truthy_string (param_city query))
  && negb (Js.truthy_string (param_state query)) && negb (Js.truthy_string (zipCode query)).

(** [fullAddress && !city && !state && !zipCode] *)
Definition hasOnlyFullAddress (query : GeocodeQuery) : bool :=
  Js.truthy_string (fullAddress query) && negb (Js.truthy_string (param_city query))
  && negb (Js.truthy_string (param_state query)) && negb (Js.truthy_string (zipCode query)).

Definition addressInput_of_query (query : GeocodeQuery) : string + AddressComponents :=
  if hasOnlyFullAddress query
  then inl (default "" (fullAddress query))
  else inr {| address := or_undefined (fullAddress query);
              city := or_undefined (param_city query);
              state := or_undefined (param_state query);
              zip_code := or_undefined (zipCode query);
              country := Js.or_string (param_country query) (Some "US") |}.

Definition GET `{JsRuntime} (w : World) (query : GeocodeQuery) : Z * GeocodeResponse :=
  if hasNothing query then
    (400, mkResponse false
            (Some "Address is required. Provide query parameters: q/address, city, state, or zip")
            None (Some "Missing address data"))
  else
    match geocodeAddress w (addressInput_of_query query) with
    | inr result =>
        (200, mkResponse true (Some "Address successfully geocoded") (Some result) None)
    | inl errorMessage =>
        let isNotFound := Js.includes (Js.toLowerCase errorMessage) "no results found" in
        (if isNotFound then 404 else 500,
         mkResponse false (Some (if isNotFound then "Address not found" else "Geocoding failed"))
           None (Some errorMessage))
    end.

(** The answers of the endpoint to the requests that pass its validation
    and hand [input] to [geocodeAddress]. *)
Inductive answers `{JsRuntime} (w : World) (input : string + AddressComponents)
  : Z * GeocodeResponse → Prop :=
  | answers_POST body :
      negb (hasFullAddress body) && negb (hasComponents body) = false →
      addressInput body = input →
      answers w input (POST w body)
  | answers_GET query :
      hasNothing query = false →
      addressInput_of_query query = input →
      answers w input (GET w query).

(** A stand-in for [parseFloat] where a concrete one is needed: it reads
    an optional minus sign, digits and a fractional part, and nothing more. *)
Fixpoint digits (s : string) (acc : Z) (scale : positive) (frac : bool) : parsed Q :=
  match s with
  | EmptyString => Num (acc # scale)
  | String c s' =>
      match Ascii.is_nat c with
      | Some d =>
          digits s' (10 * acc + Z.of_nat d) (if frac then 10 * scale else scale)%positive frac
      | None =>
          if frac then NaN
          else if Ascii.eqb c (Ascii.ascii_of_N 46) then digits s' acc scale true else NaN
      end
  end.

Definition plain_decimal : JsRuntime :=
  {| parseFloat s :=
       match s with
       | EmptyString => NaN
       | String c s' =>
           if Ascii.eqb c (Ascii.ascii_of_N 45)
           then match digits s' 0 1 false with Num q => Num (- q)%Q | NaN => NaN end
           else digits s 0 1 false
       end |}.

(** The example of the handler's documentation. *)
Definition fifth_avenue : GeocodeApiResponse :=
  mkCandidate "40.7551" "-73.9787" "555 5th Avenue, Manhattan, New York, NY 10017, USA"
    ("40.7541", "40.7561", "-73.9797", "-73.9777") 1 "way" 1.

Definition one_candidate : World :=
  mkWorld (Some "key") (λ _ _, json (Some [fifth_avenue])).

Definition fifth_avenue_request : GeocodeRequest :=
  mkComponents (Some "555 5th Ave") (Some "New York") (Some "NY") (Some "10017") (Some "US").

End Geocode.

(** ** The two autocomplete handlers (Prisma on [energy_drinks])

    Both are [GET] handlers of [src/unnamed/part_003]: the basic one at lines
    459-508, the word-splitting one at lines 348-453.  Each answer is given
    as its status and the [drinks] array it carries. *)

(** The order [ORDER BY] puts on texts is the database's collation: a
    decidable total preorder. *)
Class Collation := {
  collate_le : relation string;
  collate_dec :: RelDecision collate_le;
  collate_total :: Total collate_le;
  collate_trans :: Transitive collate_le
}.

Module Autocomplete.

(** The fields of the [select]. *)
Record Suggestion := mkSuggestion {
  id : Z;
  brand : string;
  flavor : string;
  size_ml : Z;
  caffeine_mg : option Z;
  image_url : option string
}.

Definition select (d : EnergyDrink.t) : Suggestion :=
  {| id := EnergyDrink.id d;
     brand := EnergyDrink.brand d;
     flavor := EnergyDrink.flavor d;
     size_ml := EnergyDrink.size_ml d;
     caffeine_mg := EnergyDrink.caffeine_mg d;
     image_url := EnergyDrink.image_url d |}.

(** [{ contains: q, mode: 'insensitive' }]. *)
Definition contains_insensitive (field q : string) : bool :=
  Js.includes (Js.toLowerCase field) (Js.toLowerCase q).

(** [searchParams.get('q') || '']. *)
Definition query_of (q : option string) : string :=
  default "" (Js.or_string q (Some "")).

(** [orderBy: { brand: 'asc' }]. *)
Definition by_brand `{Collation} (a b : EnergyDrink.t) : Prop :=
  collate_le (EnergyDrink.brand a) (EnergyDrink.brand b).

(** [orderBy: [{ brand: 'asc' }, { flavor: 'asc' }]]: by brand, and by
    flavor among equal brands. *)
Definition by_brand_then_flavor `{Collation} (a b : EnergyDrink.t) : Prop :=
  collate_le (EnergyDrink.brand a) (EnergyDrink.brand b)
  ∧ (collate_le (EnergyDrink.brand b) (EnergyDrink.brand a) →
     collate_le (EnergyDrink.flavor a) (EnergyDrink.flavor b)).

Global Instance by_brand_dec `{Collation} : RelDecision by_brand.
Proof. intros a b. unfold by_brand. apply _. Defined.

Global Instance by_brand_then_flavor_dec `{Collation} : RelDecision by_brand_then_flavor.
Proof. intros a b. unfold by_brand_then_flavor. apply _. Defined.

(** The basic handler: brand or flavor contains the query; ten at most. *)
Definition matches_query (query : string) (d : EnergyDrink.t) : bool :=
  contains_insensitive (EnergyDrink.brand d) query
  || contains_insensitive (EnergyDrink.flavor d) query.

Definition GET `{Collation} (db : Db) (q : option string) : Z * list Suggestion :=
  let query := query_of q in
  if (String.length query <? 1)%nat then (200, [])
  else
    (200, select <$> take 10 (merge_sort by_brand
                                (filter (λ d, matches_query query d) (energy_drinks db)))).

(** [query.trim().split(/\s+/)]: the words of the query, one empty word
    when it has none. *)
Definition split_words (query : string) : list string := Js.trim_split query.

(** The [whereCondition] of the word-splitting handler. *)
Definition whereCondition (query : string) (d : EnergyDrink.t) : bool :=
  match split_words query with
  | [word] =>
      contains_insensitive (EnergyDrink.brand d) word
      || contains_insensitive (EnergyDrink.flavor d) word
  | words =>
      let firstWord := default "" (head words) in
      let remainingWords := Js.join " " (drop 1 words) in
      (contains_insensitive (EnergyDrink.brand d) firstWord
       && contains_insensitive (EnergyDrink.flavor d) remainingWords)
      || contains_insensitive (EnergyDrink.brand d) query
      || contains_insensitive (EnergyDrink.flavor d) query
  end.

(** The word-splitting handler; twenty at most. *)
Definition GET_words `{Collation} (db : Db) (q : option string) : Z * list Suggestion :=
  let query := query_of q in
  if (String.length query <? 1)%nat then (200, [])
  else
    (200, select <$> take 20 (merge_sort by_brand_then_flavor
                                (filter (λ d, whereCondition query d) (energy_drinks db)))).


End Autocomplete.

(** ** The catalog and its keys

    The statements the repository runs against [energy_drinks]: the
    [INSERT]s of the migration, of the ingest script and of Prisma's
    [create] and [upsert]; the [UPDATE ... WHERE id = $1] of Prisma's
    [update] and of the ingest script; the [UPDATE ... SET barcode = ...
    WHERE brand = ... AND flavor = ... AND size_ml = ...] of the second
    migration; the [DELETE ... WHERE id = $1] of Prisma's [delete].  The
    table has three keys: [id] (primary), [(brand, flavor, size_ml)] and
    [barcode] (both [UNIQUE]; NULL barcodes never clash). *)

Module Catalog.

Record Catalog := mkCatalog {
  rows : list EnergyDrink.t;
  (* the sequence behind [energy_drinks.id SERIAL] *)
  id_seq : Z
}.

(** The columns of an [INSERT]. *)
Record NewDrink := mkNew {
  brand : string;
  flavor : string;
  size_ml : Z;
  caffeine_mg : option Z;
  barcode : option string;
  sugar_g : option Q;
  calories : option Z;
  description : option string;
  image_url : option string
}.

(** The [SET] list of an [UPDATE]: a column left out keeps its value. *)
Record Assignment := mkSet {
  set_brand : option string;
  set_flavor : option string;
  set_size_ml : option Z;
  set_caffeine_mg : option (option Z);
  set_barcode : option (option string)
}.

Inductive Where :=
  | ById (id : Z)
  | ByTriple (brand flavor : string) (size_ml : Z).

Inductive Statement :=
  | Insert (d : NewDrink)
  | Update (w : Where) (a : Assignment)
  | Delete (id : Z).

Inductive Result :=
  | completed (affected : nat)
  | unique_violation.

Definition triple (r : EnergyDrink.t) : string * string * Z :=
  (EnergyDrink.brand r, EnergyDrink.flavor r, EnergyDrink.size_ml r).

Definition with_id (id : Z) (d : NewDrink) : EnergyDrink.t :=
  EnergyDrink.mk id (brand d) (flavor d) (size_ml d) (caffeine_mg d) (barcode d)
    (sugar_g d) (calories d) (description d) (image_url d).

Definition assign (a : Assignment) (r : EnergyDrink.t) : EnergyDrink.t :=
  EnergyDrink.mk (EnergyDrink.id r)
    (default (EnergyDrink.brand r) (set_brand a))
    (default (EnergyDrink.flavor r) (set_flavor a))
    (default (EnergyDrink.size_ml r) (set_size_ml a))
    (default (EnergyDrink.caffeine_mg r) (set_caffeine_mg a))
    (default (EnergyDrink.barcode r) (set_barcode a))
    (EnergyDrink.sugar_g r) (EnergyDrink.calories r) (EnergyDrink.description r)
    (EnergyDrink.image_url r).

Definition selects (w : Where) (r : EnergyDrink.t) : Prop :=
  match w with
  | ById i => EnergyDrink.id r = i
  | ByTriple b f s => triple r = (b, f, s)
  end.

Global Instance selects_dec w r : Decision (selects w r).
Proof. destruct w; simpl; apply _. Defined.

(** A row to be written clashes with a row of the table on one of the
    three keys. *)
Definition clashes (new old : EnergyDrink.t) : Prop :=
  EnergyDrink.id old = EnergyDrink.id new
  ∨ triple old = triple new
  ∨ (EnergyDrink.barcode new ≠ None ∧ EnergyDrink.barcode old = EnergyDrink.barcode new).

Global Instance clashes_dec new old : Decision (clashes new old).
Proof. unfold clashes. apply _. Defined.

(** The rows of an [UPDATE] are rewritten one after the other, each checked
    against the table as it stands by then, its own old version apart. *)
Fixpoint update_rows (w : Where) (a : Assignment) (before after : list EnergyDrink.t)
  : option (list EnergyDrink.t * nat) :=
  match after with
  | [] => Some (before, 0%nat)
  | r :: rest =>
      if decide (selects w r) then
        let r' := assign a r in
        if decide (Exists (clashes r') (before ++ rest)) then None
        else prod_map id S <$> update_rows w a (before ++ [r']) rest
      else update_rows w a (before ++ [r]) rest
  end.

(** A statement runs to the end or is refused as a whole; refused, it
    leaves the rows as they were.  An [INSERT] draws from the sequence
    either way. *)
Definition exec (st : Statement) (c : Catalog) : Catalog * Result :=
  match st with
  | Insert d =>
      let r := with_id (id_seq c) d in
      if decide (Exists (clashes r) (rows c))
      then (mkCatalog (rows c) (id_seq c + 1), unique_violation)
      else (mkCatalog (rows c ++ [r]) (id_seq c + 1), completed 1)
  | Update w a =>
      match update_rows w a [] (rows c) with
      | Some (rows', n) => (mkCatalog rows' (id_seq c), completed n)
      | None => (c, unique_violation)
      end
  | Delete i =>
      let rows' := filter (λ r, EnergyDrink.id r ≠ i) (rows c) in
      (mkCatalog rows' (id_seq c), completed (length (rows c) - length rows'))
  end.

(** The table as [CREATE TABLE] leaves it. *)
Definition empty : Catalog := mkCatalog [] 1.

(** The states the statements can bring about. *)
Inductive reachable : Catalog → Prop :=
  | reach_empty : reachable empty
  | reach_exec st c : reachable c → reachable (exec st c).1.

(** The table an [UPDATE] would leave if nothing were checked. *)
Definition rewritten (w : Where) (a : Assignment) (l : list EnergyDrink.t) : list EnergyDrink.t :=
  (λ r, if decide (selects w r) then assign a r else r) <$> l.

(** The catalog after the first two [INSERT]s of the migration. *)
Definition red_bull : NewDrink :=
  mkNew "Red Bull" "Original" 250 (Some 80) None (Some 27%Q) (Some 110)
    (Some "Classic Red Bull energy drink") None.

Definition red_bull_sugar_free : NewDrink :=
  mkNew "Red Bull" "Sugar Free" 250 (Some 80) None (Some 0%Q) (Some 10)
    (Some "Red Bull with zero sugar") None.

Definition two_red_bulls : Catalog :=
  (exec (Insert red_bull_sugar_free) (exec (Insert red_bull) empty).1).1.

End Catalog.

(** The collation of the bytes, for the examples. *)
Definition byte_order : Collation :=
  {| collate_le := String.le |}.

(** * Further code of the cited files *)

(** ** Keys and variants of a scan *)

Module ScanKeys.
Import Scan.

(** The key of [UNIQUE (store_id, drink_id)] on [store_inventory]. *)
Definition pair_key (r : StoreInventory.t) : Z * Z :=
  (StoreInventory.store_id r, StoreInventory.drink_id r).

(** The same request with other coordinates, or none. *)
Definition with_coordinates (req : ScanRequest) (lat lon : option Q) : ScanRequest :=
  mkRequest (barcode req) (store_id req) lat lon (price req) (in_stock req).

(** The foreign keys of [store_inventory]: every row refers to a store and
    to a drink that the tables have. *)
Definition references_hold (db : Db) : Prop :=
  Forall (λ r, Exists (λ s, Store.id s = StoreInventory.store_id r) (stores db)
               ∧ Exists (λ d, EnergyDrink.id d = StoreInventory.drink_id r) (energy_drinks db))
    (store_inventory db).

Global Instance references_hold_dec db : Decision (references_hold db).
Proof. unfold references_hold. apply _. Defined.

End ScanKeys.

(** ** Readings of a nearby-stores query *)

Module NearbyKeys.
Import Nearby.

(** The parameter is absent or empty, is not a number, or is 0. *)
Definition unusable (x : option (parsed Q)) : Prop :=
  x = None ∨ x = Some NaN ∨ ∃ v, x = Some (Num v) ∧ (v == 0)%Q.

End NearbyKeys.

(** ** Geocoding: the batch, and the two ways of asking *)

Module GeocodeKeys.
Import Geocode.

(** The body that carries by POST what the query carries by GET. *)
Definition body_of_query (query : GeocodeQuery) : GeocodeRequest :=
  mkComponents (fullAddress query) (param_city query) (param_state query) (zipCode query)
    (param_country query).

(** [batchGeocodeAddresses] ([src/lib/geocode.ts], lines 113-135): the
    loop pushes the result of each address, or [null] where
    [geocodeAddress] throws; the delay between two requests is not part of
    the model. *)
Definition batch_turn `{JsRuntime} (w : World) (results : list (option GeocodeResult))
    (address : string + AddressComponents) : list (option GeocodeResult) :=
  match geocodeAddress w address with
  | inr result => results ++ [Some result]
  | inl _ => results ++ [None]
  end.

Definition batchGeocodeAddresses `{JsRuntime} (w : World)
    (addresses : list (string + AddressComponents)) : list (option GeocodeResult) :=
  fold_left (batch_turn w) addresses [].

(** A full address of white space, sent by POST. *)
Definition blank_address_request : GeocodeRequest :=
  mkComponents (Some "  ") None None None None.

End GeocodeKeys.

(** ** OpenStreetMap ([src/lib/overpass.ts]) *)

(** [String.prototype.trim]: what it strips is the engine's business; the
    properties below hold whatever it is. *)
Class JsStrings := {
  trim : string → string
}.

Module Overpass.

(** The tags of an element that the code reads. *)
Module Tags.
Record t := mk {
  name : option string;
  addr_street : option string;
  addr_housenumber : option string;
  addr_city : option string;
  addr_state : option string;
  addr_postcode : option string;
  brand : option string
}.
End Tags.

(** [center] is a (lat, lon) pair. *)
Module OverpassElement.
Record t := mk {
  lat : option Q;
  lon : option Q;
  center : option (Q * Q);
  tags : Tags.t
}.
End OverpassElement.

Module GasStation.
Record t := mk {
  name : string;
  address : string;
  city : string;
  state : string;
  zipCode : string;
  latitude : Q;
  longitude : Q;
  brand : option string
}.
End GasStation.

(** The ways the exchange with overpass-api.de can go. *)
Inductive FetchOutcome :=
  (* [fetch] rejects with an [Error] *)
  | fetch_failed (message : string)
  (* [!response.ok] *)
  | not_ok (statusText : string)
  (* [response.json()] rejects with an [Error] *)
  | json_failed (message : string)
  (* the [elements] of the parsed body *)
  | json (elements : list OverpassElement.t).

(** The provider: its answer to the query for the fuel amenities around
    ([radiusMeters], [latitude], [longitude]), the three numbers the query
    text is made of. *)
Record World := mkWorld {
  fetch : Q → Q → Q → FetchOutcome
}.

(** [element.lat ?? element.center?.lat], and the longitude alike. *)
Definition lat_of (element : OverpassElement.t) : option Q :=
  match OverpassElement.lat element with
  | Some x => Some x
  | None => fst <$> OverpassElement.center element
  end.

Definition lon_of (element : OverpassElement.t) : option Q :=
  match OverpassElement.lon element with
  | Some x => Some x
  | None => snd <$> OverpassElement.center element
  end.

(** The callback of [filter]: [lat && lon && element.tags.name]. *)
Definition has_coordinates_and_name (element : OverpassElement.t) : bool :=
  Js.truthy_number (lat_of element) && Js.truthy_number (lon_of element)
  && Js.truthy_string (Tags.name (OverpassElement.tags element)).

(** [x || d] on an optional string, [d] being a string. *)
Definition or_text (x : option string) (d : string) : string :=
  default d (Js.or_string x (Some d)).

(** The callback of [map]. *)
Definition to_station `{JsStrings} (element : OverpassElement.t) : GasStation.t :=
  (* [element.lat ?? element.center!.lat]: the filter has seen a
     coordinate, so that the last default is not reached *)
  let lat := default 0%Q (lat_of element) in
  let lon := default 0%Q (lon_of element) in
  let tags := OverpassElement.tags element in
  let streetNumber := or_text (Tags.addr_housenumber tags) "" in
  let street := or_text (Tags.addr_street tags) "" in
  let address := or_text (Some (trim (streetNumber +:+ " " +:+ street))) "Address not available" in
  {| GasStation.name :=
       or_text (Js.or_string (Tags.brand tags) (Tags.name tags)) "Unknown Gas Station";
     GasStation.address := address;
     GasStation.city := or_text (Tags.addr_city tags) "Unknown";
     GasStation.state := or_text (Tags.addr_state tags) "Unknown";
     GasStation.zipCode := or_text (Tags.addr_postcode tags) "00000";
     GasStation.latitude := lat;
     GasStation.longitude := lon;
     GasStation.brand := Tags.brand tags |}.

(** The function returns the stations or throws an [Error] with a message. *)
Definition findNearbyGasStations `{JsStrings} (w : World) (latitude longitude radiusMeters : Q)
  : string + list GasStation.t :=
  match fetch w radiusMeters latitude longitude with
  | fetch_failed m => inl m
  | not_ok statusText => inl ("Overpass API error: " +:+ statusText)
  | json_failed m => inl m
  | json elements =>
      inr (to_station <$> filter (λ e, has_coordinates_and_name e) elements)
  end.

(** The same after a second of waiting; time is not part of the model. *)
Definition findNearbyGasStationsRateLimited `{JsStrings} (w : World)
    (latitude longitude radiusMeters : Q) : string + list GasStation.t :=
  findNearbyGasStations w latitude longitude radiusMeters.

(** A [trim] for the examples: the white space of the ASCII range. *)
Fixpoint trim_start (s : string) : string :=
  match s with
  | EmptyString => EmptyString
  | String c s' => if Ascii.is_space c then trim_start s' else s
  end.

Definition ascii_trim : JsStrings :=
  {| trim s := String.rev (trim_start (String.rev (trim_start s))) |}.

(** Two elements for the examples: a station with its address, and one
    that OpenStreetMap knows by name and place only. *)
Definition shell_broadway : OverpassElement.t :=
  OverpassElement.mk (Some 40.72%Q) (Some (-74.00)%Q) None
    (Tags.mk (Some "Shell Broadway") (Some "Broadway") (Some "512") (Some "New York")
       (Some "NY") (Some "10012") (Some "Shell")).

Definition corner_fuel : OverpassElement.t :=
  OverpassElement.mk None None (Some (40.73%Q, (-73.99)%Q))
    (Tags.mk (Some "Corner Fuel") None None None None None None).

Definition two_elements : World :=
  mkWorld (λ _ _ _, json [shell_broadway; corner_fuel]).

End Overpass.

(** ** POST /api/stores/discover ([src/app/api/stores/nearby/route.ts],
       lines 138-250) *)

(** The [stores] table on the side of the database.  [LOWER] follows the
    locale of the database.  An [INSERT] is refused where a column does not
    take its value ([state VARCHAR(2)], [latitude DECIMAL(10, 8)], ...):
    [refuses] says for which values, and [refusal_draws] whether the
    refused statement has drawn its id from the sequence before it fails.
    A row that is stored holds the values it was given. *)
Class StoresTable := {
  LOWER : string → string;
  refuses : Overpass.GasStation.t → bool;
  refusal_draws : bool
}.

Module Discover.
Import Overpass.

(** The table and the sequence behind [stores.id SERIAL]. *)
Record Stores := mkStores {
  rows : list Store.t;
  stores_id_seq : Z
}.

(** The parsed JSON body, its numbers being numbers. *)
Record DiscoverRequest := mkRequest {
  latitude : option Q;
  longitude : option Q;
  radius : option Q;
  autoImport : option bool
}.

Module Status.
Inductive t := added | skipped | error.
End Status.

Global Instance Status_eq_dec : EqDecision Status.t.
Proof. solve_decision. Defined.

(** [results], and the [data] of the answer. *)
Record Results := mkResults {
  discovered : nat;
  added : nat;
  skipped : nat;
  stations : list (GasStation.t * Status.t)
}.

Record DiscoverStoresResponse := mkResponse {
  success : bool;
  message : string;
  data : option Results;
  error : option string
}.

(** [WHERE LOWER(address) = LOWER($1) AND LOWER(city) = LOWER($2)]. *)
Definition same_place `{StoresTable} (station : GasStation.t) (r : Store.t) : Prop :=
  LOWER (Store.address r) = LOWER (GasStation.address station)
  ∧ LOWER (Store.city r) = LOWER (GasStation.city station).

Global Instance same_place_dec `{StoresTable} station r : Decision (same_place station r).
Proof. unfold same_place. apply _. Defined.

(** [SELECT id FROM stores WHERE ...] *)
Definition existing `{StoresTable} (t : Stores) (station : GasStation.t) : list Store.t :=
  filter (same_place station) (rows t).

(** The row of a station. *)
Definition row_of (id : Z) (station : GasStation.t) : Store.t :=
  Store.mk id (GasStation.name station) (GasStation.address station) (GasStation.city station)
    (GasStation.state station) (GasStation.zipCode station)
    (GasStation.latitude station) (GasStation.longitude station).

(** [INSERT INTO stores (name, address, city, state, zip_code, latitude,
    longitude, location) VALUES (...)]: the table after the statement, and
    whether the statement went through. *)
Definition insert_store `{StoresTable} (t : Stores) (station : GasStation.t) : Stores * bool :=
  if refuses station
  then (mkStores (rows t) (if refusal_draws then stores_id_seq t + 1 else stores_id_seq t),
        false)
  else (mkStores (rows t ++ [row_of (stores_id_seq t) station]) (stores_id_seq t + 1), true).

(** One turn of the loop over the discovered stations. *)
Definition import_station `{StoresTable} (acc : Stores * Results) (station : GasStation.t)
  : Stores * Results :=
  let '(t, results) := acc in
  match existing t station with
  | _ :: _ =>
      (t, mkResults (discovered results) (added results) (S (skipped results))
            (stations results ++ [(station, Status.skipped)]))
  | [] =>
      let '(t', inserted) := insert_store t station in
      if inserted
      then (t', mkResults (discovered results) (S (added results)) (skipped results)
                  (stations results ++ [(station, Status.added)]))
      else (t', mkResults (discovered results) (added results) (skipped results)
                  (stations results ++ [(station, Status.error)]))
  end.

(** The loop. *)
Definition import_stations `{StoresTable} (t : Stores) (discoveredStations : list GasStation.t)
  : Stores * Results :=
  fold_left import_station discoveredStations
    (t, mkResults (length discoveredStations) 0 0 []).

Definition POST `{JsStrings} `{StoresTable} (w : World) (t : Stores) (body : DiscoverRequest)
  : Stores * (Z * DiscoverStoresResponse) :=
  let radius := Js.defined_or (radius body) 5000%Q in
  let autoImport := Js.defined_or (autoImport body) false in
  let invalid :=
    (t, (400, mkResponse false "Latitude and longitude are required" None
                (Some "Missing or invalid location parameters"))) in
  if negb (Js.truthy_number (latitude body)) || negb (Js.truthy_number (longitude body))
  then invalid
  else
    match latitude body, longitude body with
    | Some latitude, Some longitude =>
        match findNearbyGasStationsRateLimited w latitude longitude radius with
        | inl m => (t, (500, mkResponse false "Internal server error" None (Some m)))
        | inr discoveredStations =>
            if autoImport then
              let '(t', results) := import_stations t discoveredStations in
              (t', (200, mkResponse true
                           ("Discovered " +:+ pretty (discovered results)
                            +:+ " stations, added " +:+ pretty (added results)
                            +:+ ", skipped " +:+ pretty (skipped results))
                           (Some results) None))
            else
              (t, (200, mkResponse true
                          ("Discovered " +:+ pretty (length discoveredStations)
                           +:+ " gas stations")
                          (Some (mkResults (length discoveredStations) 0 0
                                   ((λ s, (s, Status.skipped)) <$> discoveredStations)))
                          None))
        end
    | _, _ =>
        (* not reached: the validation has seen both coordinates *)
        invalid
    end.

(** The part of the handler that does not read the table: either the early
    answer, or the stations the provider has. *)
Definition discover `{JsStrings} (w : World) (body : DiscoverRequest)
  : Z * DiscoverStoresResponse + list GasStation.t :=
  let invalid :=
    (400, mkResponse false "Latitude and longitude are required" None
            (Some "Missing or invalid location parameters")) in
  if negb (Js.truthy_number (latitude body)) || negb (Js.truthy_number (longitude body))
  then inl invalid
  else
    match latitude body, longitude body with
    | Some latitude, Some longitude =>
        match findNearbyGasStationsRateLimited w latitude longitude
                (Js.defined_or (radius body) 5000%Q) with
        | inl m => inl (500, mkResponse false "Internal server error" None (Some m))
        | inr discoveredStations => inr discoveredStations
        end
    | _, _ => inl invalid
    end.

(** What a status says of its station, on the table after the import:
    an added station was taken by the database and has its row; a skipped
    one has a row at its place; the database refused the other ones. *)
Definition explained `{StoresTable} (after : list Store.t) (e : GasStation.t * Status.t)
  : Prop :=
  match e.2 with
  | Status.added => refuses e.1 = false ∧ Exists (same_place e.1) after
  | Status.skipped => Exists (same_place e.1) after
  | Status.error => refuses e.1 = true
  end.

(** The number of stations of a status in the list of an answer. *)
Definition count (s : Status.t) (l : list (GasStation.t * Status.t)) : nat :=
  length (filter (λ e, e.2 = s) l).

(** A database for the examples: letters of the ASCII range, and states of
    two characters at most. *)
Definition two_letter_states : StoresTable :=
  {| LOWER := Js.toLowerCase;
     refuses station := (2 <? String.length (GasStation.state station))%nat;
     refusal_draws := true |}.

Definition empty : Stores := mkStores [] 1.

Definition import_request : DiscoverRequest :=
  mkRequest (Some 40.72%Q) (Some (-74.00)%Q) None (Some true).

End Discover.

(** ** GET /api/stores/all ([src/app/api/scan/route.ts], lines 201-240) *)

Module AllStores.

Record AllStoresResponse := mkResponse {
  success : bool;
  message : string;
  data : option (list Store.t);
  error : option string
}.

(** [ORDER BY name]. *)
Definition by_name `{Collation} (a b : Store.t) : Prop :=
  collate_le (Store.name a) (Store.name b).

Global Instance by_name_dec `{Collation} : RelDecision by_name.
Proof. intros a b. unfold by_name. apply _. Defined.

Definition GET `{Collation} (table : list Store.t) : Z * AllStoresResponse :=
  let stores := merge_sort by_name table in
  (200, mkResponse true ("Found " +:+ pretty (length stores) +:+ " stores") (Some stores) None).

End AllStores.

(** ** The ingest script ([src/unnamed/part_006])

    The script reads the drinks of a JSON file and writes them to the
    catalog, with the statements of [Catalog]; its console output is not
    part of the model. *)

Module Ingest.

Record DrinkData := mkDrink {
  brand : string;
  flavor : string;
  upc : option string
}.

(** [s.replace(/^0+/, '')]. *)
Fixpoint strip_zeros (s : string) : string :=
  match s with
  | EmptyString => EmptyString
  | String c s' => if Ascii.eqb c (Ascii.ascii_of_N 48) then strip_zeros s' else s
  end.

(** [drink.upc ? drink.upc.replace(/^0+/, '') : null]. *)
Definition barcode_of (drink : DrinkData) : option string :=
  if Js.truthy_string (upc drink) then strip_zeros <$> upc drink else None.

(** [size_ml] and [caffeine_mg], as the brand and the flavor have them. *)
Definition standards (drink : DrinkData) : Z * Z :=
  let '(size_ml, caffeine_mg) :=
    if String.eqb (brand drink) "Red Bull" then (250, 80)
    else if String.eqb (brand drink) "Celsius" then (355, 200)
    else if String.eqb (brand drink) "Alani Nu" then (355, 200)
    else if Js.includes (flavor drink) "12oz" || Js.includes (flavor drink) "12-pack"
         then (355, 300)
         else (473, 300) in
  let caffeine_mg :=
    if String.eqb (brand drink) "Monster" || String.eqb (brand drink) "Reign"
    then 300 else caffeine_mg in
  let caffeine_mg := if String.eqb (brand drink) "Bang" then 300 else caffeine_mg in
  (size_ml, caffeine_mg).

(** [SELECT id, barcode FROM energy_drinks WHERE barcode = $1]. *)
Definition select_by_barcode (c : Catalog.Catalog) (barcode : string) : list EnergyDrink.t :=
  filter (λ r, EnergyDrink.barcode r = Some barcode) (Catalog.rows c).

(** [SELECT id, barcode FROM energy_drinks WHERE brand = $1 AND flavor = $2
    AND size_ml = $3]. *)
Definition select_by_triple (c : Catalog.Catalog) (brand flavor : string) (size_ml : Z)
  : list EnergyDrink.t :=
  filter (λ r, Catalog.triple r = (brand, flavor, size_ml)) (Catalog.rows c).

(** The rows of [existingDrink]: by barcode where there is one, and by
    brand, flavor and size where that finds nothing. *)
Definition existingDrink (c : Catalog.Catalog) (drink : DrinkData) : list EnergyDrink.t :=
  let barcode := barcode_of drink in
  let by_barcode :=
    if Js.truthy_string barcode then select_by_barcode c (default "" barcode) else [] in
  match by_barcode with
  | [] => select_by_triple c (brand drink) (flavor drink) (standards drink).1
  | _ :: _ => by_barcode
  end.

Record Counters := mkCounters {
  inserted : nat;
  updated : nat;
  skipped : nat
}.

(** [UPDATE energy_drinks SET barcode = $1 WHERE id = $2]. *)
Definition set_barcode (barcode : option string) (id : Z) : Catalog.Statement :=
  Catalog.Update (Catalog.ById id) (Catalog.mkSet None None None None (Some barcode)).

(** [INSERT INTO energy_drinks (brand, flavor, size_ml, caffeine_mg,
    barcode, description) VALUES (...)]. *)
Definition insert_drink (drink : DrinkData) : Catalog.Statement :=
  Catalog.Insert
    (Catalog.mkNew (brand drink) (flavor drink) (standards drink).1
       (Some (standards drink).2) (barcode_of drink) None None
       (Some (brand drink +:+ " " +:+ flavor drink +:+ " energy drink")) None).

(** A statement with the [catch] of the loop around it: the error of code
    23505 counts as skipped. *)
Definition counted (st : Catalog.Statement) (c : Catalog.Catalog) (k on_success : Counters)
  : Catalog.Catalog * Counters :=
  match Catalog.exec st c with
  | (c', Catalog.completed _) => (c', on_success)
  | (c', Catalog.unique_violation) =>
      (c', mkCounters (inserted k) (updated k) (S (skipped k)))
  end.

(** One turn of the loop. *)
Definition ingest_drink (acc : Catalog.Catalog * Counters) (drink : DrinkData)
  : Catalog.Catalog * Counters :=
  let '(c, k) := acc in
  let barcode := barcode_of drink in
  match existingDrink c drink with
  | existing :: _ =>
      if negb (Js.truthy_string (EnergyDrink.barcode existing)) && Js.truthy_string barcode
      then counted (set_barcode barcode (EnergyDrink.id existing)) c k
             (mkCounters (inserted k) (S (updated k)) (skipped k))
      else (c, mkCounters (inserted k) (updated k) (S (skipped k)))
  | [] =>
      counted (insert_drink drink) c k (mkCounters (S (inserted k)) (updated k) (skipped k))
  end.

(** The loop over the drinks of the file. *)
Definition ingestDrinks (c : Catalog.Catalog) (drinks : list DrinkData)
  : Catalog.Catalog * Counters :=
  fold_left ingest_drink drinks (c, mkCounters 0 0 0).

(** A barcode is normal when it does not begin with a zero. *)
Definition normal (barcode : option string) : Prop :=
  match barcode with
  | Some bc => strip_zeros bc = bc
  | None => True
  end.

(** The barcode of a row is one the catalog [c] has, or is normal. *)
Definition barcodes_from (c : Catalog.Catalog) (r' : EnergyDrink.t) : Prop :=
  (∃ r, r ∈ Catalog.rows c ∧ EnergyDrink.barcode r' = EnergyDrink.barcode r)
  ∨ normal (EnergyDrink.barcode r').

(** The row with another barcode. *)
Definition with_barcode (barcode : option string) (r : EnergyDrink.t) : EnergyDrink.t :=
  Catalog.assign (Catalog.mkSet None None None None (Some barcode)) r.

(** What the script may make of a row: leave it, or give it a barcode
    where it had none. *)
Definition filled (r r' : EnergyDrink.t) : Prop :=
  r' = r
  ∨ (Js.truthy_string (EnergyDrink.barcode r) = false
     ∧ ∃ bc, Js.truthy_string (Some bc) = true ∧ r' = with_barcode (Some bc) r).

(** The script has nothing to do for a drink: it finds a row for it, and
    has no barcode to give to a row that lacks one. *)
Definition quiet (c : Catalog.Catalog) (drink : DrinkData) : Prop :=
  ∃ existing rest,
    existingDrink c drink = existing :: rest
    ∧ negb (Js.truthy_string (EnergyDrink.barcode existing))
      && Js.truthy_string (barcode_of drink) = false.

(** A drink of the file for the examples: the UPC of the Monster of the
    migration, which begins with a zero. *)
Definition monster_original : DrinkData :=
  mkDrink "Monster" "Original" (Some "070847811169").

End Ingest.

(** ** DELETE /api/drinks/manage ([src/unnamed/part_003], lines 315-342) *)

Module DrinksAdmin.

Record DeleteResponse := mkResponse {
  success : bool;
  message : option string;
  error : option string
}.

(** [DELETE FROM energy_drinks WHERE id = $1], which
    [prisma.energy_drinks.delete] runs: the rows of [store_inventory] that
    refer to the drink go with it ([ON DELETE CASCADE]). *)
Definition delete_drink (db : Db) (id : Z) : Db :=
  mkDb (stores db)
    (filter (λ d, EnergyDrink.id d ≠ id) (energy_drinks db))
    (filter (λ r, StoreInventory.drink_id r ≠ id) (store_inventory db))
    (store_inventory_id_seq db).

(** The handler.  [id] is the parameter of the query string, read as the
    number its text denotes: [None] for a parameter that is absent or empty,
    [Some NaN] for a text that [parseInt] does not read.  [delete] throws
    on an id that is not a number and on an id that no row has. *)
Definition DELETE (db : Db) (id : option (parsed Z)) : Db * (Z * DeleteResponse) :=
  let failed := (db, (500, mkResponse false None (Some "Failed to delete drink"))) in
  match id with
  | None => (db, (400, mkResponse false None (Some "Drink ID is required")))
  | Some NaN => failed
  | Some (Num n) =>
      if decide (Exists (λ d, EnergyDrink.id d = n) (energy_drinks db))
      then (delete_drink db n,
            (200, mkResponse true (Some "Drink deleted successfully") None))
      else failed
  end.

End DrinksAdmin.

(** ** POST /api/drinks/manage ([src/unnamed/part_003], lines 241-275) *)

(** [parseInt] on a text. *)
Class JsIntegers := {
  parseInt : string → parsed Z
}.

Module DrinksCreate.

(** The parsed JSON body, with the texts of the form of the administration
    page. *)
Record DrinkBody := mkBody {
  brand : option string;
  flavor : option string;
  size_ml : option string;
  caffeine_mg : option string;
  barcode : option string
}.

Record DrinkResponse := mkResponse {
  success : bool;
  data : option EnergyDrink.t;
  error : option string
}.

(** An [Int] of the Prisma schema is an INTEGER of the database. *)
Definition int4 (n : Z) : bool := (-2147483648 <=? n) && (n <=? 2147483647).

(** The [data] of [prisma.energy_drinks.create], or [None] where the
    client refuses a number that is [NaN] or does not fit an [Int]. *)
Definition create_data `{JsIntegers} (body : DrinkBody) : option Catalog.NewDrink :=
  match parseInt (default "" (size_ml body)) with
  | Num size =>
      if int4 size then
        let barcode := if Js.truthy_string (barcode body) then barcode body else None in
        let new caffeine :=
          Catalog.mkNew (default "" (brand body)) (default "" (flavor body)) size caffeine
            barcode None None None None in
        if Js.truthy_string (caffeine_mg body) then
          match parseInt (default "" (caffeine_mg body)) with
          | Num caffeine => if int4 caffeine then Some (new (Some caffeine)) else None
          | NaN => None
          end
        else Some (new None)
      else None
  | NaN => None
  end.

Definition POST `{JsIntegers} (c : Catalog.Catalog) (body : DrinkBody)
  : Catalog.Catalog * (Z * DrinkResponse) :=
  let failed := (500, mkResponse false None (Some "Failed to create drink")) in
  if negb (Js.truthy_string (brand body)) || negb (Js.truthy_string (flavor body))
     || negb (Js.truthy_string (size_ml body))
  then (c, (400, mkResponse false None (Some "Brand, flavor, and size are required")))
  else
    match create_data body with
    | Some d =>
        match Catalog.exec (Catalog.Insert d) c with
        | (c', Catalog.completed _) =>
            (c', (200, mkResponse true (Some (Catalog.with_id (Catalog.id_seq c) d)) None))
        | (c', Catalog.unique_violation) => (c', failed)
        end
    | None => (c, failed)
    end.

(** A [parseInt] for the examples: an optional minus sign and digits. *)
Fixpoint digits (s : string) (acc : Z) : parsed Z :=
  match s with
  | EmptyString => Num acc
  | String c s' =>
      match Ascii.is_nat c with
      | Some d => digits s' (10 * acc + Z.of_nat d)
      | None => NaN
      end
  end.



End DrinksCreate.

(** * Properties *)

(** ** The order of the nearest-neighbour operator *)

Global Instance nearer_total `{PostGIS} p : Total (nearer p).
Proof.
  intros s1 s2. unfold nearer.
  destruct (Qlt_le_dec (knn_distance (location s2) p) (knn_distance (location s1) p)) as [Hlt|Hle].
  - right. now apply Qlt_le_weak.
  - now left.
Qed.

Global Instance nearer_trans `{PostGIS} p : Transitive (nearer p).
Proof. intros s1 s2 s3. unfold nearer. apply Qle_trans. Qed.

(** ** Properties of the scan handler *)

Module ScanFacts.
Import Scan.

(** *** The column types *)


(** Rounding moves a number by half a unit at most. *)
Lemma round_half_away_near (x : Q) :
  (Qabs (x - inject_Z (round_half_away x)) <= 1 # 2)%Q.
Proof.
  destruct x as [n d]. unfold round_half_away. cbn [Qnum Qden].
  assert (Hd : 0 < Z.pos d) by lia.
  assert (H2d : 0 < 2 * Z.pos d) by lia.
  destruct (0 <=? n) eqn:Hn.
  - apply Z.leb_le in Hn.
    pose proof (Z.div_mod (2 * n + Z.pos d) (2 * Z.pos d)) as Hdm.
    pose proof (Z.mod_pos_bound (2 * n + Z.pos d) (2 * Z.pos d) H2d) as Hmod.
    set (z := (2 * n + Z.pos d) / (2 * Z.pos d)) in *.
    unfold Qle, Qabs, Qminus, Qplus, Qopp, inject_Z. cbn [Qnum Qden]. lia.
  - apply Z.leb_gt in Hn.
    pose proof (Z.div_mod (2 * - n + Z.pos d) (2 * Z.pos d)) as Hdm.
    pose proof (Z.mod_pos_bound (2 * - n + Z.pos d) (2 * Z.pos d) H2d) as Hmod.
    set (z := (2 * - n + Z.pos d) / (2 * Z.pos d)) in *.
    unfold Qle, Qabs, Qminus, Qplus, Qopp, inject_Z. cbn [Qnum Qden]. lia.
Qed.

(** Rounding leaves an integer as it is. *)
Lemma round_half_away_integer (x : Q) (z : Z) :
  (x == inject_Z z)%Q → round_half_away x = z.
Proof.
  destruct x as [n d]. unfold Qeq, inject_Z, round_half_away. cbn [Qnum Qden].
  intros Hx. assert (Hn : n = z * Z.pos d) by lia. subst n.
  assert (H2d : 0 < 2 * Z.pos d) by lia.
  destruct (0 <=? z * Z.pos d) eqn:Hz.
  - symmetry. apply (Z.div_unique_pos _ _ _ (Z.pos d)); lia.
  - assert (- ((2 * - (z * Z.pos d) + Z.pos d) / (2 * Z.pos d)) = z); [|done].
    assert ((2 * - (z * Z.pos d) + Z.pos d) / (2 * Z.pos d) = - z); [|lia].
    symmetry. apply (Z.div_unique_pos _ _ _ (Z.pos d)); lia.
Qed.

(** What the price column holds is within half a cent of what it was
    given, and is what it was given when that is a number of cents. *)
Lemma decimal_6_2_near (p stored : Q) :
  decimal_6_2 p = Some stored →
  stored = (round_half_away (p * 100) # 100)
  ∧ (Qabs (p - stored) <= 1 # 200)%Q
  ∧ (Qabs stored < 10000)%Q.
Proof.
  unfold decimal_6_2. destruct (Z.abs _ <? 1000000) eqn:Hfit; [|done].
  intros [= <-]. apply Z.ltb_lt in Hfit. split; [done|].
  pose proof (round_half_away_near (p * 100)) as Hnear.
  set (z := round_half_away (p * 100)) in *. split.
  - destruct p as [n d]. revert Hnear.
    unfold Qle, Qabs, Qminus, Qplus, Qopp, Qmult, inject_Z. cbn [Qnum Qden]. lia.
  - unfold Qlt, Qabs. cbn [Qnum Qden]. lia.
Qed.

Lemma decimal_6_2_cents (p : Q) (cents : Z) :
  (p == cents # 100)%Q → Z.abs cents < 1000000 → decimal_6_2 p = Some (cents # 100).
Proof.
  intros Hp Hfit. unfold decimal_6_2.
  assert (Hz : round_half_away (p * 100) = cents).
  { apply round_half_away_integer. rewrite Hp.
    unfold Qeq, Qmult, inject_Z. cbn [Qnum Qden]. lia. }
  rewrite Hz. by rewrite (proj2 (Z.ltb_lt _ _) Hfit).
Qed.

Lemma decimal_6_2_zero (p : Q) : (p == 0)%Q → decimal_6_2 p = Some (0 # 100).
Proof. intros Hp. apply decimal_6_2_cents; [by rewrite Hp|done]. Qed.

Section Upsert.
Context (now : timestamp) (db : Db) (sid did : Z) (p : Q) (inStock : bool).

Lemma do_update_same_pair now' p' i' r :
  same_pair sid did (do_update now' p' i' r) ↔ same_pair sid did r.
Proof. reflexivity. Qed.

Lemma upsert_keeps_stores : stores (upsert_rows now db sid did p inStock).1 = stores db.
Proof. reflexivity. Qed.

Lemma upsert_keeps_drinks :
  energy_drinks (upsert_rows now db sid did p inStock).1 = energy_drinks db.
Proof. reflexivity. Qed.

(** Whether the pair was there or not, [RETURNING] yields a row. *)
Lemma upsert_returning_nonempty :
  (0 < length (upsert_rows now db sid did p inStock).2)%nat.
Proof.
  unfold upsert_rows; cbn [snd].
  destruct (decide (Exists (same_pair sid did) (store_inventory db))) as [Hex|Hnone].
  - apply Exists_exists in Hex as (r & Hin & Hr).
    assert (Hmem : do_update now p inStock r ∈
              filter (same_pair sid did)
                ((λ r, if decide (same_pair sid did r) then do_update now p inStock r else r)
                   <$> store_inventory db)).
    { apply list_elem_of_filter. split; [by apply do_update_same_pair|].
      apply list_elem_of_fmap. exists r. split; [|done]. by rewrite decide_True. }
    destruct (filter _ _); [by apply elem_of_nil in Hmem | simpl; lia].
  - simpl; lia.
Qed.

(** After the statement the pair is in the table, and every row of the
    pair carries the price and the flag of the statement. *)
Lemma upsert_pair_present :
  Exists (same_pair sid did) (store_inventory (upsert_rows now db sid did p inStock).1).
Proof.
  unfold upsert_rows; cbn [fst store_inventory].
  destruct (decide (Exists (same_pair sid did) (store_inventory db))) as [Hex|Hnone].
  - apply Exists_exists in Hex as (r & Hin & Hr). apply Exists_exists.
    exists (do_update now p inStock r). split; [|by apply do_update_same_pair].
    apply list_elem_of_fmap. exists r. by rewrite decide_True.
  - apply Exists_app. right. by constructor.
Qed.

Lemma upsert_pair_values r :
  r ∈ store_inventory (upsert_rows now db sid did p inStock).1 →
  same_pair sid did r →
  StoreInventory.price r = p ∧ StoreInventory.in_stock r = inStock
  ∧ StoreInventory.last_updated r = now.
Proof.
  unfold upsert_rows; cbn [fst store_inventory].
  destruct (decide (Exists (same_pair sid did) (store_inventory db))) as [Hex|Hnone].
  - intros (r0 & -> & Hin)%list_elem_of_fmap Hr.
    destruct (decide (same_pair sid did r0)); [done|contradiction].
  - intros [Hin | ->%list_elem_of_singleton]%elem_of_app Hr; [|done].
    exfalso. apply Hnone, Exists_exists. by exists r.
Qed.

(** Rows of other pairs are left as they were. *)
Lemma upsert_other_rows r :
  ¬ same_pair sid did r →
  r ∈ store_inventory (upsert_rows now db sid did p inStock).1 ↔ r ∈ store_inventory db.
Proof.
  intros Hr. unfold upsert_rows; cbn [fst store_inventory].
  destruct (decide (Exists (same_pair sid did) (store_inventory db))) as [Hex|Hnone].
  - rewrite list_elem_of_fmap. split.
    + intros (r0 & -> & Hin). destruct (decide (same_pair sid did r0)); [|done].
      exfalso. by apply Hr, do_update_same_pair.
    + intros Hin. exists r. by rewrite decide_False.
  - rewrite elem_of_app, list_elem_of_singleton. split; [|tauto].
    intros [?| ->]; [done|]. exfalso. by apply Hr.
Qed.

End Upsert.

(** A second identical statement changes timestamps only. *)
Lemma upsert_twice now1 now2 db sid did p inStock :
  let db1 := (upsert_rows now1 db sid did p inStock).1 in
  StoreInventory.content <$> store_inventory (upsert_rows now2 db1 sid did p inStock).1
  = StoreInventory.content <$> store_inventory db1.
Proof.
  intros db1.
  pose proof (upsert_pair_present now1 db sid did p inStock) as Hex.
  pose proof (upsert_pair_values now1 db sid did p inStock) as Hval.
  fold db1 in Hex, Hval.
  unfold upsert_rows at 1; cbn [fst store_inventory].
  rewrite decide_True by done.
  rewrite <- list_fmap_compose. apply Forall_fmap_ext, Forall_forall.
  intros r Hin. simpl. destruct (decide (same_pair sid did r)) as [Hr|]; [|done].
  destruct (Hval r Hin Hr) as (Hp & Hi & _). unfold StoreInventory.content. simpl.
  by rewrite Hp, Hi.
Qed.

Section Handler.
Context `{PostGIS}.

Lemma POST_resolve now db req :
  POST now db req =
  match resolve db req with
  | inl (st, resp) => mkOutcome db [] st resp
  | inr (drink, store, log) => record_inventory now db req drink store log
  end.
Proof.
  unfold POST, resolve.
  repeat (case_match; try reflexivity).
Qed.

Lemma resolve_same_catalog db db' req :
  stores db' = stores db → energy_drinks db' = energy_drinks db →
  resolve db' req = resolve db req.
Proof.
  intros Hs Hd. unfold resolve, select_drink, select_store, select_nearest_store.
  by rewrite Hs, Hd.
Qed.

Lemma resolve_early_status db req st resp :
  resolve db req = inl (st, resp) → st ≠ 200 ∧ success resp = false ∧ data resp = None.
Proof.
  unfold resolve. repeat case_match; intros [= <- <-]; done.
Qed.

(** The price the column refuses: the statement fails, the answer is 500
    and nothing is written. *)
Lemma record_inventory_refused now db req drink store log :
  stored_price req = None →
  record_inventory now db req drink store log
  = mkOutcome db log 500 (thrown numeric_field_overflow).
Proof. unfold stored_price, record_inventory, upsert_inventory. by intros ->. Qed.

(** The price the column takes: the answer is 200, and the database and
    the body are those of the statement. *)
Lemma record_inventory_stored now db req drink store log stored :
  stored_price req = Some stored →
  let written :=
    upsert_rows now db (Store.id store) (EnergyDrink.id drink) stored
      (Js.defined_or (in_stock req) true) in
  status (record_inventory now db req drink store log) = 200
  ∧ db_after (record_inventory now db req drink store log) = written.1
  ∧ console (record_inventory now db req drink store log) = log
  ∧ success (body (record_inventory now db req drink store log)) = true
  ∧ data (body (record_inventory now db req drink store log)) =
      Some (mkData drink store (head written.2) (0 <? length written.2)%nat).
Proof.
  unfold stored_price, record_inventory, upsert_inventory. intros ->.
  by destruct (upsert_rows _ _ _ _ _ _).
Qed.

Lemma record_inventory_body now db req drink store log log' :
  body (record_inventory now db req drink store log)
  = body (record_inventory now db req drink store log').
Proof.
  unfold record_inventory.
  by destruct (upsert_inventory _ _ _ _ _ _) as [e|[db' rows]].
Qed.

(** The handler ends on 200 or on 500, and on 500 it has written nothing. *)
Lemma record_inventory_status now db req drink store log :
  status (record_inventory now db req drink store log) = 200
  ∨ (status (record_inventory now db req drink store log) = 500
     ∧ db_after (record_inventory now db req drink store log) = db
     ∧ success (body (record_inventory now db req drink store log)) = false
     ∧ data (body (record_inventory now db req drink store log)) = None).
Proof.
  destruct (stored_price req) as [stored|] eqn:Hp.
  - left. by destruct (record_inventory_stored now db req drink store log stored Hp).
  - right. by rewrite (record_inventory_refused now db req drink store log Hp).
Qed.

Lemma record_inventory_200 now db req drink store log :
  status (record_inventory now db req drink store log) = 200 →
  ∃ stored, stored_price req = Some stored.
Proof.
  destruct (stored_price req) as [stored|] eqn:Hp; [by exists stored|].
  by rewrite (record_inventory_refused now db req drink store log Hp).
Qed.

(** A response other than 200 leaves the database as it was. *)
Lemma POST_early_db now db req :
  status (POST now db req) ≠ 200 → db_after (POST now db req) = db.
Proof.
  rewrite POST_resolve. destruct (resolve db req) as [[st resp]|[[drink store] log]]; [done|].
  by destruct (record_inventory_status now db req drink store log) as [->|(_ & -> & _)].
Qed.

End Handler.

(** *** The store nearest to a point *)

Section Nearest.
Context `{PostGIS}.

Lemma select_nearest_store_spec db lon lat :
  stores db ≠ [] →
  let p := ST_MakePoint lon lat in
  ∃ s, select_nearest_store db lon lat = [(s, ST_Distance (location s) p / 1000)%Q]
       ∧ s ∈ stores db
       ∧ ∀ s', s' ∈ stores db → nearer p s s'.
Proof.
  intros Hne p. unfold select_nearest_store. fold p.
  pose proof (merge_sort_Permutation (nearer p) (stores db)) as Hperm.
  pose proof (StronglySorted_merge_sort (nearer p) (stores db)) as Hsorted.
  destruct (merge_sort (nearer p) (stores db)) as [|s l] eqn:Hl.
  { apply Permutation_nil_l in Hperm. by symmetry in Hperm. }
  exists s. split; [done|]. split.
  - rewrite <- Hperm. by left.
  - intros s' Hs'. rewrite <- Hperm in Hs'.
    apply StronglySorted_cons in Hsorted as [Hall _].
    apply elem_of_cons in Hs' as [->|Hs'].
    + unfold nearer. apply Qle_refl.
    + by apply (proj1 (Forall_forall _ _) Hall).
Qed.

Lemma select_drink_found db bc d0 :
  d0 ∈ energy_drinks db → EnergyDrink.barcode d0 = Some bc →
  ∃ d rest, select_drink db (Some bc) = d :: rest ∧ d ∈ energy_drinks db
            ∧ EnergyDrink.barcode d = Some bc.
Proof.
  intros Hin Hbc. unfold select_drink.
  assert (Hmem : d0 ∈ filter (λ d, EnergyDrink.barcode d = Some bc) (energy_drinks db))
    by by apply list_elem_of_filter.
  destruct (filter _ _) as [|d l] eqn:Hf; [by apply elem_of_nil in Hmem|].
  exists d, []. split; [done|].
  assert (Hd : d ∈ filter (λ d, EnergyDrink.barcode d = Some bc) (energy_drinks db))
    by (rewrite Hf; by left).
  apply list_elem_of_filter in Hd as [? ?]. done.
Qed.

End Nearest.

(** *** Validation *)

Section Validation.
Context `{PostGIS}.

(** The handler answers 400 exactly when the barcode is falsy, or the store
    id is falsy and one of the coordinates is falsy too. *)
Lemma POST_400_iff now db req :
  status (POST now db req) = 400 ↔
  Js.truthy_string (barcode req) = false
  ∨ (Js.truthy_int (store_id req) = false
     ∧ (Js.truthy_number (latitude req) = false ∨ Js.truthy_number (longitude req) = false)).
Proof.
  rewrite POST_resolve.
  destruct (resolve db req) as [[st resp]|[[d s] log]] eqn:Hres.
  - simpl. revert Hres. unfold resolve.
    destruct (Js.truthy_string (barcode req)); simpl; [|intros [= <- _]; tauto].
    destruct (Js.truthy_int (store_id req)); simpl.
    + repeat case_match; intros [= <- _]; split; try done; intros [|[? _]]; done.
    + destruct (Js.truthy_number (latitude req)), (Js.truthy_number (longitude req)); simpl;
        try (intros [= <- _]; tauto).
      repeat case_match; intros [= <- _]; split; try done; intros [|[_ [|]]]; done.
  - assert (Hst : status (record_inventory now db req d s log) ≠ 400)
      by by destruct (record_inventory_status now db req d s log) as [->|(-> & _)].
    split; [done|]. clear Hst.
    revert Hres. unfold resolve.
    intros Hres [Hb|[Hi Hc]].
    + by rewrite Hb in Hres.
    + rewrite Hi in Hres.
      destruct Hc as [Hc|Hc]; rewrite Hc in Hres;
        destruct (Js.truthy_string (barcode req)); simpl in Hres; try done.
      by rewrite orb_true_r in Hres.
Qed.

End Validation.

(** *** The claims about the scan endpoint *)

(** C2.  Whatever the inventory table holds and whatever the request,
    handling the request a second time leaves the table as the first
    handling left it, timestamps apart: row for row the same id, store,
    drink, price and in-stock flag, hence no further row.  The stores and
    the catalog are untouched. *)
Theorem scan_twice_same_inventory `{PostGIS} (now1 now2 : timestamp) (db : Db) (req : ScanRequest) :
  let once := db_after (POST now1 db req) in
  let twice := db_after (POST now2 once req) in
  StoreInventory.content <$> store_inventory twice
  = StoreInventory.content <$> store_inventory once
  ∧ stores twice = stores once
  ∧ energy_drinks twice = energy_drinks once.
Proof.
  intros once twice. subst twice once.
  rewrite (POST_resolve now1 db req).
  destruct (resolve db req) as [[st resp]|[[d s] log]] eqn:Hres.
  - simpl. rewrite POST_resolve, Hres. done.
  - destruct (stored_price req) as [stored|] eqn:Hp.
    + destruct (record_inventory_stored now1 db req d s log stored Hp) as (_ & -> & _).
      set (db1 := (upsert_rows now1 db _ _ _ _).1).
      assert (Hres1 : resolve db1 req = inr (d, s, log)).
      { rewrite <- Hres. by apply resolve_same_catalog. }
      rewrite POST_resolve, Hres1.
      destruct (record_inventory_stored now2 db1 req d s log stored Hp) as (_ & -> & _).
      split; [apply upsert_twice|done].
    + rewrite (record_inventory_refused now1 db req d s log Hp). cbn [db_after].
      rewrite POST_resolve, Hres, (record_inventory_refused now2 db req d s log Hp). done.
Qed.

(** Resolution by coordinates: with a matching barcode, a falsy store id
    and two non-zero coordinates, the handler arrives at a store that is
    first in the [<->] order; only the warning depends on how far it is. *)
Lemma resolve_by_coordinates `{PostGIS} (db : Db) (req : ScanRequest)
    (bc : string) (lat lon : Q) (d0 : EnergyDrink.t) :
  barcode req = Some bc → bc ≠ "" →
  Js.truthy_int (store_id req) = false →
  latitude req = Some lat → ¬ (lat == 0)%Q →
  longitude req = Some lon → ¬ (lon == 0)%Q →
  d0 ∈ energy_drinks db → EnergyDrink.barcode d0 = Some bc →
  stores db ≠ [] →
  let p := ST_MakePoint lon lat in
  ∃ d s,
    resolve db req =
      inr (d, s, if decide (1 < ST_Distance (location s) p / 1000)%Q
                 then [warn_nearest_far (ST_Distance (location s) p / 1000)%Q] else [])
    ∧ d ∈ energy_drinks db ∧ EnergyDrink.barcode d = Some bc
    ∧ s ∈ stores db ∧ ∀ s', s' ∈ stores db → nearer p s s'.
Proof.
  intros Hbc Hne Hid Hlat Hlat0 Hlon Hlon0 Hd0 Hd0bc Hstores p.
  destruct (select_drink_found db bc d0 Hd0 Hd0bc) as (d & rest & Hsel & Hd & Hdbc).
  destruct (select_nearest_store_spec db lon lat Hstores) as (s & Hnear & Hs & Hmin).
  exists d, s. repeat split; try done.
  unfold resolve. rewrite Hid, Hbc, Hlat, Hlon.
  unfold Js.truthy_string, Js.truthy_number.
  assert (String.eqb bc "" = false) as -> by by apply String.eqb_neq.
  assert (Qeq_bool lat 0 = false) as ->.
  { destruct (Qeq_bool lat 0) eqn:E; [|done]. by apply Qeq_bool_eq in E. }
  assert (Qeq_bool lon 0 = false) as ->.
  { destruct (Qeq_bool lon 0) eqn:E; [|done]. by apply Qeq_bool_eq in E. }
  cbn [negb andb orb]. by rewrite Hsel, Hnear.
Qed.

(** Every 200 answer reports [was_created = true]. *)
Lemma was_created_always_true `{PostGIS} now db req :
  status (POST now db req) = 200 →
  was_created <$> data (body (POST now db req)) = Some true.
Proof.
  rewrite POST_resolve.
  destruct (resolve db req) as [[st resp]|[[d s] log]] eqn:Hres.
  - intros Hst. simpl in Hst. by apply resolve_early_status in Hres as [? _].
  - intros (stored & Hp)%record_inventory_200.
    destruct (record_inventory_stored now db req d s log stored Hp) as (_ & _ & _ & _ & ->).
    simpl. f_equal. apply Nat.ltb_lt, upsert_returning_nonempty.
Qed.

(** C7, as the handler has it.  A request with a barcode that matches a
    drink, no store id and two coordinates, neither of them 0, arrives at
    a store whenever the stores table is not empty: one whose [<->]
    distance to the point of the request is least among all stores (and
    whose [ST_Distance] is least, where the two agree).  Beyond 1 km the
    handler prints its warning, and that is all the distance changes.  The
    request is then answered 200, with the inventory upserted for that
    store, when the price column can hold the price; it is answered 500,
    and nothing is written, when it cannot. *)
Theorem nearest_store_resolved `{PostGIS} (now : timestamp) (db : Db) (req : ScanRequest)
    (bc : string) (lat lon : Q) (d0 : EnergyDrink.t) :
  barcode req = Some bc → bc ≠ "" →
  store_id req = None →
  latitude req = Some lat → ¬ (lat == 0)%Q →
  longitude req = Some lon → ¬ (lon == 0)%Q →
  d0 ∈ energy_drinks db → EnergyDrink.barcode d0 = Some bc →
  stores db ≠ [] →
  let o := POST now db req in
  let p := ST_MakePoint lon lat in
  ∃ d s,
    s ∈ stores db
    ∧ (∀ s', s' ∈ stores db →
         (knn_distance (location s) p <= knn_distance (location s') p)%Q)
    ∧ (knn_agrees → ∀ s', s' ∈ stores db →
         (ST_Distance (location s) p <= ST_Distance (location s') p)%Q)
    ∧ d ∈ energy_drinks db
    ∧ EnergyDrink.barcode d = Some bc
    ∧ console o =
        (if decide (1 < ST_Distance (location s) p / 1000)%Q
         then [warn_nearest_far (ST_Distance (location s) p / 1000)%Q] else [])
    ∧ body o = body (record_inventory now db req d s [])
    ∧ (∀ stored, stored_price req = Some stored →
         status o = 200
         ∧ success (body o) = true
         ∧ drink <$> data (body o) = Some d
         ∧ store <$> data (body o) = Some s
         ∧ db_after o =
             (upsert_rows now db (Store.id s) (EnergyDrink.id d) stored
                (Js.defined_or (in_stock req) true)).1)
    ∧ (stored_price req = None →
         status o = 500 ∧ success (body o) = false ∧ db_after o = db).
Proof.
  intros Hbc Hne Hid Hlat Hlat0 Hlon Hlon0 Hd0 Hd0bc Hstores o p.
  destruct (resolve_by_coordinates db req bc lat lon d0) as (d & s & Hres & Hd & Hdbc & Hs & Hmin);
    try done.
  { by rewrite Hid. }
  exists d, s. subst o. rewrite POST_resolve, Hres.
  match goal with
  | |- context [record_inventory now db req d s ?l] => set (log := l)
  end.
  split; [done|]. split; [done|]. split; [intros Hknn s' Hs'; by apply Hknn, Hmin|].
  split; [done|]. split; [done|]. split; [|split; [apply record_inventory_body|split]].
  - destruct (stored_price req) as [stored|] eqn:Hp.
    + by destruct (record_inventory_stored now db req d s log stored Hp) as (_ & _ & -> & _).
    + by rewrite record_inventory_refused.
  - intros stored Hp.
    by destruct (record_inventory_stored now db req d s log stored Hp)
      as (-> & -> & _ & -> & ->).
  - intros Hp. by rewrite record_inventory_refused.
Qed.

Lemma nearest_store_resolved_witness :
  let o := POST (H := Sample.flat) 1 Sample.db philadelphia_scan in
  status o = 200 ∧ ∃ km, console o = [warn_nearest_far km] ∧ (1 < km)%Q.
Proof.
  assert (Hd0 : Sample.drink 1 "Red Bull" "Original" 250 80 27 110
                  "Classic Red Bull energy drink" "611269991000"
                ∈ energy_drinks Sample.db) by by left.
  assert (Hlat : ¬ (39.95 == 0)%Q) by by compute.
  assert (Hlon : ¬ (-75.16 == 0)%Q) by by compute.
  assert (Hstores : stores Sample.db ≠ []) by by compute.
  assert (Hbc : "611269991000" ≠ "") by by compute.
  destruct (nearest_store_resolved (H := Sample.flat) 1 Sample.db philadelphia_scan
              "611269991000" 39.95%Q (-75.16)%Q _
              eq_refl Hbc eq_refl eq_refl Hlat eq_refl Hlon Hd0 eq_refl Hstores)
    as (d & s & _ & _ & _ & _ & _ & _ & _ & Hok & _).
  split; [exact (proj1 (Hok (0 # 100) eq_refl))|].
  eexists. split; [by vm_compute|by vm_compute].
Defined.

(** C7 as stated fails where a coordinate is 0: the request carries both
    coordinates and no store id, its barcode is that of a drink and the
    table has stores, and it is answered 400 with no store resolved and
    nothing written. *)
Lemma zero_longitude_not_resolved :
  let o := POST (H := Sample.flat) 1 Sample.db meridian_scan in
  store_id meridian_scan = None
  ∧ latitude meridian_scan = Some 51.48%Q
  ∧ longitude meridian_scan = Some 0%Q
  ∧ select_drink Sample.db (barcode meridian_scan) ≠ []
  ∧ stores Sample.db ≠ []
  ∧ status o = 400
  ∧ data (body o) = None
  ∧ db_after o = Sample.db.
Proof. by repeat split. Qed.

Lemma truthy_string_false (s : option string) :
  Js.truthy_string s = false ↔ s = None ∨ s = Some "".
Proof.
  destruct s as [s|]; simpl; [|by split; [left|]].
  rewrite negb_false_iff, String.eqb_eq. split; [intros ->; by right|].
  intros [|[= ->]]; done.
Qed.

Lemma truthy_int_false (n : option Z) :
  Js.truthy_int n = false ↔ ¬ ∃ i, n = Some i ∧ i ≠ 0.
Proof.
  destruct n as [n|]; simpl.
  - rewrite negb_false_iff, Z.eqb_eq. split.
    + intros -> (i & [= <-] & Hi). done.
    + intros Hno. destruct (decide (n = 0)) as [|Hn]; [done|]. destruct Hno. by exists n.
  - split; [|done]. by intros _ (i & ? & _).
Qed.

Lemma truthy_number_true (x : option Q) :
  Js.truthy_number x = true ↔ ∃ q, x = Some q ∧ ¬ (q == 0)%Q.
Proof.
  destruct x as [q|]; simpl.
  - rewrite negb_true_iff. split.
    + intros Hq. exists q. split; [done|]. by apply Qeq_bool_neq.
    + intros (q' & [= <-] & Hq). destruct (Qeq_bool q 0) eqn:E; [|done].
      by apply Qeq_bool_eq in E.
  - split; [done|]. by intros (q & ? & _).
Qed.

Lemma names_place_truthy (req : ScanRequest) :
  names_place req ↔
  Js.truthy_number (latitude req) = true ∧ Js.truthy_number (longitude req) = true.
Proof.
  rewrite !truthy_number_true. unfold names_place. split.
  - intros (lat & lon & Hlat & Hlon & ? & ?). split; eauto.
  - intros [(lat & ? & ?) (lon & ? & ?)]. by exists lat, lon.
Qed.

(** C4, as the handler has it.  The answer is 400 exactly when the request
    lacks a barcode (none, or an empty one), or names neither a store (a
    store id other than 0) nor a place (two coordinates other than 0); the
    answer then has success = false and the database is left alone.  A
    request with a barcode that names a store or a place passes. *)
Theorem scan_validation `{PostGIS} (now : timestamp) (db : Db) (req : ScanRequest) :
  (status (POST now db req) = 400 ↔
   lacks_barcode req ∨ (¬ names_store req ∧ ¬ names_place req))
  ∧ (status (POST now db req) = 400 →
     success (body (POST now db req)) = false ∧ db_after (POST now db req) = db)
  ∧ (¬ lacks_barcode req → names_store req ∨ names_place req →
     status (POST now db req) ≠ 400).
Proof.
  assert (Hiff : status (POST now db req) = 400 ↔
                 lacks_barcode req ∨ (¬ names_store req ∧ ¬ names_place req)).
  { rewrite POST_400_iff. unfold lacks_barcode, names_store.
    rewrite truthy_string_false, truthy_int_false, names_place_truthy.
    destruct (Js.truthy_number (latitude req)), (Js.truthy_number (longitude req));
      intuition congruence. }
  split; [exact Hiff|]. split.
  - intros Hst. split.
    + rewrite POST_resolve in Hst |- *.
      destruct (resolve db req) as [[st resp]|[[d s] log]] eqn:Hres.
      * by apply resolve_early_status in Hres as (_ & ? & _).
      * destruct (record_inventory_status now db req d s log) as [H200|(H500 & _)];
          rewrite Hst in *; done.
    + apply POST_early_db. by rewrite Hst.
  - intros Hb Hs Hst. apply Hiff in Hst as [?|[? ?]]; [done|]. by destruct Hs.
Qed.

(** C4 as stated fails where a coordinate is 0: the request carries a
    barcode and both coordinates, and is answered 400. *)
Lemma zero_latitude_rejected :
  barcode equator_scan = Some "611269991000"
  ∧ latitude equator_scan = Some 0%Q
  ∧ longitude equator_scan = Some (-73.99)%Q
  ∧ status (POST (H := Sample.flat) 1 Sample.db equator_scan) = 400.
Proof. by repeat split. Qed.





(** A store id that is no [INTEGER]: no store has it, and the answer is
    500, not 404. *)
Lemma store_id_beyond_integer :
  let o := POST (H := Sample.flat) 1 Sample.db beyond_integer_scan in
  Forall (λ s, Some (Store.id s) ≠ store_id beyond_integer_scan) (stores Sample.db)
  ∧ status o = 500
  ∧ error (body o) = Some (MessageOf integer_out_of_range)
  ∧ db_after o = Sample.db.
Proof. split; [by repeat constructor|by repeat split]. Qed.



(** C10, as the column has it.  After a request that is answered 200, the
    inventory holds a row for the store and the drink of the answer, and
    every such row has: in_stock true when the request leaves the flag
    out, the flag of the request otherwise; price 0 when the request
    leaves the price out (or gives 0); otherwise the price of the request
    rounded to the cent, half a cent going away from 0, which is within
    half a cent of the price of the request, and is that price when it is
    a number of cents. *)
Theorem scan_defaults `{PostGIS} (now : timestamp) (db : Db) (req : ScanRequest) :
  let o := POST now db req in
  status o = 200 →
  ∃ d s,
    drink <$> data (body o) = Some d
    ∧ store <$> data (body o) = Some s
    ∧ Exists (same_pair (Store.id s) (EnergyDrink.id d)) (store_inventory (db_after o))
    ∧ ∀ r, r ∈ store_inventory (db_after o) →
           same_pair (Store.id s) (EnergyDrink.id d) r →
           (price req = None → (StoreInventory.price r == 0)%Q)
           ∧ (∀ p, price req = Some p → (p == 0)%Q → (StoreInventory.price r == 0)%Q)
           ∧ (∀ p, price req = Some p → ¬ (p == 0)%Q →
                StoreInventory.price r = (round_half_away (p * 100) # 100)
                ∧ (Qabs (p - StoreInventory.price r) <= 1 # 200)%Q
                ∧ (Qabs (StoreInventory.price r) < 10000)%Q
                ∧ ∀ cents : Z, (p == cents # 100)%Q → (StoreInventory.price r == p)%Q)
           ∧ (in_stock req = None → StoreInventory.in_stock r = true)
           ∧ (∀ b, in_stock req = Some b → StoreInventory.in_stock r = b).
Proof.
  intros o. subst o. rewrite POST_resolve.
  destruct (resolve db req) as [[st resp]|[[d s] log]] eqn:Hres.
  { intros Hst. simpl in Hst. by apply resolve_early_status in Hres as [? _]. }
  intros (stored & Hp)%record_inventory_200. exists d, s.
  destruct (record_inventory_stored now db req d s log stored Hp) as (_ & -> & _ & _ & ->).
  simpl. split; [done|]. split; [done|]. split; [apply upsert_pair_present|].
  intros r Hin Hr.
  destruct (upsert_pair_values _ _ _ _ _ _ r Hin Hr) as (Hprice & Hflag & _).
  rewrite Hprice, Hflag. unfold stored_price in Hp.
  split; [|split; [|split; [|split]]].
  - intros Hnone. rewrite Hnone in Hp. simpl in Hp.
    rewrite decimal_6_2_zero in Hp by done. by injection Hp as <-.
  - intros p Hsome Hz. rewrite Hsome in Hp. simpl in Hp. rewrite (Qeq_eq_bool _ _ Hz) in Hp.
    rewrite decimal_6_2_zero in Hp by done. by injection Hp as <-.
  - intros p Hsome Hz. rewrite Hsome in Hp. simpl in Hp.
    assert (Qeq_bool p 0 = false) as E.
    { destruct (Qeq_bool p 0) eqn:E; [|done]. by apply Qeq_bool_eq in E. }
    rewrite E in Hp. pose proof (decimal_6_2_near _ _ Hp) as (Hs & Hnear & Hfit).
    split; [done|]. split; [done|]. split; [done|].
    intros cents Hcents.
    rewrite Hs, (round_half_away_integer (p * 100) cents); [by rewrite Hcents|].
    rewrite Hcents. unfold Qeq, Qmult, inject_Z. cbn [Qnum Qden]. lia.
  - by intros ->.
  - by intros b ->.
Qed.

Lemma scan_defaults_witness :
  ∃ r, r ∈ store_inventory (db_after (POST (H := Sample.flat) 1 Sample.db midtown_scan))
       ∧ (StoreInventory.price r == 0)%Q ∧ StoreInventory.in_stock r = true.
Proof.
  destruct (scan_defaults (H := Sample.flat) 1 Sample.db midtown_scan eq_refl)
    as (d & s & Hd & Hs & Hex & Hrows).
  apply Exists_exists in Hex as (r & Hin & Hr).
  exists r. split; [exact Hin|].
  destruct (Hrows r Hin Hr) as (Hprice & _ & _ & Hflag & _).
  split; [exact (Hprice eq_refl) | exact (Hflag eq_refl)].
Defined.

(** C10 as stated fails on a price finer than the cent: the request gives
    3.999, it is answered 200, and the row of the inventory holds 4.00. *)
Lemma price_rounded_to_the_cent :
  let o := POST (H := Sample.flat) 1 Sample.db tenth_of_a_cent_scan in
  price tenth_of_a_cent_scan = Some 3.999%Q
  ∧ status o = 200
  ∧ ∃ r, r ∈ store_inventory (db_after o)
         ∧ same_pair 1 1 r
         ∧ inventory <$> data (body o) = Some (Some r)
         ∧ StoreInventory.price r = (400 # 100)
         ∧ ¬ (StoreInventory.price r == 3.999)%Q.
Proof.
  split; [done|]. split; [done|]. eexists. split; [by left|]. by repeat split.
Qed.

(** A price of more than six digits is refused by the column: the answer
    is 500 and nothing is written. *)
Lemma price_beyond_six_digits_refused :
  let o := POST (H := Sample.flat) 1 Sample.db seven_digit_scan in
  price seven_digit_scan = Some 12345.67%Q
  ∧ status o = 500
  ∧ error (body o) = Some (MessageOf numeric_field_overflow)
  ∧ db_after o = Sample.db.
Proof. by repeat split. Qed.

(** C1, at a pair the inventory already holds.  Store 1 stocks drink 1
    in the migrated database; a scan of that drink at that store updates
    the row (the table keeps its 23 rows), and the answer says
    [was_created = true] all the same. *)
Lemma was_created_true_on_update (G : PostGIS) :
  let req := mkRequest (Some "611269991000") (Some 1) None None (Some 3.49%Q) None in
  let o := POST 1 Sample.db req in
  Exists (same_pair 1 1) (store_inventory Sample.db)
  ∧ length (store_inventory (db_after o)) = length (store_inventory Sample.db)
  ∧ status o = 200
  ∧ was_created <$> data (body o) = Some true.
Proof.
  repeat split; try reflexivity.
  apply Exists_exists. eexists. split; [by left|done].
Qed.

End ScanFacts.

(** ** Properties of the nearby-stores handler *)

Module NearbyFacts.
Import Nearby.

Lemma StronglySorted_take {A} (R : relation A) (n : nat) (l : list A) :
  StronglySorted R l → StronglySorted R (take n l).
Proof.
  intros Hs. revert n.
  induction Hs as [|x l Hs IH Hall]; intros [|n]; simpl; try constructor.
  - apply IH.
  - by apply Forall_take.
Qed.

Section Handler.
Context `{PostGIS}.

Lemma km_monotone (x y : Q) : (x <= y)%Q → (x / 1000 <= y / 1000)%Q.
Proof. intros Hxy. unfold Qdiv. by apply Qmult_le_compat_r. Qed.

Lemma select_nearby_spec db lon lat radius limit rows :
  select_nearby db (Num lon) (Num lat) radius limit = inr rows →
  let p := ST_MakePoint lon lat in
  StronglySorted (by_knn p) rows
  ∧ (knn_agrees → StronglySorted by_distance_km rows)
  ∧ Forall (λ row, row.1 ∈ stores db
                   ∧ distance_km row = (ST_Distance (location row.1) p / 1000)%Q
                   ∧ ∀ r, radius = Num r → (distance_km row <= r)%Q) rows
  ∧ ∃ n, limit = Num n ∧ 0 ≤ n ≤ 9223372036854775807 ∧ Z.of_nat (length rows) ≤ n.
Proof.
  intros Hsel p. unfold select_nearby in Hsel. fold p in Hsel.
  destruct limit as [|n]; [done|].
  destruct (fits_bigint n) eqn:Hfit; cbn [negb] in Hsel; [|done].
  apply andb_true_iff in Hfit as [_ Hmax%Z.leb_le].
  destruct (decide (0 ≤ n)) as [Hn|]; [|done].
  injection Hsel as <-.
  set (found := filter (within p radius) (stores db)).
  pose proof (merge_sort_Permutation (nearer p) found) as Hperm.
  assert (Hsorted : StronglySorted (nearer p) (take (Z.to_nat n) (merge_sort (nearer p) found)))
    by (apply StronglySorted_take, StronglySorted_merge_sort; apply _).
  split; [|split; [|split]].
  - by apply StronglySorted_fmap with (R1 := nearer p).
  - intros Hknn. apply StronglySorted_fmap with (R1 := nearer p); [|done].
    intros a b Hab. unfold by_distance_km, distance_km. simpl.
    apply km_monotone, Hknn, Hab.
  - apply Forall_fmap, Forall_forall. intros s Hs. simpl.
    assert (Hfound : s ∈ found).
    { rewrite <- Hperm. by apply (subseteq_take (Z.to_nat n)). }
    apply list_elem_of_filter in Hfound as [Hwithin Hin].
    split; [done|]. split; [done|].
    intros r ->. unfold distance_km. simpl.
    apply Qle_shift_div_r; [done|]. exact Hwithin.
  - exists n. split; [done|]. split; [done|].
    rewrite length_fmap, length_take. lia.
Qed.

Lemma not_falsy (x : Q) : ¬ (x == 0)%Q → falsy (Num x) = false.
Proof.
  intros Hx. simpl. destruct (Qeq_bool x 0) eqn:E; [|done]. by apply Qeq_bool_eq in E.
Qed.

(** C3, as the handler has it.  A request with two non-zero coordinates,
    radius [r] km and limit [n] (each as given or by its default of 10) is
    answered 200 with a list of stores whenever [n] is not negative and is
    a [BIGINT], and 500 otherwise.  Whenever it is answered with a list:
    every store of the list is a store of the table whose [distance_km],
    its [ST_Distance] to the point of the request over 1000, is at most
    [r]; the list has at most [n] stores; and it is in the order of the
    [<->] operator, which is the ascending order of [distance_km] where
    that operator orders the stores as [ST_Distance] does. *)
Theorem nearby_within_sorted_bounded (db : Db) (q : NearbyQuery) (lat lon r : Q) (n : Z) :
  latitude q = Some (Num lat) → ¬ (lat == 0)%Q →
  longitude q = Some (Num lon) → ¬ (lon == 0)%Q →
  parse_radius q = Num r →
  parse_limit q = Num n →
  let p := ST_MakePoint lon lat in
  (0 ≤ n ≤ 9223372036854775807 → (GET db q).1 = 200 ∧ is_Some (data (GET db q).2))
  ∧ (¬ (0 ≤ n ≤ 9223372036854775807) → (GET db q).1 = 500 ∧ data (GET db q).2 = None)
  ∧ ∀ rows, data (GET db q).2 = Some rows →
      Forall (λ row, row.1 ∈ stores db
                     ∧ distance_km row = (ST_Distance (location row.1) p / 1000)%Q
                     ∧ (distance_km row <= r)%Q) rows
      ∧ StronglySorted (by_knn p) rows
      ∧ (knn_agrees → StronglySorted by_distance_km rows)
      ∧ Z.of_nat (length rows) ≤ n.
Proof.
  intros Hlat Hlat0 Hlon Hlon0 Hr Hn p.
  unfold GET. cbv zeta. rewrite Hlat, Hlon, Hr, Hn. cbn [parse_coordinate default id].
  rewrite (not_falsy lat Hlat0), (not_falsy lon Hlon0). cbn [orb].
  destruct (select_nearby db (Num lon) (Num lat) (Num r) (Num n)) as [e|found] eqn:Hsel.
  - split; [|split; [done|done]]. intros [Hpos Hmax]. unfold select_nearby in Hsel.
    assert (Hfit : fits_bigint n = true).
    { unfold fits_bigint. apply andb_true_iff. split; apply Z.leb_le; lia. }
    rewrite Hfit in Hsel. cbn [negb] in Hsel. by rewrite decide_True in Hsel.
  - destruct (select_nearby_spec db lon lat (Num r) (Num n) found Hsel)
      as (Hknn & Hkm & Hall & m & [= <-] & Hm & Hlen).
    split; [intros _; split; [done|by eexists]|]. split; [done|].
    intros rows [= <-].
    split; [|done].
    eapply Forall_impl; [exact Hall|].
    intros row (Hin & Hd & Hwithin). auto.
Qed.

End Handler.

Lemma nearby_within_sorted_bounded_witness :
  (GET (H := Sample.flat) Sample.db midtown_query).1 = 200
  ∧ ∃ rows, data (GET (H := Sample.flat) Sample.db midtown_query).2 = Some rows
            ∧ StronglySorted by_distance_km rows.
Proof.
  assert (Hknn : knn_agrees (H := Sample.flat)) by (intros p a b Hab; exact Hab).
  assert (Hlat : ¬ (40.75 == 0)%Q) by by compute.
  assert (Hlon : ¬ (-73.99 == 0)%Q) by by compute.
  assert (Hn : 0 ≤ 2 ≤ 9223372036854775807) by lia.
  destruct (nearby_within_sorted_bounded (H := Sample.flat) Sample.db midtown_query
              40.75%Q (-73.99)%Q 10%Q 2 eq_refl Hlat eq_refl Hlon eq_refl eq_refl)
    as (Hok & _ & Hrows).
  destruct (Hok Hn) as [Hst [rows Hdata]].
  split; [exact Hst|]. exists rows. split; [exact Hdata|].
  destruct (Hrows rows Hdata) as (_ & _ & Hkm & _). exact (Hkm Hknn).
Defined.

(** C3 as stated fails where [<->] and [ST_Distance] part: [<->] measures
    on the sphere and [ST_Distance] on the spheroid, on which a degree of
    latitude is shorter than a degree of longitude.  Of two stores about a
    kilometre away, the one to the east comes first in the answer, and its
    [distance_km] is the greater of the two. *)
Lemma nearby_order_not_by_distance_km :
  let answer := GET (H := Sample.round_earth) Sample.crossroads crossroads_query in
  answer.1 = 200
  ∧ ∃ e n, data answer.2 = Some [(Sample.east, e); (Sample.north, n)]
           ∧ (n < e)%Q
           ∧ ¬ StronglySorted by_distance_km [(Sample.east, e); (Sample.north, n)].
Proof.
  split; [reflexivity|]. eexists _, _. split; [reflexivity|]. split; [by compute|].
  intros Hs. apply StronglySorted_cons in Hs as [Hall _].
  apply Forall_cons in Hall as [Hen _]. by compute in Hen.
Qed.

End NearbyFacts.

(** ** Properties of the geocode endpoint *)

Module GeocodeFacts.
Import Geocode.

Local Arguments String.append !_ _ /.

Lemma prefix_app (t s u : string) :
  String.prefix t s = true → String.prefix t (s +:+ u) = true.
Proof.
  revert s. induction t as [|c t IH]; intros s.
  - intros _. destruct s; simpl; [by destruct u|done].
  - destruct s as [|d s]; simpl; [done|].
    destruct (Ascii.ascii_dec c d); [apply IH|done].
Qed.

Lemma includes_app_l (s u t : string) :
  Js.includes s t = true → Js.includes (s +:+ u) t = true.
Proof.
  induction s as [|c s IH]; simpl.
  - rewrite orb_false_r. intros Ht. destruct t; [|done]. by destruct u.
  - intros [Hp|Hi]%orb_true_iff; apply orb_true_iff.
    + left. by apply (prefix_app t (String c s) u).
    + right. by apply IH.
Qed.

Lemma includes_app_r (s u t : string) :
  Js.includes u t = true → Js.includes (s +:+ u) t = true.
Proof.
  intros Hu. induction s as [|c s IH]; [done|].
  simpl. apply orb_true_iff. by right.
Qed.

Lemma toLowerCase_app (s u : string) :
  Js.toLowerCase (s +:+ u) = Js.toLowerCase s +:+ Js.toLowerCase u.
Proof. induction s as [|c s IH]; [done|]. simpl. by rewrite IH. Qed.

(** The message thrown on an empty answer is recognised by the handler
    whatever the address. *)
Lemma no_results_recognised (q : string) :
  Js.includes
    (Js.toLowerCase ("Geocoding failed: " +:+ "No results found for address: " +:+ q))
    "no results found" = true.
Proof.
  rewrite !toLowerCase_app. apply includes_app_r, includes_app_l. by vm_compute.
Qed.

Lemma truthy_key (key : string) : key ≠ "" → Js.truthy_string (Some key) = true.
Proof. intros Hk. simpl. by apply negb_true_iff, String.eqb_neq. Qed.

(** C5.  Take a request, by POST or by GET, that reaches the provider: it
    passes the validation of its handler, the API key is set, and the text
    searched for is not blank.  If the provider answers with no candidate,
    the endpoint answers 404 with success = false; if it answers with a
    non-empty list, the endpoint answers 200 with the latitude and the
    longitude parsed from the first candidate and with its display name. *)
Theorem geocode_not_found_or_first `{JsRuntime} (w : World) (key : string)
    (input : string + AddressComponents) (answer : Z * GeocodeResponse) :
  answers w input answer →
  GEOCODING_API_KEY w = Some key → key ≠ "" →
  let q := queryAddress input in
  Js.blank q = false →
  (fetch w q key = json (Some []) →
     answer.1 = 404
     ∧ success answer.2 = false
     ∧ data answer.2 = None)
  ∧ (∀ c cs, fetch w q key = json (Some (c :: cs)) →
     answer.1 = 200
     ∧ success answer.2 = true
     ∧ data answer.2 =
         Some {| latitude := parseFloat (lat c);
                 longitude := parseFloat (lon c);
                 display_name := Some (api_display_name c);
                 boundingbox := Some (api_boundingbox c) |}).
Proof.
  intros Hanswer Hkey Hkey0 q Hq.
  assert (Hgeo : geocodeAddress w input =
                 match search w key q with
                 | inl m => inl ("Geocoding failed: " +:+ m)
                 | inr r => inr r
                 end).
  { unfold geocodeAddress. fold q. by rewrite Hkey, (truthy_key key Hkey0), Hq. }
  destruct Hanswer as [body Hvalid <-|query Hvalid <-].
  - unfold POST. rewrite Hvalid, Hgeo. unfold search. split.
    + intros ->. by rewrite no_results_recognised.
    + by intros c cs ->.
  - unfold GET. rewrite Hvalid, Hgeo. unfold search. split.
    + intros ->. by rewrite no_results_recognised.
    + by intros c cs ->.
Qed.

Lemma geocode_not_found_or_first_witness :
  (POST (H := plain_decimal) one_candidate fifth_avenue_request).1 = 200
  ∧ latitude <$> data (POST (H := plain_decimal) one_candidate fifth_avenue_request).2
    = Some (Num 40.7551%Q).
Proof.
  assert (Hkey : "key" ≠ "") by by compute.
  destruct (proj2 (geocode_not_found_or_first (H := plain_decimal) one_candidate "key"
                     (addressInput fifth_avenue_request)
                     (POST (H := plain_decimal) one_candidate fifth_avenue_request)
                     (answers_POST one_candidate _ fifth_avenue_request eq_refl eq_refl)
                     eq_refl Hkey eq_refl)
              fifth_avenue [] eq_refl) as (Hst & _ & Hdata).
  split; [exact Hst|]. rewrite Hdata. reflexivity.
Defined.

End GeocodeFacts.

(** ** Properties of the autocomplete handlers *)

Module AutocompleteFacts.
Import Autocomplete.

Section Orders.
Context `{Collation}.

Global Instance by_brand_total : Total by_brand.
Proof. intros a b. unfold by_brand. apply (total collate_le). Qed.

Global Instance by_brand_trans : Transitive by_brand.
Proof. intros a b c. unfold by_brand. apply (transitivity (R := collate_le)). Qed.

Global Instance by_brand_then_flavor_total : Total by_brand_then_flavor.
Proof.
  intros a b. unfold by_brand_then_flavor.
  destruct (decide (collate_le (EnergyDrink.brand a) (EnergyDrink.brand b))) as [Hab|Hab],
           (decide (collate_le (EnergyDrink.brand b) (EnergyDrink.brand a))) as [Hba|Hba].
  - destruct (total collate_le (EnergyDrink.flavor a) (EnergyDrink.flavor b)); [left|right]; done.
  - left. split; [done|]. intros ?. contradiction.
  - right. split; [done|]. intros ?. contradiction.
  - destruct (total collate_le (EnergyDrink.brand a) (EnergyDrink.brand b)); contradiction.
Qed.

Global Instance by_brand_then_flavor_trans : Transitive by_brand_then_flavor.
Proof.
  intros a b c [Hab Hfab] [Hbc Hfbc]. split; [by etrans|].
  intros Hca. etrans; [apply Hfab|apply Hfbc]; by etrans.
Qed.


End Orders.



(** The words of a query are parted by any white space: with a no-break
    space between [bang] and [blue], the first word is looked for in the
    brand and the second in the flavor. *)
Lemma words_parted_by_no_break_space :
  let query := "bang" +:+ Js.no_break_space +:+ "blue" in
  split_words query = ["bang"; "blue"]
  ∧ ∃ s, s ∈ (GET_words (H := byte_order) Sample.db (Some query)).2
         ∧ brand s = "Bang" ∧ flavor s = "Blue Razz".
Proof.
  split; [reflexivity|]. eexists. split; [vm_compute; left|]. by vm_compute.
Qed.

End AutocompleteFacts.

(** ** The uniqueness of (brand, flavor, size_ml) *)

Module CatalogFacts.
Import Catalog.

Lemma no_clash_triple (new : EnergyDrink.t) (l : list EnergyDrink.t) :
  ¬ Exists (clashes new) l → triple new ∉ triple <$> l.
Proof.
  intros Hno (old & Heq & Hin)%list_elem_of_fmap.
  apply Hno, Exists_exists. exists old. split; [done|]. right. by left.
Qed.

Lemma triple_clash (new : EnergyDrink.t) (l : list EnergyDrink.t) :
  triple new ∈ triple <$> l → Exists (clashes new) l.
Proof.
  intros (old & Heq & Hin)%list_elem_of_fmap.
  apply Exists_exists. exists old. split; [done|]. right. by left.
Qed.

Lemma update_rows_rewritten w a before after rows' n :
  update_rows w a before after = Some (rows', n) →
  rows' = before ++ rewritten w a after.
Proof.
  revert before n. induction after as [|r rest IH]; intros before n; simpl.
  - intros [= <- _]. by rewrite app_nil_r.
  - unfold rewritten. destruct (decide (selects w r)) as [Hsel|Hsel].
    + destruct (decide (Exists (clashes (assign a r)) (before ++ rest))); [done|].
      destruct (update_rows w a (before ++ [assign a r]) rest) as [[l m]|] eqn:Hrec; [|done].
      intros [= <- _]. rewrite (IH _ _ Hrec). by rewrite <- app_assoc.
    + intros Hrec. rewrite (IH _ _ Hrec). by rewrite <- app_assoc.
Qed.

Lemma update_rows_NoDup w a before after rows' n :
  update_rows w a before after = Some (rows', n) →
  NoDup (triple <$> before ++ after) →
  NoDup (triple <$> rows').
Proof.
  revert before n. induction after as [|r rest IH]; intros before n; simpl.
  - intros [= <- _]. by rewrite app_nil_r.
  - destruct (decide (selects w r)) as [Hsel|Hsel].
    + destruct (decide (Exists (clashes (assign a r)) (before ++ rest))) as [|Hno]; [done|].
      destruct (update_rows w a (before ++ [assign a r]) rest) as [[l m]|] eqn:Hrec; [|done].
      intros [= <- _] Hnd. apply (IH _ _ Hrec).
      apply no_clash_triple in Hno.
      rewrite <- app_assoc. simpl.
      rewrite fmap_app, fmap_cons in Hnd |- *. rewrite fmap_app in Hno.
      apply NoDup_app in Hnd as (Hb & Hbr & Hr). apply NoDup_cons in Hr as [_ Hrest].
      apply NoDup_app. split; [done|]. split.
      * intros x Hx [->|Hxr]%elem_of_cons.
        -- apply Hno, elem_of_app. by left.
        -- apply (Hbr x Hx). by right.
      * apply NoDup_cons. split; [|done].
        intros Hin. apply Hno, elem_of_app. by right.
    + intros Hrec Hnd. apply (IH _ _ Hrec). by rewrite <- app_assoc.
Qed.

(** Every statement keeps the triples distinct. *)
Lemma exec_keeps_triples_unique st c :
  NoDup (triple <$> rows c) → NoDup (triple <$> rows (exec st c).1).
Proof.
  intros Hnd. destruct st as [d|w a|i]; simpl.
  - destruct (decide (Exists (clashes (with_id (id_seq c) d)) (rows c))) as [|Hno]; [done|].
    simpl. rewrite fmap_app. apply NoDup_app. split; [done|]. split; [|apply NoDup_singleton].
    intros x Hx ->%list_elem_of_singleton. by apply (no_clash_triple _ _ Hno).
  - destruct (update_rows w a [] (rows c)) as [[rows' n]|] eqn:Hup; [|done].
    simpl. by apply (update_rows_NoDup w a [] (rows c) rows' n).
  - eapply sublist_NoDup; [exact Hnd|]. apply fmap_sublist, sublist_filter.
Qed.

Lemma reachable_triples_unique c : reachable c → NoDup (triple <$> rows c).
Proof.
  induction 1 as [|st c Hc IH]; [constructor|]. by apply exec_keeps_triples_unique.
Qed.

(** C9.  In every state the statements can reach, no two rows of the
    catalog have the same (brand, flavor, size_ml).  An [INSERT] of a triple
    that a row already has is refused and leaves the rows as they were; so
    is an [UPDATE] whose outcome would hold a triple twice. *)
Theorem catalog_triples_unique (c : Catalog) :
  reachable c →
  NoDup (triple <$> rows c)
  ∧ (∀ d r, r ∈ rows c → triple r = (brand d, flavor d, size_ml d) →
       (exec (Insert d) c).2 = unique_violation
       ∧ rows (exec (Insert d) c).1 = rows c)
  ∧ (∀ w a, ¬ NoDup (triple <$> rewritten w a (rows c)) →
       (exec (Update w a) c).2 = unique_violation
       ∧ rows (exec (Update w a) c).1 = rows c).
Proof.
  intros Hreach. pose proof (reachable_triples_unique c Hreach) as Hnd.
  split; [done|]. split.
  - intros d r Hin Htriple. simpl.
    rewrite decide_True; [done|].
    apply triple_clash, list_elem_of_fmap. by exists r.
  - intros w a Hdup. simpl.
    destruct (update_rows w a [] (rows c)) as [[rows' n]|] eqn:Hup; [|done].
    exfalso. apply Hdup.
    pose proof (update_rows_rewritten w a [] (rows c) rows' n Hup) as Heq.
    simpl in Heq. rewrite <- Heq.
    by apply (update_rows_NoDup w a [] (rows c) rows' n).
Qed.

Lemma catalog_triples_unique_witness :
  (exec (Insert red_bull) two_red_bulls).2 = unique_violation
  ∧ (exec (Update (ById 2) (mkSet None (Some "Original") None None None)) two_red_bulls).2
    = unique_violation
  ∧ length (rows two_red_bulls) = 2%nat.
Proof.
  assert (Hreach : reachable two_red_bulls) by (do 2 apply reach_exec; apply reach_empty).
  destruct (catalog_triples_unique two_red_bulls Hreach) as (_ & Hins & Hupd).
  split; [|split].
  - refine (proj1 (Hins red_bull (with_id 1 red_bull) _ eq_refl)). by left.
  - refine (proj1 (Hupd (ById 2) (mkSet None (Some "Original") None None None) _)).
    intros Hnd. vm_compute in Hnd. apply NoDup_cons in Hnd as [Hnd _]. apply Hnd. by left.
  - reflexivity.
Defined.

End CatalogFacts.

(** * Properties of the further code *)

(** ** More on the scan handler *)

Module ScanMore.
Import Scan ScanKeys ScanFacts.

Lemma upsert_other_rows_in_place now db sid did p inStock :
  filter (λ r, ¬ same_pair sid did r)
    (store_inventory (upsert_rows now db sid did p inStock).1)
  = filter (λ r, ¬ same_pair sid did r) (store_inventory db).
Proof.
  unfold upsert_rows; cbn [fst store_inventory].
  destruct (decide (Exists (same_pair sid did) (store_inventory db))) as [Hex|Hnone].
  - clear Hex. induction (store_inventory db) as [|r l IH]; [done|].
    rewrite fmap_cons. destruct (decide (same_pair sid did r)) as [Hr|Hr].
    + rewrite !filter_cons_False; [done| |]; intros Hn; apply Hn; [done|].
      by apply do_update_same_pair.
    + rewrite !filter_cons_True by done. by rewrite IH.
  - rewrite filter_app, filter_cons_False, filter_nil, app_nil_r; [done|].
    intros Hn. by apply Hn.
Qed.

Lemma upsert_pair_keys now db sid did p inStock :
  let table' := store_inventory (upsert_rows now db sid did p inStock).1 in
  (Exists (same_pair sid did) (store_inventory db) ∧
   pair_key <$> table' = pair_key <$> store_inventory db)
  ∨ (¬ Exists (same_pair sid did) (store_inventory db) ∧
     pair_key <$> table' = (pair_key <$> store_inventory db) ++ [(sid, did)]).
Proof.
  unfold upsert_rows; cbn [fst store_inventory].
  destruct (decide (Exists (same_pair sid did) (store_inventory db))) as [Hex|Hnone].
  - left. split; [done|]. rewrite <- list_fmap_compose.
    apply Forall_fmap_ext, Forall_forall. intros r _. simpl. by case_decide.
  - right. split; [done|]. by rewrite fmap_app.
Qed.

Lemma filter_none {A} (P : A → Prop) `{!∀ x, Decision (P x)} (l : list A) :
  Forall (λ x, ¬ P x) l → filter P l = [].
Proof.
  induction 1 as [|x l Hx _ IH]; [done|]. by rewrite filter_cons_False.
Qed.

Lemma upsert_returning_stored now db sid did p inStock :
  (upsert_rows now db sid did p inStock).2
  = filter (same_pair sid did) (store_inventory (upsert_rows now db sid did p inStock).1).
Proof.
  unfold upsert_rows; cbn [fst snd store_inventory].
  destruct (decide (Exists (same_pair sid did) (store_inventory db))) as [Hex|Hnone]; [done|].
  rewrite filter_app, filter_cons_True, filter_nil by done.
  rewrite filter_none; [done|].
  apply Forall_forall. intros r Hin Hr. apply Hnone, Exists_exists. by exists r.
Qed.

Section Handler.
Context `{PostGIS}.

(** X1.  A scan leaves the stores and the catalog as they were; an answer
    other than 200 leaves the whole database as it was; and on a 200
    answer the rows of every pair other than the (store, drink) of the
    answer stay as they were, each in its place. *)
Theorem scan_touches_one_pair (now : timestamp) (db : Db) (req : ScanRequest) :
  let o := POST now db req in
  stores (db_after o) = stores db
  ∧ energy_drinks (db_after o) = energy_drinks db
  ∧ (status o = 200 ∨ db_after o = db)
  ∧ ∀ d s, drink <$> data (body o) = Some d → store <$> data (body o) = Some s →
      filter (λ r, ¬ same_pair (Store.id s) (EnergyDrink.id d) r)
        (store_inventory (db_after o))
      = filter (λ r, ¬ same_pair (Store.id s) (EnergyDrink.id d) r) (store_inventory db).
Proof.
  intros o. subst o. rewrite POST_resolve.
  destruct (resolve db req) as [[st resp]|[[d s] log]] eqn:Hres.
  - simpl. repeat split; try done. by right.
  - destruct (stored_price req) as [stored|] eqn:Hp.
    + destruct (record_inventory_stored now db req d s log stored Hp)
        as (-> & -> & _ & _ & ->).
      repeat split; try done; [by left|].
      intros d' s' [= <-] [= <-]. apply upsert_other_rows_in_place.
    + rewrite (record_inventory_refused now db req d s log Hp).
      repeat split; try done. by right.
Qed.

(** X2.  If no two rows of the inventory have the same (store_id,
    drink_id) before a scan, none have after it; and the scan adds at most
    one row, and adds one only when it is answered 200 for a pair the
    inventory did not hold. *)
Theorem scan_keeps_pairs_unique (now : timestamp) (db : Db) (req : ScanRequest) :
  NoDup (pair_key <$> store_inventory db) →
  let o := POST now db req in
  NoDup (pair_key <$> store_inventory (db_after o))
  ∧ (length (store_inventory (db_after o)) = length (store_inventory db)
     ∨ (length (store_inventory (db_after o)) = S (length (store_inventory db))
        ∧ status o = 200
        ∧ ∃ d s, drink <$> data (body o) = Some d ∧ store <$> data (body o) = Some s
                 ∧ ¬ Exists (same_pair (Store.id s) (EnergyDrink.id d)) (store_inventory db))).
Proof.
  intros Hnd o. subst o. rewrite POST_resolve.
  destruct (resolve db req) as [[st resp]|[[d s] log]] eqn:Hres.
  - simpl. split; [done|by left].
  - destruct (stored_price req) as [stored|] eqn:Hp.
    2: { rewrite (record_inventory_refused now db req d s log Hp). split; [done|by left]. }
    destruct (record_inventory_stored now db req d s log stored Hp)
      as (-> & -> & _ & _ & ->).
    destruct (upsert_pair_keys now db (Store.id s) (EnergyDrink.id d)
                stored (Js.defined_or (in_stock req) true))
      as [[Hex Hkeys]|[Hnone Hkeys]]; cbv zeta in Hkeys.
    + split; [by rewrite Hkeys|]. left.
      by rewrite <- (length_fmap pair_key), Hkeys, length_fmap.
    + split.
      * rewrite Hkeys. apply NoDup_app. split; [done|]. split; [|apply NoDup_singleton].
        intros k Hk ->%list_elem_of_singleton.
        apply list_elem_of_fmap in Hk as (r & Hr & Hin).
        apply Hnone, Exists_exists. exists r. split; [done|].
        unfold pair_key in Hr. by simplify_eq.
      * right. split; [|split; [done|by exists d, s]].
        rewrite <- (length_fmap pair_key), Hkeys, length_app, length_fmap. simpl. lia.
Qed.

(** X3.  A request that names a store (a store id other than 0) is
    handled without a look at its coordinates: whatever they are, present
    or not, the database after, the console, the status and the body are
    the same. *)
Theorem scan_store_id_ignores_coordinates (now : timestamp) (db : Db) (req : ScanRequest)
    (lat lon : option Q) :
  names_store req →
  POST now db (with_coordinates req lat lon) = POST now db req.
Proof.
  intros (i & Hid & Hi). unfold POST, with_coordinates, record_inventory.
  cbn [barcode store_id latitude longitude price in_stock]. rewrite Hid.
  unfold Js.truthy_int. assert ((i =? 0) = false) as -> by by apply Z.eqb_neq.
  cbn [negb andb orb]. done.
Qed.

(** X4.  On a 200 answer the [inventory] of the body is a row that the
    table holds after the scan: the first row of the (store, drink) of the
    answer, bearing the time of the request. *)
Theorem scan_reports_stored_row (now : timestamp) (db : Db) (req : ScanRequest) :
  let o := POST now db req in
  status o = 200 →
  ∃ d s r,
    drink <$> data (body o) = Some d
    ∧ store <$> data (body o) = Some s
    ∧ inventory <$> data (body o) = Some (Some r)
    ∧ head (filter (same_pair (Store.id s) (EnergyDrink.id d))
              (store_inventory (db_after o))) = Some r
    ∧ r ∈ store_inventory (db_after o)
    ∧ StoreInventory.last_updated r = now.
Proof.
  intros o. subst o. rewrite POST_resolve.
  destruct (resolve db req) as [[st resp]|[[d s] log]] eqn:Hres.
  { intros Hst. simpl in Hst. by apply resolve_early_status in Hres as [? _]. }
  intros (p & Hprice)%record_inventory_200.
  destruct (record_inventory_stored now db req d s log p Hprice) as (_ & -> & _ & _ & ->).
  set (sid := Store.id s). set (did := EnergyDrink.id d).
  set (i := Js.defined_or (in_stock req) true).
  pose proof (upsert_returning_nonempty now db sid did p i) as Hlen.
  pose proof (upsert_returning_stored now db sid did p i) as Hret.
  destruct (upsert_rows now db sid did p i).2 as [|r rest] eqn:Hrows;
    [simpl in Hlen; lia|].
  assert (Hr : r ∈ filter (same_pair sid did)
                     (store_inventory (upsert_rows now db sid did p i).1))
    by (rewrite <- Hret; by left).
  apply list_elem_of_filter in Hr as [Hp Hin].
  exists d, s, r. fold sid did. rewrite <- Hret.
  split; [done|]. split; [done|]. split; [done|]. split; [done|]. split; [done|].
  by destruct (upsert_pair_values _ _ _ _ _ _ r Hin Hp) as (_ & _ & ?).
Qed.

Lemma resolve_members (db : Db) (req : ScanRequest) d s log :
  resolve db req = inr (d, s, log) →
  d ∈ energy_drinks db ∧ EnergyDrink.barcode d = barcode req ∧ s ∈ stores db.
Proof.
  unfold resolve.
  destruct (negb (Js.truthy_string (barcode req))); [done|].
  destruct (negb (Js.truthy_int (store_id req)) && _); [done|].
  destruct (select_drink db (barcode req)) as [|d0 ds] eqn:Hd; [done|].
  assert (Hd0 : d0 ∈ energy_drinks db ∧ EnergyDrink.barcode d0 = barcode req).
  { unfold select_drink in Hd. destruct (barcode req) as [bc|]; [|done].
    assert (Hin : d0 ∈ take 1 (filter (λ d, EnergyDrink.barcode d = Some bc) (energy_drinks db)))
      by (rewrite Hd; by left).
    apply (subseteq_take 1) in Hin. by apply list_elem_of_filter in Hin as [? ?]. }
  destruct (Js.truthy_int (store_id req)).
  - destruct (select_store db (store_id req)) as [e|[|s0 ss]] eqn:Hs; [done|done|].
    intros [= <- <- _]. split; [tauto|]. split; [tauto|].
    unfold select_store in Hs. destruct (store_id req) as [i|]; [|done].
    destruct (fits_integer i); [|done]. injection Hs as Hs.
    assert (Hin : s0 ∈ take 1 (filter (λ s, Store.id s = i) (stores db)))
      by (rewrite Hs; by left).
    apply (subseteq_take 1) in Hin. by apply list_elem_of_filter in Hin as [? ?].
  - destruct (longitude req) as [lon|]; [|done]. destruct (latitude req) as [lat|]; [|done].
    destruct (select_nearest_store db lon lat) as [|[s0 dist] ss] eqn:Hs; [done|].
    intros [= <- <- _]. split; [tauto|]. split; [tauto|].
    unfold select_nearest_store in Hs.
    assert (Hin : (s0, dist) ∈ (λ s, (s, ST_Distance (location s) (ST_MakePoint lon lat) / 1000)%Q)
                               <$> take 1 (merge_sort (nearer (ST_MakePoint lon lat)) (stores db)))
      by (rewrite Hs; by left).
    apply list_elem_of_fmap in Hin as (s1 & [= -> _] & Hin).
    apply (subseteq_take 1) in Hin. by rewrite merge_sort_Permutation in Hin.
Qed.

(** X5.  A scan keeps the foreign keys of the inventory: if every row
    refers to a store and to a drink of the tables before the request,
    every row does after it.  The row the handler writes bears the id of a
    store and the id of a drink it has read from the tables. *)
Theorem scan_keeps_references (now : timestamp) (db : Db) (req : ScanRequest) :
  references_hold db → references_hold (db_after (POST now db req)).
Proof.
  intros Href. rewrite POST_resolve.
  destruct (resolve db req) as [[st resp]|[[d s] log]] eqn:Hres; [done|].
  apply resolve_members in Hres as (Hd & _ & Hs).
  destruct (stored_price req) as [stored|] eqn:Hp.
  2: { by rewrite (record_inventory_refused now db req d s log Hp). }
  destruct (record_inventory_stored now db req d s log stored Hp) as (_ & -> & _).
  unfold references_hold, upsert_rows.
  cbn [fst stores energy_drinks store_inventory].
  destruct (decide (Exists _ (store_inventory db))).
  - apply Forall_fmap. eapply Forall_impl; [exact Href|].
    intros r Hr. simpl. by case_decide.
  - apply Forall_app. split; [done|]. apply Forall_singleton. simpl.
    split; apply Exists_exists; eauto.
Qed.

End Handler.

Lemma scan_keeps_references_witness :
  references_hold (db_after (POST (H := Sample.flat) 1 Sample.db midtown_scan)).
Proof.
  assert (Href : references_hold Sample.db) by (apply (bool_decide_unpack _); by vm_compute).
  exact (scan_keeps_references (H := Sample.flat) 1 Sample.db midtown_scan Href).
Defined.

Lemma scan_store_id_ignores_coordinates_witness :
  POST (H := Sample.flat) 1 Sample.db
    (with_coordinates unknown_store_scan (Some 40.75%Q) (Some (-73.99)%Q))
  = POST (H := Sample.flat) 1 Sample.db unknown_store_scan.
Proof.
  assert (Hs : names_store unknown_store_scan) by (exists 99; split; [reflexivity|lia]).
  exact (scan_store_id_ignores_coordinates (H := Sample.flat) 1 Sample.db unknown_store_scan
           (Some 40.75%Q) (Some (-73.99)%Q) Hs).
Defined.

Lemma scan_reports_stored_row_witness :
  ∃ r, inventory <$> data (body (POST (H := Sample.flat) 1 Sample.db midtown_scan))
       = Some (Some r)
       ∧ StoreInventory.last_updated r = 1.
Proof.
  destruct (scan_reports_stored_row (H := Sample.flat) 1 Sample.db midtown_scan eq_refl)
    as (d & s & r & _ & _ & Hinv & _ & _ & Hnow).
  exists r. split; [exact Hinv | exact Hnow].
Defined.

Lemma scan_keeps_pairs_unique_witness :
  NoDup (pair_key <$> store_inventory
           (db_after (POST (H := Sample.flat) 1 Sample.db midtown_scan))).
Proof.
  assert (Hnd : NoDup (pair_key <$> store_inventory Sample.db))
    by (apply (bool_decide_unpack _); by vm_compute).
  exact (proj1 (scan_keeps_pairs_unique (H := Sample.flat) 1 Sample.db midtown_scan Hnd)).
Defined.

End ScanMore.

(** ** More on the nearby-stores handler *)

Module NearbyMore.
Import Nearby NearbyKeys NearbyFacts.

Lemma falsy_unusable (x : option (parsed Q)) :
  falsy (parse_coordinate x) = true ↔ unusable x.
Proof.
  unfold unusable. destruct x as [[|v]|]; simpl.
  - split; [auto|done].
  - split.
    + intros Hv%Qeq_bool_eq. right; right. by exists v.
    + intros [?|[?|(v' & [= <-] & Hv)]]; try done. by apply Qeq_eq_bool.
  - split; [auto|done].
Qed.

Lemma fst_paired {A B} (f : A → B) (l : list A) : ((λ a, (a, f a)) <$> l).*1 = l.
Proof. induction l as [|a l IH]; [done|]. rewrite !fmap_cons. simpl. by f_equal. Qed.

Lemma StronglySorted_take_drop {A} (R : relation A) (n : nat) (l : list A) x y :
  StronglySorted R l → x ∈ take n l → y ∈ drop n l → R x y.
Proof.
  intros Hl Hx Hy. rewrite <- (take_drop n l) in Hl.
  by apply (StronglySorted_app_1_elem_of R (take n l) (drop n l)).
Qed.

Section Handler.
Context `{PostGIS}.

(** X6.  The answer is 400 exactly when the latitude or the longitude is
    absent, is not a number or is 0; only a 200 answer carries a list of
    stores, and every other answer has success = false. *)
Theorem nearby_validation (db : Db) (q : NearbyQuery) :
  ((GET db q).1 = 400 ↔ unusable (latitude q) ∨ unusable (longitude q))
  ∧ (is_Some (data (GET db q).2) ↔ (GET db q).1 = 200)
  ∧ (success (GET db q).2 = true ↔ (GET db q).1 = 200).
Proof.
  rewrite <- !falsy_unusable. unfold GET. cbv zeta.
  destruct (falsy (parse_coordinate (latitude q))),
           (falsy (parse_coordinate (longitude q))); cbn [orb fst snd data success].
  4: destruct (select_nearby _ _ _ _) as [e|rows]; cbn [fst snd data success].
  all: unfold is_Some; repeat split; try done.
  all: try (by intros [? ?]); try (by intros [?|?]); eauto.
Qed.

(** X7.  The list of a 200 answer leaves out a store within the radius
    only when it is full, and then every store of the list is at least as
    near, in the [<->] order, as the one left out. *)
Theorem nearby_leaves_out_the_farthest (db : Db) (q : NearbyQuery) (lat lon r : Q) (n : Z)
    (rows : list NearbyStore) (s : Store.t) :
  latitude q = Some (Num lat) → longitude q = Some (Num lon) →
  parse_radius q = Num r → parse_limit q = Num n →
  data (GET db q).2 = Some rows →
  let p := ST_MakePoint lon lat in
  s ∈ stores db → ST_DWithin (location s) p (r * 1000) →
  s ∈ rows.*1
  ∨ (Z.of_nat (length rows) = n ∧ ∀ row, row ∈ rows → nearer p row.1 s).
Proof.
  intros Hlat Hlon Hr Hn Hdata p Hs Hwithin. revert Hdata.
  unfold GET. cbv zeta. rewrite Hlat, Hlon, Hr, Hn. cbn [parse_coordinate default id].
  destruct (falsy (Num lat) || falsy (Num lon)); [done|].
  unfold select_nearby. fold p. destruct (fits_bigint n); cbn [negb]; [|done].
  destruct (decide (0 ≤ n)) as [Hpos|]; [|done].
  cbn [snd data]. intros [= <-].
  set (found := filter (within p (Num r)) (stores db)).
  set (sorted := merge_sort (nearer p) found).
  assert (Hsorted : StronglySorted (nearer p) sorted)
    by (apply StronglySorted_merge_sort; apply _).
  assert (Hin : s ∈ sorted).
  { unfold sorted. rewrite merge_sort_Permutation. by apply list_elem_of_filter. }
  rewrite fst_paired, length_fmap.
  rewrite <- (take_drop (Z.to_nat n) sorted) in Hin.
  apply elem_of_app in Hin as [Hin|Hin]; [by left|right].
  split.
  - rewrite length_take. apply list_elem_of_lookup in Hin as (i & Hi).
    apply lookup_lt_Some in Hi. rewrite length_drop in Hi. lia.
  - intros row (s' & -> & Hs')%list_elem_of_fmap. simpl.
    by apply (StronglySorted_take_drop (nearer p) (Z.to_nat n) sorted).
Qed.

End Handler.

Lemma nearby_leaves_out_the_farthest_witness :
  let wawa := Store.mk 3 "Wawa Plaza" "789 Broadway" "New York" "NY" "10003"
                (40732000 # 1000000) (-73990000 # 1000000) in
  let p := ST_MakePoint (-73.99)%Q 40.75%Q in
  ∃ rows, data (GET (H := Sample.flat) Sample.db midtown_query).2 = Some rows
          ∧ (wawa ∈ rows.*1
             ∨ (Z.of_nat (length rows) = 2
                ∧ ∀ row, row ∈ rows → nearer (H := Sample.flat) p row.1 wawa)).
Proof.
  intros wawa p.
  assert (Hs : wawa ∈ stores Sample.db) by (do 2 right; by left).
  assert (Hwithin : ST_DWithin (H := Sample.flat) (location wawa) p (10 * 1000)) by by compute.
  eexists. split; [reflexivity|].
  exact (nearby_leaves_out_the_farthest (H := Sample.flat) Sample.db midtown_query
           40.75%Q (-73.99)%Q 10%Q 2 _ wawa eq_refl eq_refl eq_refl eq_refl eq_refl
           Hs Hwithin).
Defined.

End NearbyMore.

(** ** White space *)

Module WhiteSpaceFacts.
Import Js.

Local Arguments String.append !_ _ /.

Lemma string_length_ind (P : string → Prop) :
  (∀ s, (∀ t, (String.length t < String.length s)%nat → P t) → P s) → ∀ s, P s.
Proof.
  intros Hstep s. remember (String.length s) as n eqn:Hn. revert s Hn.
  induction n as [n IH] using lt_wf_ind. intros s ->.
  apply Hstep. intros t Ht. by apply (IH (String.length t)).
Qed.

Lemma blank_cons (c1 : Ascii.ascii) (s1 : string) :
  blank (String c1 s1) =
  if white_space (String c1 "") then blank s1
  else
    match s1 with
    | EmptyString => false
    | String c2 s2 =>
        if white_space (String c1 (String c2 "")) then blank s2
        else
          match s2 with
          | EmptyString => false
          | String c3 s3 => white_space (String c1 (String c2 (String c3 ""))) && blank s3
          end
    end.
Proof. reflexivity. Qed.

Lemma words_go_cons (cur : string) (c1 : Ascii.ascii) (s1 : string) :
  words_go cur (String c1 s1) =
  if white_space (String c1 "") then flush cur (words_go "" s1)
  else
    match s1 with
    | EmptyString => words_go (String c1 cur) s1
    | String c2 s2 =>
        if white_space (String c1 (String c2 "")) then flush cur (words_go "" s2)
        else
          match s2 with
          | EmptyString => words_go (String c1 cur) s1
          | String c3 s3 =>
              if white_space (String c1 (String c2 (String c3 "")))
              then flush cur (words_go "" s3)
              else words_go (String c1 cur) s1
          end
    end.
Proof. reflexivity. Qed.

(** The head of a text: nothing, a white space character and what
    follows it, or a byte that begins none. *)
Lemma white_space_view (s : string) :
  s = ""
  ∨ (∃ ch rest, s = ch +:+ rest ∧ white_space ch = true
       ∧ (String.length rest < String.length s)%nat
       ∧ blank s = blank rest
       ∧ ∀ cur, words_go cur s = flush cur (words_go "" rest))
  ∨ (∃ c1 s1, s = String c1 s1 ∧ blank s = false
       ∧ ∀ cur, words_go cur s = words_go (String c1 cur) s1).
Proof.
  destruct s as [|c1 s1]; [by left|]. right.
  rewrite blank_cons. setoid_rewrite words_go_cons.
  destruct (white_space (String c1 "")) eqn:H1.
  { left. exists (String c1 ""), s1. repeat split; try done. simpl. lia. }
  destruct s1 as [|c2 s2].
  { right. by exists c1, "". }
  destruct (white_space (String c1 (String c2 ""))) eqn:H2.
  { left. exists (String c1 (String c2 "")), s2. repeat split; try done. simpl. lia. }
  destruct s2 as [|c3 s3].
  { right. by exists c1, (String c2 ""). }
  destruct (white_space (String c1 (String c2 (String c3 "")))) eqn:H3.
  { left. exists (String c1 (String c2 (String c3 ""))), s3.
    repeat split; try done. simpl. lia. }
  right. by exists c1, (String c2 (String c3 s3)).
Qed.

(** The bytes of a white space character: those of the ASCII range that
    are white space, and bytes beyond that range. *)
Lemma white_space_bytes (ch pre post : string) (c : Ascii.ascii) :
  white_space ch = true → ch = pre +:+ String c post →
  Ascii.is_space c = true ∨ (128 ≤ byte c)%N.
Proof.
  destruct ch as [|c1 [|c2 [|c3 [|c4 ch]]]]; try done.
  - intros H1 Hc. destruct pre as [|x [|y pre]]; simplify_eq/=. by left.
  - intros H2 Hc. right. unfold white_space in H2.
    apply andb_true_iff in H2 as [E1%N.eqb_eq E2%N.eqb_eq].
    destruct pre as [|x [|y [|z pre]]]; simplify_eq/=; lia.
  - intros H3 Hc. right. unfold white_space in H3.
    assert (Hall : (128 ≤ byte c1)%N ∧ (128 ≤ byte c2)%N ∧ (128 ≤ byte c3)%N).
    { repeat match type of H3 with
             | (_ || _) = true => apply orb_true_iff in H3 as [H3|H3]
             end;
        repeat match goal with
               | H : (_ && _) = true |- _ => apply andb_true_iff in H as [? ?]
               | H : (_ || _) = true |- _ => apply orb_true_iff in H as [?|?]
               | H : (_ =? _)%N = true |- _ => apply N.eqb_eq in H
               | H : (_ <=? _)%N = true |- _ => apply N.leb_le in H
               end; lia. }
    destruct pre as [|x [|y [|z [|u pre]]]]; simplify_eq/=; tauto.
Qed.

Lemma white_space_not_empty (ch : string) : white_space ch = true → ch ≠ "".
Proof. by destruct ch. Qed.

Lemma append_assoc (a b c : string) : (a +:+ b) +:+ c = a +:+ (b +:+ c).
Proof. induction a as [|x a IH]; simpl; [done|]. by rewrite IH. Qed.

Lemma append_nil_r (a : string) : a +:+ "" = a.
Proof. induction a as [|x a IH]; simpl; [done|]. by rewrite IH. Qed.

Lemma append_split (a b pre post : string) (c : Ascii.ascii) :
  a +:+ b = pre +:+ String c post →
  (∃ mid, a = pre +:+ String c mid) ∨ (∃ pre', b = pre' +:+ String c post).
Proof.
  revert pre. induction a as [|x a IH]; intros pre; simpl.
  - intros ->. right. by exists pre.
  - destruct pre as [|y pre]; simpl.
    + intros [= -> <-]. left. by exists a.
    + intros [= -> Hab]. destruct (IH pre Hab) as [[mid ->]|[pre' ->]].
      * left. by exists mid.
      * right. by exists pre'.
Qed.

(** A blank text has no byte but those of white space characters. *)
Lemma blank_bytes (s : string) :
  blank s = true →
  ∀ pre c post, s = pre +:+ String c post → Ascii.is_space c = true ∨ (128 ≤ byte c)%N.
Proof.
  induction s as [s IH] using string_length_ind. intros Hb pre c post Hs.
  destruct (white_space_view s) as [->|[(ch & rest & -> & Hch & Hlen & Hblank & _)
                                       |(c1 & s1 & _ & Hblank & _)]].
  - by destruct pre.
  - rewrite Hblank in Hb.
    destruct (append_split ch rest pre post c Hs) as [[mid Hmid]|[pre' Hrest]].
    + by apply (white_space_bytes ch pre mid c).
    + by apply (IH rest Hlen Hb pre' c post).
  - by rewrite Hblank in Hb.
Qed.

(** A blank text has no words. *)
Lemma words_go_blank (s : string) (cur : string) :
  blank s = true → words_go cur s = flush cur [].
Proof.
  revert cur. induction s as [s IH] using string_length_ind. intros cur Hb.
  destruct (white_space_view s) as [->|[(ch & rest & -> & Hch & Hlen & Hblank & Hwords)
                                       |(c1 & s1 & _ & Hblank & _)]].
  - done.
  - rewrite Hblank in Hb. by rewrite Hwords, (IH rest Hlen "" Hb).
  - by rewrite Hblank in Hb.
Qed.

Lemma rev_app_append (s1 s2 : string) :
  String.rev_app s1 s2 = String.rev_app s1 "" +:+ s2.
Proof.
  revert s2. induction s1 as [|a s1 IH]; intros s2; simpl; [done|].
  rewrite (IH (String a s2)), (IH (String a "")). by rewrite append_assoc.
Qed.

Lemma rev_cons (c : Ascii.ascii) (cur : string) :
  String.rev (String c cur) = String.rev cur +:+ String c "".
Proof. unfold String.rev. simpl. apply rev_app_append. Qed.

(** A text of one word has that word somewhere in it. *)
Lemma words_go_single (s : string) (cur : string) (w : string) :
  words_go cur s = [w] →
  ∃ pre post, String.rev cur +:+ s = pre +:+ w +:+ post.
Proof.
  revert cur. induction s as [s IH] using string_length_ind. intros cur.
  destruct (white_space_view s) as [->|[(ch & rest & -> & Hch & Hlen & _ & Hwords)
                                       |(c1 & s1 & -> & _ & Hwords)]].
  - cbn [words_go]. destruct cur as [|c cur]; [done|]. intros [= <-].
    exists "", "". by rewrite !append_nil_r.
  - rewrite Hwords. destruct cur as [|c cur]; cbn [flush].
    + intros (pre & post & Hrest)%(IH rest Hlen ""). simpl in Hrest.
      exists (ch +:+ pre), post. simpl. by rewrite Hrest, append_assoc.
    + intros [= <- _]. exists "", (ch +:+ rest). done.
  - rewrite Hwords. intros (pre & post & Hs1)%(IH s1); [|simpl; lia].
    exists pre, post. rewrite <- Hs1, rev_cons, append_assoc. done.
Qed.

Lemma trim_split_blank (s : string) : blank s = true → trim_split s = [""].
Proof. intros Hb. unfold trim_split, words. by rewrite (words_go_blank s "" Hb). Qed.

Lemma trim_split_single (s w : string) :
  trim_split s = [w] → ∃ pre post, s = pre +:+ w +:+ post.
Proof.
  unfold trim_split, words. destruct (words_go "" s) as [|w' ws] eqn:Hw.
  - intros [= <-]. by exists "", s.
  - intros [= -> ->]. by apply (words_go_single s "").
Qed.

(** The no-break space is white space, to [trim] and to [split] alike. *)
Lemma no_break_space_is_white_space :
  blank no_break_space = true
  ∧ blank (" " +:+ no_break_space +:+ " ") = true
  ∧ trim_split ("bang" +:+ no_break_space +:+ "blue") = ["bang"; "blue"].
Proof. by repeat split. Qed.

End WhiteSpaceFacts.

(** ** More on the geocode endpoint *)

Module GeocodeMore.
Import Geocode GeocodeKeys GeocodeFacts WhiteSpaceFacts.

Local Arguments String.append !_ _ /.

Lemma geocodeAddress_query `{JsRuntime} (w : World) (a b : string + AddressComponents) :
  queryAddress a = queryAddress b → geocodeAddress w a = geocodeAddress w b.
Proof. intros Hq. unfold geocodeAddress. by rewrite Hq. Qed.

Lemma filter_Boolean_or_undefined (x : option string) (rest : list (option string)) :
  Js.filter_Boolean (or_undefined x :: rest) = Js.filter_Boolean (x :: rest).
Proof.
  unfold Js.filter_Boolean, or_undefined. simpl.
  destruct (Js.truthy_string x) eqn:Hx; by rewrite ?Hx.
Qed.

Lemma or_string_idem (x d : option string) :
  Js.or_string (Js.or_string x d) d = Js.or_string x d.
Proof.
  unfold Js.or_string. destruct (Js.truthy_string x) eqn:Hx; [by rewrite Hx|].
  by destruct (Js.truthy_string d).
Qed.

Lemma join_ends_with (parts : list string) (last : string) :
  ∃ pre, Js.join " " (parts ++ [last]) = pre +:+ last.
Proof.
  induction parts as [|x parts [pre IH]]; [by exists ""|].
  change ((x :: parts) ++ [last])%list with (x :: (parts ++ [last]))%list.
  destruct (parts ++ [last])%list as [|y rest] eqn:Hrest.
  { by destruct parts. }
  change (Js.join " " (x :: y :: rest)) with (x +:+ " " +:+ Js.join " " (y :: rest)).
  rewrite IH. exists (x +:+ " " +:+ pre). by rewrite !append_assoc.
Qed.

(** A text that ends in [US] is not blank: no white space character has
    the byte of a letter. *)
Lemma join_ends_not_blank (parts : list string) :
  Js.blank (Js.join " " (parts ++ ["US"])) = false.
Proof.
  destruct (join_ends_with parts "US") as [pre Hq].
  destruct (Js.blank _) eqn:Hb; [|done].
  destruct (blank_bytes _ Hb pre _ "S" Hq) as [Hu|Hu]; [done|].
  exfalso. apply Hu. reflexivity.
Qed.

Lemma filter_Boolean_snoc (parts : list (option string)) (x : string) :
  x ≠ "" →
  Js.filter_Boolean (parts ++ [Some x]) = (Js.filter_Boolean parts ++ [x])%list.
Proof.
  intros Hx. unfold Js.filter_Boolean. rewrite omap_app. simpl.
  by rewrite (proj2 (String.eqb_neq x "") Hx).
Qed.

Section Handlers.
Context `{JsRuntime}.

(** X8.  Without an API key in the environment (none, or an empty one),
    every request that passes the validation, by POST or by GET, is
    answered 500 with the error of the missing key, whatever the provider
    would have said. *)
Theorem geocode_without_key (w : World) (input : string + AddressComponents)
    (answer : Z * GeocodeResponse) :
  answers w input answer →
  Js.truthy_string (GEOCODING_API_KEY w) = false →
  answer.1 = 500
  ∧ success answer.2 = false
  ∧ data answer.2 = None
  ∧ error answer.2 = Some "GEOCODING_API_KEY not found in environment variables".
Proof.
  intros Hanswer Hkey.
  assert (Hgeo : geocodeAddress w input
                 = inl "GEOCODING_API_KEY not found in environment variables").
  { unfold geocodeAddress. by rewrite Hkey. }
  destruct Hanswer as [body Hvalid <-|query Hvalid <-].
  - unfold POST. by rewrite Hvalid, Hgeo.
  - unfold GET. by rewrite Hvalid, Hgeo.
Qed.

(** X9.  With an API key, a request that passes the validation and whose
    text is nothing but white space is answered 500, not 400, with the
    error [Address cannot be empty]; the provider is not asked. *)
Theorem geocode_blank_text (w : World) (input : string + AddressComponents)
    (answer : Z * GeocodeResponse) :
  answers w input answer →
  Js.truthy_string (GEOCODING_API_KEY w) = true →
  Js.blank (queryAddress input) = true →
  answer.1 = 500
  ∧ success answer.2 = false
  ∧ data answer.2 = None
  ∧ error answer.2 = Some "Address cannot be empty".
Proof.
  intros Hanswer Hkey Hblank.
  assert (Hgeo : geocodeAddress w input = inl "Address cannot be empty").
  { unfold geocodeAddress. by rewrite Hkey, Hblank. }
  destruct Hanswer as [body Hvalid <-|query Hvalid <-].
  - unfold POST. by rewrite Hvalid, Hgeo.
  - unfold GET. by rewrite Hvalid, Hgeo.
Qed.

(** X10.  A request that is geocoded by its components and names no
    country is searched with [US] at the end of its text, so that the text
    is never blank: with an API key the provider is asked. *)
Theorem geocode_components_reach_provider (w : World) (c : AddressComponents) (key : string) :
  Js.truthy_string (country c) = false →
  GEOCODING_API_KEY w = Some key → key ≠ "" →
  Js.blank (queryAddress (inr c)) = false
  ∧ geocodeAddress w (inr c) =
      match search w key (queryAddress (inr c)) with
      | inl m => inl ("Geocoding failed: " +:+ m)
      | inr r => inr r
      end.
Proof.
  intros Hcountry Hkey Hkey0.
  assert (Hq : Js.blank (queryAddress (inr c)) = false).
  { unfold queryAddress, Js.or_string. rewrite Hcountry.
    change [address c; city c; state c; zip_code c; Some "US"]
      with ([address c; city c; state c; zip_code c] ++ [Some "US"])%list.
    rewrite filter_Boolean_snoc by done. apply join_ends_not_blank. }
  split; [done|].
  unfold geocodeAddress. by rewrite Hkey, (truthy_key key Hkey0), Hq.
Qed.

(** X11.  GET answers as POST does: for a query and the body that carries
    the same address, city, state, zip code and country, the status, the
    success flag, the coordinates and the error are the same; only the
    message of a 400 answer differs. *)
Theorem geocode_get_as_post (w : World) (query : GeocodeQuery) :
  let get := GET w query in
  let post := POST w (body_of_query query) in
  get.1 = post.1
  ∧ success get.2 = success post.2
  ∧ data get.2 = data post.2
  ∧ error get.2 = error post.2
  ∧ (get.1 = 400 ∨ get = post).
Proof.
  intros get post. subst get post. unfold GET, POST.
  assert (Hnothing : hasNothing query
                     = negb (hasFullAddress (body_of_query query))
                       && negb (hasComponents (body_of_query query))).
  { unfold hasNothing, hasFullAddress, hasComponents, body_of_query; simpl.
    by destruct (Js.truthy_string (fullAddress query)),
         (Js.truthy_string (param_city query)), (Js.truthy_string (param_state query)),
         (Js.truthy_string (zipCode query)). }
  rewrite <- Hnothing. destruct (hasNothing query) eqn:Hn.
  { simpl. repeat split; try done. by left. }
  assert (Hgeo : geocodeAddress w (addressInput_of_query query)
                 = geocodeAddress w (addressInput (body_of_query query))).
  { apply geocodeAddress_query. unfold addressInput_of_query, addressInput.
    assert (Honly : hasOnlyFullAddress query
                    = hasFullAddress (body_of_query query)
                      && negb (hasComponents (body_of_query query))).
    { unfold hasOnlyFullAddress, hasFullAddress, hasComponents, body_of_query; simpl.
      by destruct (Js.truthy_string (fullAddress query)),
           (Js.truthy_string (param_city query)), (Js.truthy_string (param_state query)),
           (Js.truthy_string (zipCode query)). }
    rewrite <- Honly. destruct (hasOnlyFullAddress query); [done|].
    unfold queryAddress, body_of_query; simpl.
    rewrite !or_string_idem. unfold Js.filter_Boolean, or_undefined. simpl.
    by destruct (Js.truthy_string (fullAddress query)) eqn:E1,
         (Js.truthy_string (param_city query)) eqn:E2,
         (Js.truthy_string (param_state query)) eqn:E3,
         (Js.truthy_string (zipCode query)) eqn:E4;
      rewrite ?E1, ?E2, ?E3, ?E4. }
  rewrite Hgeo. destruct (geocodeAddress w (addressInput (body_of_query query))); simpl.
  - repeat split; try done. by right.
  - repeat split; try done. by right.
Qed.

Lemma batch_fold (w : World) (addresses : list (string + AddressComponents))
    (results : list (option GeocodeResult)) :
  ∃ pushed,
    fold_left (batch_turn w) addresses results = results ++ pushed
    ∧ Forall2 (λ address r, match geocodeAddress w address with
                            | inr result => r = Some result
                            | inl _ => r = None
                            end) addresses pushed.
Proof.
  revert results. induction addresses as [|address rest IH]; intros results; cbn [fold_left].
  { exists []. by rewrite app_nil_r. }
  destruct (IH (batch_turn w results address)) as (pushed & -> & Hall).
  unfold batch_turn. destruct (geocodeAddress w address) as [m|result] eqn:Hg.
  - exists (None :: pushed). rewrite <- app_assoc. split; [done|].
    constructor; [by rewrite Hg|done].
  - exists (Some result :: pushed). rewrite <- app_assoc. split; [done|].
    constructor; [by rewrite Hg|done].
Qed.

(** X12.  The batch returns one entry for each address, in the order of
    the addresses: the result of [geocodeAddress] where it returns, [null]
    where it throws.  Without an API key every entry is [null]. *)
Theorem batch_one_entry_each (w : World) (addresses : list (string + AddressComponents)) :
  Forall2 (λ address r, match geocodeAddress w address with
                        | inr result => r = Some result
                        | inl _ => r = None
                        end) addresses (batchGeocodeAddresses w addresses)
  ∧ length (batchGeocodeAddresses w addresses) = length addresses
  ∧ (Js.truthy_string (GEOCODING_API_KEY w) = false →
     Forall (λ r, r = None) (batchGeocodeAddresses w addresses)).
Proof.
  unfold batchGeocodeAddresses.
  destruct (batch_fold w addresses []) as (pushed & -> & Hall). rewrite app_nil_l.
  split; [done|]. split; [symmetry; by eapply Forall2_length|].
  intros Hkey. apply Forall_forall. intros r Hr.
  apply list_elem_of_lookup in Hr as (i & Hi).
  destruct (Forall2_lookup_r _ _ _ _ _ Hall Hi) as (address & _ & Hr).
  unfold geocodeAddress in Hr. by rewrite Hkey in Hr.
Qed.

End Handlers.

Lemma geocode_without_key_witness :
  (POST (H := plain_decimal) (mkWorld None (fetch one_candidate)) fifth_avenue_request).1 = 500.
Proof.
  exact (proj1 (geocode_without_key (H := plain_decimal)
                  (mkWorld None (fetch one_candidate)) _ _
                  (answers_POST _ _ fifth_avenue_request eq_refl eq_refl) eq_refl)).
Defined.

Lemma geocode_blank_text_witness :
  (POST (H := plain_decimal) one_candidate blank_address_request).1 = 500
  ∧ error (POST (H := plain_decimal) one_candidate blank_address_request).2
    = Some "Address cannot be empty".
Proof.
  destruct (geocode_blank_text (H := plain_decimal) one_candidate _ _
              (answers_POST _ _ blank_address_request eq_refl eq_refl) eq_refl eq_refl)
    as (Hst & _ & _ & Herr).
  split; [exact Hst | exact Herr].
Defined.

(** An address that is a no-break space passes the validation and is
    answered 500: it is blank. *)
Lemma no_break_space_address_is_blank :
  let body := mkComponents (Some Js.no_break_space) None None None None in
  (POST (H := plain_decimal) one_candidate body).1 = 500
  ∧ error (POST (H := plain_decimal) one_candidate body).2 = Some "Address cannot be empty".
Proof. by split. Qed.

Lemma geocode_components_reach_provider_witness :
  Js.blank (queryAddress (inr (mkComponents None (Some " ") None None None))) = false.
Proof.
  assert (Hkey : "key" ≠ "") by by compute.
  exact (proj1 (geocode_components_reach_provider (H := plain_decimal) one_candidate
                  (mkComponents None (Some " ") None None None) "key" eq_refl eq_refl Hkey)).
Defined.

End GeocodeMore.

(** ** More on the autocomplete endpoints *)

Module AutocompleteMore.
Import Autocomplete AutocompleteFacts WhiteSpaceFacts.

Local Arguments String.append !_ _ /.

Lemma prefix_spec (t s : string) :
  String.prefix t s = true ↔ ∃ b, s = t +:+ b.
Proof.
  revert s. induction t as [|c t IH]; intros s; simpl.
  - split; [intros _; by exists s|]. by destruct s.
  - destruct s as [|d s]; simpl.
    + split; [done|]. by intros [b ?].
    + destruct (Ascii.ascii_dec c d) as [->|Hne].
      * rewrite IH. split; intros [b Hb]; exists b; [by rewrite Hb|by injection Hb].
      * split; [done|]. intros [b Hb]. by injection Hb as -> _.
Qed.

(** [s.includes(t)] says that [t] lies somewhere in [s]. *)
Lemma includes_spec (s t : string) :
  Js.includes s t = true ↔ ∃ a b, s = a +:+ t +:+ b.
Proof.
  induction s as [|c s IH]; cbn [Js.includes].
  - rewrite orb_false_r, prefix_spec. split.
    + intros [b Hb]. by exists "", b.
    + intros (a & b & Hab). destruct a; simpl in Hab; [by exists b|done].
  - rewrite orb_true_iff, IH, prefix_spec. split.
    + intros [[b Hb]|(a & b & Hab)]; [by exists "", b|].
      exists (String c a), b. simpl. by rewrite Hab.
    + intros (a & b & Hab). destruct a as [|x a]; simpl in Hab.
      * left. by exists b.
      * right. exists a, b. by injection Hab.
Qed.

Lemma includes_within (s t pre post : string) :
  Js.includes s (pre +:+ t +:+ post) = true → Js.includes s t = true.
Proof.
  rewrite !includes_spec. intros (a & b & ->).
  exists (a +:+ pre), (post +:+ b). by rewrite !append_assoc.
Qed.

Lemma includes_empty (s : string) : Js.includes s "" = true.
Proof. destruct s; simpl; done. Qed.

Lemma contains_within (field pre word post : string) :
  contains_insensitive field (pre +:+ word +:+ post) = true →
  contains_insensitive field word = true.
Proof.
  unfold contains_insensitive. rewrite !GeocodeFacts.toLowerCase_app. apply includes_within.
Qed.

(** A query of one word has that word somewhere in it. *)
Lemma single_word_within (query word : string) :
  split_words query = [word] → ∃ pre post, query = pre +:+ word +:+ post.
Proof. apply trim_split_single. Qed.

(** What the basic handler matches, the word-splitting one matches. *)
Lemma matches_query_whereCondition (query : string) (d : EnergyDrink.t) :
  matches_query query d = true → whereCondition query d = true.
Proof.
  unfold matches_query, whereCondition. intros Hm.
  destruct (split_words query) as [|word [|w2 ws]] eqn:Hw.
  - rewrite <- orb_assoc, Hm. apply orb_true_r.
  - destruct (single_word_within query word Hw) as (pre & post & Hq).
    rewrite Hq in Hm. apply orb_true_iff in Hm as [Hm|Hm]; apply orb_true_iff.
    + left. by apply (contains_within _ pre word post).
    + right. by apply (contains_within _ pre word post).
  - rewrite <- orb_assoc, Hm. apply orb_true_r.
Qed.

Lemma blank_whereCondition (query : string) (d : EnergyDrink.t) :
  Js.blank query = true → whereCondition query d = true.
Proof.
  intros Hb. unfold whereCondition, split_words.
  rewrite (trim_split_blank query Hb).
  unfold contains_insensitive. simpl. by rewrite includes_empty.
Qed.

Lemma filter_all {A} (P : A → Prop) `{!∀ x, Decision (P x)} (l : list A) :
  Forall P l → filter P l = l.
Proof.
  induction 1 as [|x l Hx _ IH]; [done|]. by rewrite filter_cons_True, IH.
Qed.

Section Handlers.
Context `{Collation}.

(** X13.  Whenever the word-splitting handler returns fewer than its 20
    suggestions, it returns every suggestion of the basic handler for the
    same query. *)
Theorem words_handler_covers_basic (db : Db) (q : option string) (s : Suggestion) :
  (length (GET_words db q).2 < 20)%nat →
  s ∈ (GET db q).2 → s ∈ (GET_words db q).2.
Proof.
  unfold GET, GET_words. destruct (String.length (query_of q) <? 1)%nat; [done|].
  cbn [snd]. rewrite length_fmap, length_take.
  set (basic := filter (λ d, matches_query (query_of q) d) (energy_drinks db)).
  set (smart := filter (λ d, whereCondition (query_of q) d) (energy_drinks db)).
  intros Hlen (d & -> & Hd)%list_elem_of_fmap.
  apply list_elem_of_fmap. exists d. split; [done|].
  rewrite take_ge by lia. rewrite merge_sort_Permutation.
  apply (subseteq_take 10) in Hd. rewrite merge_sort_Permutation in Hd.
  apply list_elem_of_filter in Hd as [Hm Hin]. apply list_elem_of_filter. split; [|done].
  apply Is_true_true, matches_query_whereCondition. by apply Is_true_true.
Qed.

(** X14.  A query that is not empty and consists of white space alone
    makes the word-splitting handler match every drink: it answers with the
    first 20 drinks of the whole catalog, by brand and then by flavor. *)
Theorem blank_query_lists_the_catalog (db : Db) (query : string) :
  query ≠ "" → Js.blank query = true →
  GET_words db (Some query)
  = (200, select <$> take 20 (merge_sort by_brand_then_flavor (energy_drinks db))).
Proof.
  intros Hne Hb. unfold GET_words, query_of, Js.or_string. simpl.
  rewrite (proj2 (String.eqb_neq query "") Hne). simpl.
  destruct query as [|c query]; [done|]. simpl.
  rewrite filter_all; [done|].
  apply Forall_forall. intros d _. by apply Is_true_true, blank_whereCondition.
Qed.

End Handlers.

Lemma words_handler_covers_basic_witness :
  Autocomplete.mkSuggestion 3 "Monster" "Original" 473 (Some 160) None
  ∈ (GET_words (H := byte_order) Sample.db (Some "monster")).2.
Proof.
  assert (Hlen : (length (GET_words (H := byte_order) Sample.db (Some "monster")).2 < 20)%nat)
    by (vm_compute; lia).
  assert (Hin : Autocomplete.mkSuggestion 3 "Monster" "Original" 473 (Some 160) None
                ∈ (GET (H := byte_order) Sample.db (Some "monster")).2)
    by (vm_compute; by left).
  exact (words_handler_covers_basic (H := byte_order) Sample.db (Some "monster") _ Hlen Hin).
Defined.

Lemma blank_query_lists_the_catalog_witness :
  length (GET_words (H := byte_order) Sample.db (Some " ")).2 = 10%nat.
Proof.
  assert (Hne : " " ≠ "") by done.
  rewrite (blank_query_lists_the_catalog (H := byte_order) Sample.db " " Hne eq_refl).
  reflexivity.
Defined.

End AutocompleteMore.

(** ** Properties of the OpenStreetMap import *)

Module OverpassFacts.
Import Overpass.

Lemma or_text_not_empty (x : option string) (d : string) : d ≠ "" → or_text x d ≠ "".
Proof.
  intros Hd. unfold or_text, Js.or_string.
  destruct (Js.truthy_string x) eqn:Hx; [|done].
  destruct x as [x|]; [|done]. simpl in *.
  intros ->. done.
Qed.

Lemma or_text_absent (x : option string) (d : string) :
  Js.truthy_string x = false → or_text x d = d.
Proof. intros Hx. unfold or_text, Js.or_string. by rewrite Hx. Qed.

Lemma truthy_number_Some (x : option Q) :
  Js.truthy_number x = true → ∃ v, x = Some v ∧ ¬ (v == 0)%Q.
Proof.
  destruct x as [v|]; [|done]. simpl. intros Hv. exists v. split; [done|].
  intros Hz. by rewrite (Qeq_eq_bool _ _ Hz) in Hv.
Qed.

(** What the filter asks of an element: a latitude and a longitude, its
    own or those of its centre, neither being 0, and a name tag that is
    not empty. *)
Lemma has_coordinates_and_name_spec (e : OverpassElement.t) :
  has_coordinates_and_name e = true ↔
  (∃ lat, lat_of e = Some lat ∧ ¬ (lat == 0)%Q)
  ∧ (∃ lon, lon_of e = Some lon ∧ ¬ (lon == 0)%Q)
  ∧ (∃ n, Tags.name (OverpassElement.tags e) = Some n ∧ n ≠ "").
Proof.
  unfold has_coordinates_and_name. rewrite !andb_true_iff.
  assert (Hnum : ∀ x, Js.truthy_number x = true ↔ ∃ v, x = Some v ∧ ¬ (v == 0)%Q).
  { intros x. split; [apply truthy_number_Some|].
    intros (v & -> & Hv). simpl. destruct (Qeq_bool v 0) eqn:E; [|done].
    by apply Qeq_bool_eq in E. }
  assert (Hstr : ∀ x, Js.truthy_string x = true ↔ ∃ n, x = Some n ∧ n ≠ "").
  { intros [n|]; simpl.
    - rewrite negb_true_iff, String.eqb_neq. split; [by exists n|]. by intros (? & [= <-] & ?).
    - split; [done|]. by intros (? & ? & _). }
  rewrite !Hnum, Hstr. tauto.
Qed.

Section Stations.
Context `{JsStrings}.

(** X15.  When the provider answers with elements, the function returns
    stations, one for each element that has coordinates and a name, in
    their order: no such element is left out, and when every element is
    such, every element has its station.  Each station has the coordinates
    of its element (its own, or else those of its centre), neither being
    0; its name is the brand tag or, failing that, the name tag, so that
    the text [Unknown Gas Station] is never used; and its address, city,
    state and zip code are never empty. *)
Theorem overpass_stations_well_formed (w : World) (latitude longitude radiusMeters : Q)
    (elements : list OverpassElement.t) :
  fetch w radiusMeters latitude longitude = json elements →
  ∃ stations,
    findNearbyGasStations w latitude longitude radiusMeters = inr stations
    ∧ (length stations ≤ length elements)%nat
    ∧ (∃ kept, kept `sublist_of` elements
         ∧ (∀ e, e ∈ kept ↔ e ∈ elements ∧ has_coordinates_and_name e = true)
         ∧ stations = to_station <$> kept)
    ∧ (∀ e, e ∈ elements → has_coordinates_and_name e = true → to_station e ∈ stations)
    ∧ (Forall (λ e, has_coordinates_and_name e = true) elements →
       stations = to_station <$> elements)
    ∧ Forall (λ st, ∃ e,
        e ∈ elements ∧ st = to_station e
        ∧ Some (GasStation.latitude st) = lat_of e ∧ ¬ (GasStation.latitude st == 0)%Q
        ∧ Some (GasStation.longitude st) = lon_of e ∧ ¬ (GasStation.longitude st == 0)%Q
        ∧ Some (GasStation.name st)
          = Js.or_string (Tags.brand (OverpassElement.tags e))
              (Tags.name (OverpassElement.tags e))
        ∧ GasStation.name st ≠ ""
        ∧ GasStation.address st ≠ "" ∧ GasStation.city st ≠ ""
        ∧ GasStation.state st ≠ "" ∧ GasStation.zipCode st ≠ "") stations.
Proof.
  intros Hfetch. unfold findNearbyGasStations. rewrite Hfetch.
  eexists. split; [done|]. split; [|split; [|split; [|split]]].
  - rewrite length_fmap.
    exact (length_filter (λ e, Is_true (has_coordinates_and_name e)) elements).
  - eexists. split; [|split; [|done]].
    + exact (sublist_filter (λ e, Is_true (has_coordinates_and_name e)) elements).
    + intros e. rewrite list_elem_of_filter, Is_true_true. tauto.
  - intros e He Hkeep. apply list_elem_of_fmap. exists e. split; [done|].
    apply list_elem_of_filter. split; [by apply Is_true_true|done].
  - intros Hall. f_equal. clear Hfetch. induction Hall as [|e l He _ IH]; [done|].
    rewrite filter_cons. destruct (decide _) as [_|Hn]; [by rewrite IH|].
    destruct Hn. by apply Is_true_true.
  - apply Forall_fmap, Forall_forall. intros e [Hkeep He]%list_elem_of_filter.
    apply Is_true_true in Hkeep. unfold has_coordinates_and_name in Hkeep.
    apply andb_true_iff in Hkeep as [[Hlat Hlon]%andb_true_iff Hname].
    apply truthy_number_Some in Hlat as (lat & Hlat & Hlat0).
    apply truthy_number_Some in Hlon as (lon & Hlon & Hlon0).
    exists e. simpl. rewrite Hlat, Hlon. simpl.
    assert (Hn : ∃ n, Js.or_string (Tags.brand (OverpassElement.tags e))
                        (Tags.name (OverpassElement.tags e)) = Some n ∧ n ≠ "").
    { unfold Js.or_string.
      destruct (Js.truthy_string (Tags.brand (OverpassElement.tags e))) eqn:Hb.
      - destruct (Tags.brand (OverpassElement.tags e)) as [b|]; [|done].
        exists b. split; [done|]. intros ->. done.
      - destruct (Tags.name (OverpassElement.tags e)) as [n|]; [|done].
        exists n. split; [done|]. intros ->. done. }
    destruct Hn as (n & Hn & Hn0).
    assert (Hname' : or_text (Js.or_string (Tags.brand (OverpassElement.tags e))
                                (Tags.name (OverpassElement.tags e)))
                       "Unknown Gas Station" = n).
    { unfold or_text. rewrite Hn. unfold Js.or_string. simpl.
      by rewrite (proj2 (String.eqb_neq n "") Hn0). }
    rewrite Hname', Hn.
    repeat split; try done; by apply or_text_not_empty.
Qed.

End Stations.

Lemma overpass_stations_well_formed_witness :
  ∃ stations,
    findNearbyGasStations (H := ascii_trim) two_elements 40.72%Q (-74.00)%Q 5000%Q
    = inr stations
    ∧ stations = [to_station (H := ascii_trim) shell_broadway;
                  to_station (H := ascii_trim) corner_fuel]
    ∧ GasStation.name <$> stations = ["Shell"; "Corner Fuel"]
    ∧ GasStation.address <$> stations = ["512 Broadway"; "Address not available"].
Proof.
  assert (Hall : Forall (λ e, has_coordinates_and_name e = true) [shell_broadway; corner_fuel])
    by (repeat constructor).
  destruct (overpass_stations_well_formed (H := ascii_trim) two_elements
              40.72%Q (-74.00)%Q 5000%Q [shell_broadway; corner_fuel] eq_refl)
    as (stations & Hret & _ & _ & _ & Hevery & _).
  exists stations. split; [exact Hret|].
  rewrite (Hevery Hall). split; [reflexivity|]. split; reflexivity.
Defined.

End OverpassFacts.

(** ** Properties of the discover endpoint and of the list of all stores *)

Module DiscoverFacts.
Import Overpass Discover OverpassFacts.

Lemma count_app (s : Status.t) (l k : list (GasStation.t * Status.t)) :
  count s (l ++ k) = (count s l + count s k)%nat.
Proof. unfold count. by rewrite filter_app, length_app. Qed.

Lemma count_total (l : list (GasStation.t * Status.t)) :
  (count Status.added l + count Status.skipped l + count Status.error l)%nat = length l.
Proof.
  unfold count. induction l as [|[st status] l IH]; [done|].
  rewrite !filter_cons. simpl. destruct status; repeat case_decide; try done; simpl; lia.
Qed.

Section Loop.
Context `{StoresTable}.

Lemma same_place_row_of (id : Z) (station : GasStation.t) :
  same_place station (row_of id station).
Proof. by split. Qed.

(** One turn of the loop, case by case. *)
Lemma import_station_spec (t : Stores) (res : Results) (station : GasStation.t) :
  ∃ status,
    (import_station (t, res) station).2
    = mkResults (discovered res)
        (if decide (status = Status.added) then S (added res) else added res)
        (if decide (status = Status.skipped) then S (skipped res) else skipped res)
        (stations res ++ [(station, status)])
    ∧ match status with
      | Status.skipped =>
          Exists (same_place station) (rows t) ∧ (import_station (t, res) station).1 = t
      | Status.added =>
          ¬ Exists (same_place station) (rows t) ∧ refuses station = false
          ∧ rows (import_station (t, res) station).1
            = rows t ++ [row_of (stores_id_seq t) station]
      | Status.error =>
          ¬ Exists (same_place station) (rows t) ∧ refuses station = true
          ∧ rows (import_station (t, res) station).1 = rows t
      end.
Proof.
  unfold import_station, existing.
  destruct (filter (same_place station) (rows t)) as [|r found] eqn:Hfound.
  - assert (Hnone : ¬ Exists (same_place station) (rows t)).
    { intros (r & Hin & Hr)%Exists_exists.
      assert (Hr' : r ∈ filter (same_place station) (rows t)) by by apply list_elem_of_filter.
      rewrite Hfound in Hr'. by apply elem_of_nil in Hr'. }
    unfold insert_store. destruct (refuses station) eqn:Href.
    + exists Status.error. by repeat split.
    + exists Status.added. by repeat split.
  - exists Status.skipped. split; [done|]. split; [|done].
    assert (Hr : r ∈ filter (same_place station) (rows t)) by (rewrite Hfound; by left).
    apply list_elem_of_filter in Hr as [Hr Hin]. apply Exists_exists. by exists r.
Qed.

(** The loop, from any table and any results. *)
Lemma import_fold_spec (discoveredStations : list GasStation.t) (t : Stores) (res : Results) :
  let out := fold_left import_station discoveredStations (t, res) in
  ∃ entries new,
    stations out.2 = stations res ++ entries
    ∧ entries.*1 = discoveredStations
    ∧ discovered out.2 = discovered res
    ∧ added out.2 = (added res + count Status.added entries)%nat
    ∧ skipped out.2 = (skipped res + count Status.skipped entries)%nat
    ∧ rows out.1 = rows t ++ new
    ∧ length new = count Status.added entries
    ∧ Forall (explained (rows out.1)) entries.
Proof.
  revert t res. induction discoveredStations as [|station rest IH]; intros t res out.
  { exists [], []. subst out. simpl. rewrite !app_nil_r. repeat split; try done; lia. }
  subst out. cbn [fold_left].
  destruct (import_station_spec t res station) as (status & Hres & Hstatus).
  destruct (import_station (t, res) station) as [t1 res1] eqn:Hstep. cbn [fst snd] in *.
  destruct (IH t1 res1) as (entries & new & Hst & Hfst & Hdisc & Hadd & Hskip & Hrows & Hnew & Hexp).
  set (out := fold_left import_station rest (t1, res1)) in *.
  assert (Hgrow : ∃ new1, rows t1 = rows t ++ new1
                          ∧ length new1 = count Status.added [(station, status)]
                          ∧ explained (rows t1 ++ new) (station, status)).
  { destruct status; unfold explained; cbn [fst snd].
    - destruct Hstatus as (Hnone & Href & Hrows1).
      exists [row_of (stores_id_seq t) station]. split; [done|]. split; [done|].
      split; [done|]. rewrite Hrows1. apply Exists_app. left. apply Exists_app. right.
      apply Exists_cons_hd, same_place_row_of.
    - destruct Hstatus as (Hex & ->). exists []. rewrite app_nil_r. split; [done|].
      split; [done|]. apply Exists_app. by left.
    - destruct Hstatus as (Hnone & Href & Hrows1). exists []. rewrite app_nil_r.
      by repeat split. }
  destruct Hgrow as (new1 & Hrows1 & Hnew1 & Hexp1).
  exists ((station, status) :: entries), (new1 ++ new).
  rewrite Hst, Hdisc, Hadd, Hskip, Hrows, Hres. cbn [stations discovered added skipped].
  rewrite <- !app_assoc. cbn [app]. rewrite Hrows1, <- !app_assoc.
  change ((station, status) :: entries) with ([(station, status)] ++ entries).
  rewrite !count_app, length_app, Hnew, Hnew1.
  repeat split; try done.
  - rewrite fmap_app, Hfst. done.
  - unfold count at 2. rewrite filter_cons. simpl.
    destruct status; repeat case_decide; try done; simpl; lia.
  - unfold count at 2. rewrite filter_cons. simpl.
    destruct status; repeat case_decide; try done; simpl; lia.
  - rewrite app_assoc, <- Hrows1. apply Forall_app. split; [|by rewrite <- Hrows].
    by apply Forall_singleton.
Qed.


End Loop.

Section Handler.
Context `{JsStrings} `{StoresTable}.

Lemma POST_discover (w : World) (t : Stores) (body : DiscoverRequest) :
  POST w t body =
  match discover w body with
  | inl early => (t, early)
  | inr discoveredStations =>
      if Js.defined_or (autoImport body) false then
        ((import_stations t discoveredStations).1,
         (200, mkResponse true
                 ("Discovered "
                  +:+ pretty (discovered (import_stations t discoveredStations).2)
                  +:+ " stations, added "
                  +:+ pretty (added (import_stations t discoveredStations).2)
                  +:+ ", skipped "
                  +:+ pretty (skipped (import_stations t discoveredStations).2))
                 (Some (import_stations t discoveredStations).2) None))
      else
        (t, (200, mkResponse true
                    ("Discovered " +:+ pretty (length discoveredStations) +:+ " gas stations")
                    (Some (mkResults (length discoveredStations) 0 0
                             ((λ s, (s, Status.skipped)) <$> discoveredStations)))
                    None))
  end.
Proof.
  unfold POST, discover. cbv zeta.
  destruct (negb (Js.truthy_number (latitude body))
            || negb (Js.truthy_number (longitude body))); [done|].
  destruct (latitude body) as [lat|]; [|done].
  destruct (longitude body) as [lon|]; [|done].
  destruct (findNearbyGasStationsRateLimited w lat lon _) as [m|sts]; [done|].
  destruct (Js.defined_or (autoImport body) false); [|done].
  by destruct (import_stations t sts).
Qed.

Lemma discover_early (w : World) (body : DiscoverRequest) (early : Z * DiscoverStoresResponse) :
  discover w body = inl early → early.1 ≠ 200 ∧ data early.2 = None.
Proof.
  unfold discover. cbv zeta. intros Hd.
  repeat match type of Hd with
         | context [if ?b then _ else _] => destruct b
         | context [match ?x with _ => _ end] => destruct x
         end; by simplify_eq/=.
Qed.

Lemma discover_stations (w : World) (body : DiscoverRequest) (sts : list GasStation.t) :
  discover w body = inr sts →
  ∃ lat lon, latitude body = Some lat ∧ longitude body = Some lon
             ∧ ¬ (lat == 0)%Q ∧ ¬ (lon == 0)%Q
             ∧ findNearbyGasStationsRateLimited w lat lon (Js.defined_or (radius body) 5000%Q)
               = inr sts.
Proof.
  unfold discover. cbv zeta.
  destruct (Js.truthy_number (latitude body)) eqn:Hlat; [|done].
  destruct (Js.truthy_number (longitude body)) eqn:Hlon; [|done]. cbn [negb orb].
  apply truthy_number_Some in Hlat as (lat & -> & Hlat).
  apply truthy_number_Some in Hlon as (lon & -> & Hlon).
  destruct (findNearbyGasStationsRateLimited w lat lon _) as [m|sts'] eqn:Hfind; [done|].
  intros [= <-]. by exists lat, lon.
Qed.

Lemma skipped_entries (sts : list GasStation.t) :
  ((λ s : GasStation.t, (s, Status.skipped)) <$> sts).*1 = sts
  ∧ count Status.added ((λ s : GasStation.t, (s, Status.skipped)) <$> sts) = 0%nat
  ∧ Forall (λ e, e.2 = Status.skipped) ((λ s : GasStation.t, (s, Status.skipped)) <$> sts).
Proof.
  split; [|split].
  - induction sts as [|st sts IH]; [done|]. rewrite !fmap_cons. simpl. by f_equal.
  - unfold count. induction sts as [|st sts IH]; [done|].
    rewrite fmap_cons, filter_cons. simpl.
    destruct (decide (Status.skipped = Status.added)); done.
  - by apply Forall_fmap, Forall_forall.
Qed.

(** X16.  The books of the import.  An answer without [data] leaves the
    table alone.  An answer with [data] is a 200: its list has the stations
    of the provider in their order, [discovered] is their number, and the
    table is the old one followed by as many new rows as [added] says.
    With [autoImport], [added] and [skipped] count the stations of these
    statuses, so that with the errors they add up to [discovered];
    without, nothing is written, both counts are 0 and every station is
    listed as skipped. *)
Theorem discover_accounting (w : World) (t : Stores) (body : DiscoverRequest) :
  let out := POST w t body in
  (data out.2.2 = None → out.1 = t)
  ∧ ∀ res, data out.2.2 = Some res →
      out.2.1 = 200
      ∧ (∃ lat lon, latitude body = Some lat ∧ longitude body = Some lon
           ∧ findNearbyGasStationsRateLimited w lat lon (Js.defined_or (radius body) 5000%Q)
             = inr (stations res).*1)
      ∧ discovered res = length (stations res)
      ∧ (∃ new, rows out.1 = rows t ++ new ∧ length new = added res)
      ∧ if Js.defined_or (autoImport body) false
        then added res = count Status.added (stations res)
             ∧ skipped res = count Status.skipped (stations res)
             ∧ (added res + skipped res + count Status.error (stations res))%nat
               = discovered res
        else out.1 = t ∧ added res = 0%nat ∧ skipped res = 0%nat
             ∧ Forall (λ e, e.2 = Status.skipped) (stations res).
Proof.
  intros out. subst out. rewrite POST_discover.
  destruct (discover w body) as [early|sts] eqn:Hd.
  { apply discover_early in Hd as [_ Hnone]. split; [done|].
    intros res Hres. cbn [fst snd] in Hres. by rewrite Hres in Hnone. }
  apply discover_stations in Hd as (lat & lon & Hlat & Hlon & _ & _ & Hfind).
  destruct (Js.defined_or (autoImport body) false); cbn [fst snd data].
  - split; [done|]. intros res [= <-].
    destruct (import_fold_spec sts t (mkResults (length sts) 0 0 []))
      as (entries & new & Hentries & Hfst & Hdisc & Hadd & Hskip & Hrows & Hnew & _).
    fold (import_stations t sts) in *. cbn [stations discovered added skipped] in *.
    rewrite app_nil_l in Hentries. rewrite Hentries, Hadd, Hskip, Hdisc, Hrows.
    split; [done|]. split; [exists lat, lon; by rewrite Hfst|].
    split; [by rewrite <- Hfst, length_fmap|].
    split; [by exists new|].
    split; [done|]. split; [done|]. simpl.
    by rewrite count_total, <- Hfst, length_fmap.
  - split; [done|]. intros res [= <-]. cbn [stations discovered added skipped].
    destruct (skipped_entries sts) as (Hfst & _ & Hall). rewrite Hfst.
    split; [done|]. split; [by exists lat, lon|].
    split; [by rewrite length_fmap|]. split; [exists []; by rewrite app_nil_r|].
    done.
Qed.


(** X18.  Where the database refuses the state [Unknown] (the column is
    [state VARCHAR(2)]), a station whose element has no [addr:state] tag is
    never imported: no answer lists it as added. *)
Theorem discover_unknown_state_not_added (w : World) (t : Stores) (body : DiscoverRequest)
    (res : Results) (e : OverpassElement.t) :
  (∀ st, GasStation.state st = "Unknown" → refuses st = true) →
  data (POST w t body).2.2 = Some res →
  Js.truthy_string (Tags.addr_state (OverpassElement.tags e)) = false →
  GasStation.state (to_station e) = "Unknown"
  ∧ (to_station e, Status.added) ∉ stations res.
Proof.
  intros Hschema Hres Hstate.
  assert (Hunknown : GasStation.state (to_station e) = "Unknown")
    by (simpl; by apply or_text_absent).
  split; [done|]. revert Hres. rewrite POST_discover.
  destruct (discover w body) as [early|sts] eqn:Hd.
  { apply discover_early in Hd as [_ Hnone]. cbn [snd]. by rewrite Hnone. }
  destruct (Js.defined_or (autoImport body) false); cbn [fst snd data]; intros [= <-].
  - destruct (import_fold_spec sts t (mkResults (length sts) 0 0 []))
      as (entries & new & Hentries & _ & _ & _ & _ & _ & _ & Hexp).
    fold (import_stations t sts) in *. cbn [stations] in Hentries.
    rewrite Hentries, app_nil_l. intros Hin.
    rewrite Forall_forall in Hexp. apply Hexp in Hin as [Href _].
    cbn [fst] in Href. by rewrite (Hschema _ Hunknown) in Href.
  - cbn [stations]. intros (st & [= _ ?] & _)%list_elem_of_fmap.
Qed.

Section Listing.
Context `{Collation}.

Global Instance by_name_total : Total AllStores.by_name.
Proof. intros a b. unfold AllStores.by_name. apply (total collate_le). Qed.

Global Instance by_name_trans : Transitive AllStores.by_name.
Proof. intros a b c. unfold AllStores.by_name. apply (transitivity (R := collate_le)). Qed.

(** X19.  The list of all stores is answered 200 with every row of the
    table, each once, in the order of the names. *)
Theorem all_stores_sorted_complete (table : list Store.t) :
  ∃ listed,
    (AllStores.GET table).1 = 200
    ∧ AllStores.data (AllStores.GET table).2 = Some listed
    ∧ AllStores.success (AllStores.GET table).2 = true
    ∧ listed ≡ₚ table
    ∧ StronglySorted AllStores.by_name listed.
Proof.
  eexists. split; [done|]. split; [done|]. split; [done|].
  split; [apply merge_sort_Permutation|].
  apply StronglySorted_merge_sort; apply _.
Qed.


End Listing.

End Handler.

Lemma discover_unknown_state_not_added_witness :
  ∃ res,
    data (POST (H := ascii_trim) (H0 := two_letter_states) two_elements empty
            import_request).2.2 = Some res
    ∧ (to_station (H := ascii_trim) shell_broadway, Status.added) ∈ stations res
    ∧ (to_station (H := ascii_trim) corner_fuel, Status.added) ∉ stations res.
Proof.
  assert (Hschema : ∀ st, GasStation.state st = "Unknown"
                          → refuses (StoresTable := two_letter_states) st = true)
    by (intros st Hst; simpl; by rewrite Hst).
  eexists. split; [reflexivity|]. split; [by left|].
  exact (proj2 (discover_unknown_state_not_added (H := ascii_trim) (H0 := two_letter_states)
                  two_elements empty import_request _ corner_fuel
                  Hschema eq_refl eq_refl)).
Defined.


End DiscoverFacts.

(** ** Properties of the ingest script *)

Module IngestFacts.
Import Ingest.

Local Arguments String.append !_ _ /.

Lemma strip_zeros_idem (s : string) : strip_zeros (strip_zeros s) = strip_zeros s.
Proof.
  induction s as [|c s IH]; cbn [strip_zeros]; [done|].
  destruct (Ascii.eqb c (Ascii.ascii_of_N 48)) eqn:Hc; [done|].
  cbn [strip_zeros]. by rewrite Hc.
Qed.

Lemma normal_barcode_of (drink : DrinkData) : normal (barcode_of drink).
Proof.
  unfold barcode_of. destruct (Js.truthy_string (upc drink)); [|done].
  destruct (upc drink) as [u|]; [|done]. apply strip_zeros_idem.
Qed.

Lemma prefix_zero (c : Ascii.ascii) (s : string) :
  String.prefix "0" (String c s) = Ascii.eqb c (Ascii.ascii_of_N 48).
Proof.
  cbn [String.prefix]. destruct (Ascii.ascii_dec _ c) as [<-|Hne].
  - rewrite Ascii.eqb_refl. by destruct s.
  - symmetry. apply Ascii.eqb_neq. intros ->. by apply Hne.
Qed.

Lemma strip_zeros_no_zero (upc : string) : String.prefix "0" (strip_zeros upc) = false.
Proof.
  induction upc as [|c s IH]; [done|]. cbn [strip_zeros].
  destruct (Ascii.eqb c (Ascii.ascii_of_N 48)) eqn:Hc; [done|]. by rewrite prefix_zero.
Qed.

(** X21.  The normal form of a UPC is the UPC without the zeros it begins
    with: it does not begin with a zero, it is left alone by a second
    normalisation, and a UPC that does not begin with a zero is its own
    normal form. *)
Theorem upc_normal_form (upc : string) :
  (∃ zeros, strip_zeros zeros = "" ∧ upc = zeros +:+ strip_zeros upc)
  ∧ String.prefix "0" (strip_zeros upc) = false
  ∧ strip_zeros (strip_zeros upc) = strip_zeros upc
  ∧ (String.prefix "0" upc = false → strip_zeros upc = upc).
Proof.
  split; [|split; [|split]].
  - induction upc as [|c s (zeros & Hz & Hs)]; [by exists ""|]. cbn [strip_zeros].
    destruct (Ascii.eqb c (Ascii.ascii_of_N 48)) eqn:Hc.
    + exists (String c zeros). cbn [strip_zeros]. rewrite Hc. split; [done|].
      simpl. by rewrite <- Hs.
    + by exists "".
  - apply strip_zeros_no_zero.
  - apply strip_zeros_idem.
  - destruct upc as [|c s]; [done|]. rewrite prefix_zero. cbn [strip_zeros]. by intros ->.
Qed.

Lemma counted_rows (st : Catalog.Statement) (c : Catalog.Catalog) (k k' : Counters) :
  (counted st c k k').1 = (Catalog.exec st c).1.
Proof. unfold counted. by destruct (Catalog.exec st c) as [c' []]. Qed.

Lemma exec_set_barcode_rows (barcode : option string) (id : Z) (c : Catalog.Catalog) :
  Catalog.rows (Catalog.exec (set_barcode barcode id) c).1 = Catalog.rows c
  ∨ Catalog.rows (Catalog.exec (set_barcode barcode id) c).1
    = (λ r, if decide (EnergyDrink.id r = id) then with_barcode barcode r else r)
        <$> Catalog.rows c.
Proof.
  unfold set_barcode. simpl.
  destruct (Catalog.update_rows _ _ [] (Catalog.rows c)) as [[rows' n]|] eqn:Hup; [|by left].
  right. simpl. by rewrite (CatalogFacts.update_rows_rewritten _ _ _ _ _ _ Hup).
Qed.

Lemma exec_insert_drink_rows (drink : DrinkData) (c : Catalog.Catalog) :
  Catalog.rows (Catalog.exec (insert_drink drink) c).1 = Catalog.rows c
  ∨ ∃ r, Catalog.rows (Catalog.exec (insert_drink drink) c).1 = Catalog.rows c ++ [r]
         ∧ EnergyDrink.barcode r = barcode_of drink
         ∧ Catalog.triple r = (brand drink, flavor drink, (standards drink).1).
Proof.
  unfold insert_drink. simpl. case_decide; [by left|]. right. by eexists.
Qed.

(** One turn of the loop: the rows after it, from the rows before it. *)
Lemma ingest_drink_rows (c : Catalog.Catalog) (k : Counters) (drink : DrinkData) :
  let c' := (ingest_drink (c, k) drink).1 in
  Catalog.rows c' = Catalog.rows c
  ∨ (∃ r, Catalog.rows c' = Catalog.rows c ++ [r]
          ∧ EnergyDrink.barcode r = barcode_of drink)
  ∨ (∃ id, Catalog.rows c'
           = (λ r, if decide (EnergyDrink.id r = id) then with_barcode (barcode_of drink) r
                   else r) <$> Catalog.rows c).
Proof.
  unfold ingest_drink. cbv zeta.
  destruct (existingDrink c drink) as [|existing rest].
  - rewrite counted_rows.
    destruct (exec_insert_drink_rows drink c) as [?|(r & ? & ? & _)]; [by left|].
    right; left. by exists r.
  - destruct (negb _ && _); [|by left]. rewrite counted_rows.
    destruct (exec_set_barcode_rows (barcode_of drink) (EnergyDrink.id existing) c);
      [by left|]. right; right. by eexists.
Qed.

Lemma ingest_drink_barcodes (c : Catalog.Catalog) (k : Counters) (drink : DrinkData)
    (r' : EnergyDrink.t) :
  r' ∈ Catalog.rows (ingest_drink (c, k) drink).1 → barcodes_from c r'.
Proof.
  destruct (ingest_drink_rows c k drink) as [-> |[(r & -> & Hr)|(id & ->)]].
  - intros Hin. left. by exists r'.
  - intros [Hin| ->%list_elem_of_singleton]%elem_of_app.
    + left. by exists r'.
    + right. rewrite Hr. apply normal_barcode_of.
  - intros (r & -> & Hin)%list_elem_of_fmap. case_decide.
    + right. simpl. apply normal_barcode_of.
    + left. by exists r.
Qed.

Lemma ingest_fold_barcodes (drinks : list DrinkData) (c : Catalog.Catalog) (k : Counters)
    (r' : EnergyDrink.t) :
  r' ∈ Catalog.rows (fold_left ingest_drink drinks (c, k)).1 → barcodes_from c r'.
Proof.
  revert c k. induction drinks as [|drink rest IH]; intros c k; cbn [fold_left].
  { intros Hin. left. by exists r'. }
  destruct (ingest_drink (c, k) drink) as [c1 k1] eqn:Hstep.
  intros [(r1 & Hr1 & Hbc)|Hn]%IH; [|by right].
  assert (Hc1 : c1 = (ingest_drink (c, k) drink).1) by by rewrite Hstep.
  rewrite Hc1 in Hr1. apply ingest_drink_barcodes in Hr1 as [(r & Hr & Hbc')|Hn].
  - left. exists r. split; [done|]. congruence.
  - right. by rewrite Hbc.
Qed.

(** X22.  Every barcode of the catalog after an ingest is one the catalog
    had before, or is normal: the script writes no barcode that begins with
    a zero. *)
Theorem ingest_writes_normal_barcodes (c : Catalog.Catalog) (drinks : list DrinkData) :
  Forall (λ r', (∃ r, r ∈ Catalog.rows c ∧ EnergyDrink.barcode r' = EnergyDrink.barcode r)
                ∨ ∀ bc, EnergyDrink.barcode r' = Some bc → String.prefix "0" bc = false)
    (Catalog.rows (ingestDrinks c drinks).1).
Proof.
  apply Forall_forall. intros r' Hin.
  destruct (ingest_fold_barcodes drinks c _ r' Hin) as [?|Hn]; [by left|right].
  intros bc Hbc. rewrite Hbc in Hn. simpl in Hn. rewrite <- Hn.
  apply strip_zeros_no_zero.
Qed.



(** An [UPDATE ... WHERE id = i] that goes through has found no other row
    of that id after the one it rewrites. *)
Lemma update_by_id_last (i : Z) (a : Catalog.Assignment) (l1 : list EnergyDrink.t) :
  ∀ before r1 rest out,
    Catalog.update_rows (Catalog.ById i) a before (l1 ++ r1 :: rest) = Some out →
    EnergyDrink.id r1 = i →
    Forall (λ x, EnergyDrink.id x ≠ i) rest.
Proof.
  induction l1 as [|y l1 IH]; intros before r1 rest out; simpl.
  - intros Hup Hid. rewrite decide_True in Hup by done.
    destruct (decide (Exists _ (before ++ rest))) as [|Hno]; [done|].
    apply Forall_forall. intros x Hx Hxi. apply Hno, Exists_exists.
    exists x. split; [apply elem_of_app; by right|]. left. simpl. congruence.
  - intros Hup Hid. destruct (decide (EnergyDrink.id y = i)).
    + destruct (decide (Exists _ _)); [done|].
      destruct (Catalog.update_rows _ a _ (l1 ++ r1 :: rest)) as [out'|] eqn:Hrec; [|done].
      by apply (IH _ _ _ _ Hrec).
    + by apply (IH _ _ _ _ Hup).
Qed.

Lemma update_by_id_unique (i : Z) (a : Catalog.Assignment) (rows : list EnergyDrink.t)
    (out : list EnergyDrink.t * nat) (r e : EnergyDrink.t) :
  Catalog.update_rows (Catalog.ById i) a [] rows = Some out →
  r ∈ rows → e ∈ rows → EnergyDrink.id r = i → EnergyDrink.id e = i → r = e.
Proof.
  intros Hup Hr He Hri Hei.
  apply list_elem_of_split in He as (l1 & l2 & ->).
  apply elem_of_app in Hr as [Hr|Hr].
  - apply list_elem_of_split in Hr as (l1a & l1b & ->).
    rewrite <- app_assoc in Hup. simpl in Hup.
    pose proof (update_by_id_last i a l1a [] r (l1b ++ e :: l2) out Hup Hri) as Hall.
    rewrite Forall_forall in Hall. destruct (Hall e); [|done].
    apply elem_of_app. right. by left.
  - apply elem_of_cons in Hr as [->|Hr]; [done|].
    pose proof (update_by_id_last i a l1 [] e l2 out Hup Hei) as Hall.
    rewrite Forall_forall in Hall. by destruct (Hall r).
Qed.

Lemma existingDrink_elem (c : Catalog.Catalog) (drink : DrinkData) (e : EnergyDrink.t) :
  e ∈ existingDrink c drink → e ∈ Catalog.rows c.
Proof.
  unfold existingDrink. cbv zeta.
  destruct (if Js.truthy_string (barcode_of drink) then _ else _) as [|x l] eqn:Hb.
  - by intros [_ ?]%list_elem_of_filter.
  - rewrite <- Hb. destruct (Js.truthy_string (barcode_of drink)).
    + by intros [_ ?]%list_elem_of_filter.
    + by intros ?%elem_of_nil.
Qed.

Lemma Forall2_filled_refl (l : list EnergyDrink.t) : Forall2 filled l l.
Proof. apply Forall2_same_length_lookup_2; [done|]. intros i x y Hx Hy. left. congruence. Qed.

(** One turn of the loop keeps the rows in their places, and adds at most
    one at the end. *)
Lemma ingest_drink_keeps (c : Catalog.Catalog) (k : Counters) (drink : DrinkData) :
  ∃ kept new,
    Catalog.rows (ingest_drink (c, k) drink).1 = kept ++ new
    ∧ Forall2 filled (Catalog.rows c) kept
    ∧ (length new ≤ 1)%nat.
Proof.
  unfold ingest_drink. cbv zeta.
  destruct (existingDrink c drink) as [|existing rest] eqn:Hex.
  - rewrite counted_rows.
    destruct (exec_insert_drink_rows drink c) as [->|(r & -> & _)].
    + exists (Catalog.rows c), []. rewrite app_nil_r.
      split; [done|]. split; [apply Forall2_filled_refl|simpl; lia].
    + exists (Catalog.rows c), [r]. split; [done|]. split; [apply Forall2_filled_refl|done].
  - destruct (negb _ && _) eqn:Hcond.
    2:{ exists (Catalog.rows c), []. rewrite app_nil_r.
        split; [done|]. split; [apply Forall2_filled_refl|simpl; lia]. }
    apply andb_true_iff in Hcond as [Hnone%negb_true_iff Hbc].
    rewrite counted_rows. unfold set_barcode. simpl.
    destruct (Catalog.update_rows _ _ [] (Catalog.rows c)) as [[rows' n]|] eqn:Hup.
    2:{ exists (Catalog.rows c), []. rewrite app_nil_r.
        split; [done|]. split; [apply Forall2_filled_refl|simpl; lia]. }
    simpl. rewrite (CatalogFacts.update_rows_rewritten _ _ _ _ _ _ Hup). simpl.
    eexists _, []. rewrite app_nil_r. split; [done|]. split; [|simpl; lia].
    apply Forall2_fmap_r, Forall2_same_length_lookup_2; [done|].
    intros j x y Hx Hy. assert (y = x) as -> by congruence. unfold compose.
    case_decide as Hsel; [|by left]. right. simpl in Hsel.
    assert (He : existing ∈ Catalog.rows c).
    { apply (existingDrink_elem c drink). rewrite Hex. by left. }
    assert (x = existing) as ->.
    { apply (update_by_id_unique _ _ _ _ x existing Hup); try done.
      by apply list_elem_of_lookup_2 in Hx. }
    split; [done|]. destruct (barcode_of drink) as [bc|]; [|done]. by exists bc.
Qed.

Lemma filled_trans (r1 r2 r3 : EnergyDrink.t) : filled r1 r2 → filled r2 r3 → filled r1 r3.
Proof.
  intros [->|(Hnone & bc & Hbc & ->)]; [done|].
  intros [->|(Hnone' & _)]; [right; eauto|].
  simpl in Hnone'. simpl in Hbc. congruence.
Qed.

Lemma ingest_fold_keeps (drinks : list DrinkData) (c : Catalog.Catalog) (k : Counters) :
  ∃ kept new,
    Catalog.rows (fold_left ingest_drink drinks (c, k)).1 = kept ++ new
    ∧ Forall2 filled (Catalog.rows c) kept
    ∧ (length new ≤ length drinks)%nat.
Proof.
  revert c k. induction drinks as [|drink rest IH]; intros c k; cbn [fold_left].
  { exists (Catalog.rows c), []. rewrite app_nil_r.
    split; [done|]. split; [apply Forall2_filled_refl|done]. }
  destruct (ingest_drink_keeps c k drink) as (kept1 & new1 & Hrows1 & Hkept1 & Hnew1).
  destruct (ingest_drink (c, k) drink) as [c1 k1] eqn:Hstep. cbn [fst] in Hrows1.
  destruct (IH c1 k1) as (kept & new & Hrows & Hkept & Hnew).
  rewrite Hrows1 in Hkept. apply Forall2_app_inv_l in Hkept as (ka & kb & Hka & Hkb & ->).
  exists ka, (kb ++ new). rewrite Hrows, <- app_assoc. split; [done|]. split.
  - exact (Forall2_trans filled filled filled _ _ _ filled_trans Hkept1 Hka).
  - rewrite length_app. apply Forall2_length in Hkb. simpl. lia.
Qed.

(** X24.  An ingest deletes no row and moves none: the rows of the catalog
    stay in their places, each as it was or, if it had no barcode, with a
    barcode in its place and nothing else changed; the rows the script
    inserts come after them, one for each drink of the file at most. *)
Theorem ingest_keeps_rows (c : Catalog.Catalog) (drinks : list DrinkData) :
  ∃ kept new,
    Catalog.rows (ingestDrinks c drinks).1 = kept ++ new
    ∧ (length new ≤ length drinks)%nat
    ∧ Forall2 (λ r r',
        r' = r
        ∨ (Js.truthy_string (EnergyDrink.barcode r) = false
           ∧ Js.truthy_string (EnergyDrink.barcode r') = true
           ∧ r' = with_barcode (EnergyDrink.barcode r') r)) (Catalog.rows c) kept.
Proof.
  destruct (ingest_fold_keeps drinks c (mkCounters 0 0 0)) as (kept & new & Hrows & Hkept & Hnew).
  exists kept, new. split; [done|]. split; [done|].
  eapply Forall2_impl; [exact Hkept|].
  intros r r' [->|(Hnone & bc & Hbc & ->)]; [by left|right]. by repeat split.
Qed.

(** *** A second run of the script *)

(** The identifiers of a reachable catalog are distinct and behind the
    sequence. *)
Lemma reachable_ids (c : Catalog.Catalog) :
  Catalog.reachable c →
  NoDup (EnergyDrink.id <$> Catalog.rows c)
  ∧ Forall (λ r, EnergyDrink.id r < Catalog.id_seq c) (Catalog.rows c).
Proof.
  induction 1 as [|st c Hc [Hnd Hlt]]; [split; constructor|].
  destruct st as [d|w a|i]; simpl.
  - case_decide; simpl.
    + split; [done|]. eapply Forall_impl; [exact Hlt|]. intros r ?. simpl in *. lia.
    + split.
      * rewrite fmap_app. apply NoDup_app. split; [done|]. split; [|apply NoDup_singleton].
        intros x (r & -> & Hr)%list_elem_of_fmap Heq%list_elem_of_singleton.
        rewrite Forall_forall in Hlt. specialize (Hlt r Hr). simpl in Hlt, Heq. lia.
      * apply Forall_app. split.
        -- eapply Forall_impl; [exact Hlt|]. intros r ?. simpl in *. lia.
        -- apply Forall_singleton. simpl. lia.
  - destruct (Catalog.update_rows w a [] (Catalog.rows c)) as [[rows' n]|] eqn:Hup; [|done].
    simpl. rewrite (CatalogFacts.update_rows_rewritten _ _ _ _ _ _ Hup). simpl.
    unfold Catalog.rewritten. split.
    + rewrite <- list_fmap_compose.
      assert (Hsame : ∀ l : list EnergyDrink.t,
                (EnergyDrink.id ∘ (λ r, if decide (Catalog.selects w r)
                                        then Catalog.assign a r else r)) <$> l
                = EnergyDrink.id <$> l).
      { intros l. apply Forall_fmap_ext, Forall_forall. intros r _. simpl. by case_decide. }
      by rewrite Hsame.
    + apply Forall_fmap. eapply Forall_impl; [exact Hlt|].
      intros r ?. simpl. by case_decide.
  - split.
    + eapply sublist_NoDup; [exact Hnd|]. apply fmap_sublist, sublist_filter.
    + apply Forall_forall. intros r [_ Hr]%list_elem_of_filter.
      rewrite Forall_forall in Hlt. by apply Hlt.
Qed.

Lemma ingest_drink_reachable (c : Catalog.Catalog) (k : Counters) (drink : DrinkData) :
  Catalog.reachable c → Catalog.reachable (ingest_drink (c, k) drink).1.
Proof.
  intros Hc. unfold ingest_drink. cbv zeta.
  destruct (existingDrink c drink) as [|existing rest].
  - rewrite counted_rows. by constructor.
  - destruct (negb _ && _); [|done]. rewrite counted_rows. by constructor.
Qed.

Lemma update_rows_unselected (w : Catalog.Where) (a : Catalog.Assignment)
    (l : list EnergyDrink.t) :
  ∀ before rest,
    Forall (λ r, ¬ Catalog.selects w r) l →
    Catalog.update_rows w a before (l ++ rest) = Catalog.update_rows w a (before ++ l) rest.
Proof.
  induction l as [|r l IH]; intros before rest Hl; simpl.
  - by rewrite app_nil_r.
  - apply Forall_cons in Hl as [Hr Hl]. rewrite decide_False by done.
    rewrite (IH _ _ Hl), <- app_assoc. done.
Qed.

(** An [UPDATE ... WHERE id = i] of the one row of that id goes through
    when the row it writes clashes with no other row. *)
Lemma update_by_id_succeeds (i : Z) (a : Catalog.Assignment) (l1 l2 : list EnergyDrink.t)
    (e : EnergyDrink.t) :
  EnergyDrink.id e = i →
  Forall (λ r, EnergyDrink.id r ≠ i) (l1 ++ l2) →
  ¬ Exists (Catalog.clashes (Catalog.assign a e)) (l1 ++ l2) →
  Catalog.update_rows (Catalog.ById i) a [] (l1 ++ e :: l2)
  = Some (l1 ++ Catalog.assign a e :: l2, 1%nat).
Proof.
  intros He Hothers Hno. apply Forall_app in Hothers as [H1 H2].
  rewrite update_rows_unselected by done. simpl.
  rewrite decide_True by done. rewrite decide_False by done.
  rewrite <- (app_nil_r l2) at 1. rewrite update_rows_unselected by done.
  simpl. by rewrite <- app_assoc.
Qed.

Lemma NoDup_fmap_split {A B} (f : A → B) (l1 l2 : list A) (x y : A) :
  NoDup (f <$> l1 ++ x :: l2) → y ∈ l1 ++ l2 → f y ≠ f x.
Proof.
  rewrite fmap_app, fmap_cons. intros Hnd Hy Heq.
  apply NoDup_app in Hnd as (_ & Hdisj & Hx). apply NoDup_cons in Hx as [Hx _].
  apply elem_of_app in Hy as [Hy|Hy].
  - apply (Hdisj (f x)); [|by left]. rewrite <- Heq. by apply list_elem_of_fmap_2.
  - apply Hx. rewrite <- Heq. by apply list_elem_of_fmap_2.
Qed.

Lemma truthy_barcode (bc : option string) :
  bc ≠ Some "" → Js.truthy_string bc = false → bc = None.
Proof.
  destruct bc as [bc|]; [|done]. simpl. intros Hne Hbc.
  apply negb_false_iff, String.eqb_eq in Hbc. by subst bc.
Qed.

Lemma existingDrink_by_barcode (c : Catalog.Catalog) (drink : DrinkData) (bc : string)
    (x : EnergyDrink.t) :
  barcode_of drink = Some bc → Js.truthy_string (Some bc) = true →
  x ∈ Catalog.rows c → EnergyDrink.barcode x = Some bc →
  ∃ existing rest, existingDrink c drink = existing :: rest
                   ∧ EnergyDrink.barcode existing = Some bc.
Proof.
  intros Hbc Htruthy Hx Hxbc. unfold existingDrink. cbv zeta. rewrite Hbc, Htruthy.
  cbn [default id]. unfold select_by_barcode.
  destruct (filter _ (Catalog.rows c)) as [|y l] eqn:Hf.
  - assert (Hin : x ∈ filter (λ r, EnergyDrink.barcode r = Some bc) (Catalog.rows c))
      by by apply list_elem_of_filter.
    rewrite Hf in Hin. by apply elem_of_nil in Hin.
  - exists y, l. split; [done|].
    assert (Hin : y ∈ filter (λ r, EnergyDrink.barcode r = Some bc) (Catalog.rows c))
      by (rewrite Hf; by left).
    by apply list_elem_of_filter in Hin as [? _].
Qed.

Lemma quiet_by_barcode (c : Catalog.Catalog) (drink : DrinkData) (bc : string)
    (x : EnergyDrink.t) :
  barcode_of drink = Some bc → Js.truthy_string (Some bc) = true →
  x ∈ Catalog.rows c → EnergyDrink.barcode x = Some bc →
  quiet c drink.
Proof.
  intros Hbc Htruthy Hx Hxbc.
  destruct (existingDrink_by_barcode c drink bc x) as (e & rest & He & Hebc); try done.
  exists e, rest. split; [done|]. by rewrite Hebc, Htruthy.
Qed.

Lemma existingDrink_none (c : Catalog.Catalog) (drink : DrinkData) :
  existingDrink c drink = [] →
  (∀ r, r ∈ Catalog.rows c →
        Catalog.triple r ≠ (brand drink, flavor drink, (standards drink).1))
  ∧ (∀ bc r, barcode_of drink = Some bc → Js.truthy_string (Some bc) = true →
             r ∈ Catalog.rows c → EnergyDrink.barcode r ≠ Some bc).
Proof.
  intros Hnone. split.
  - intros r Hr Ht. revert Hnone. unfold existingDrink. cbv zeta.
    destruct (if Js.truthy_string (barcode_of drink) then _ else _); [|done].
    unfold select_by_triple. intros Hf.
    assert (Hin : r ∈ filter (λ r, Catalog.triple r = (brand drink, flavor drink, (standards drink).1))
                      (Catalog.rows c)) by by apply list_elem_of_filter.
    rewrite Hf in Hin. by apply elem_of_nil in Hin.
  - intros bc r Hbc Htruthy Hr Hrbc.
    destruct (existingDrink_by_barcode c drink bc r) as (e & rest & He & _); try done.
    by rewrite Hnone in He.
Qed.

(** After its turn, a drink is quiet. *)
Lemma ingest_drink_quiet (c : Catalog.Catalog) (k : Counters) (drink : DrinkData) :
  Catalog.reachable c → barcode_of drink ≠ Some "" →
  quiet (ingest_drink (c, k) drink).1 drink.
Proof.
  intros Hreach Hzero.
  destruct (reachable_ids c Hreach) as [Hids Hseq].
  pose proof (CatalogFacts.reachable_triples_unique c Hreach) as Htriples.
  unfold ingest_drink. cbv zeta.
  destruct (existingDrink c drink) as [|existing rest] eqn:Hex.
  - (* the INSERT goes through *)
    destruct (existingDrink_none c drink Hex) as [Hnotriple Hnobarcode].
    rewrite counted_rows. unfold insert_drink. simpl.
    rewrite decide_False.
    2:{ intros (old & Hold & [Hid|[Ht|[Hsome Hbc]]])%Exists_exists; simpl in *.
        - rewrite Forall_forall in Hseq. specialize (Hseq old Hold). simpl in Hseq. lia.
        - by apply (Hnotriple old Hold).
        - destruct (barcode_of drink) as [bc|] eqn:Hb; [|done].
          apply (Hnobarcode bc old); try done. simpl.
          apply negb_true_iff, String.eqb_neq. congruence. }
    destruct (Js.truthy_string (barcode_of drink)) eqn:Htruthy.
    + destruct (barcode_of drink) as [bc|] eqn:Hb; [|done].
      eapply (quiet_by_barcode _ drink bc); try done.
      * simpl. apply elem_of_app. right. by left.
      * done.
    + unfold quiet, existingDrink. cbv zeta. rewrite Htruthy.
      unfold select_by_triple. simpl. rewrite filter_app, filter_cons_True by done.
      destruct (filter _ (Catalog.rows c)) as [|y l]; simpl.
      * eexists _, _. split; [done|]. by rewrite andb_false_r.
      * eexists _, _. split; [done|]. by rewrite andb_false_r.
  - destruct (negb _ && _) eqn:Hcond.
    2:{ exists existing, rest. by split. }
    (* the UPDATE goes through *)
    apply andb_true_iff in Hcond as [Hnone%negb_true_iff Htruthy].
    destruct (barcode_of drink) as [bc|] eqn:Hb; [|done].
    assert (He : existing ∈ Catalog.rows c).
    { apply (existingDrink_elem c drink). rewrite Hex. by left. }
    assert (Hnobarcode : ∀ r, r ∈ Catalog.rows c → EnergyDrink.barcode r ≠ Some bc).
    { intros r Hr Hrbc.
      destruct (existingDrink_by_barcode c drink bc r) as (e & rest' & He' & Hebc); try done.
      rewrite Hex in He'. injection He' as <- _. rewrite Hebc in Hnone. congruence. }
    apply list_elem_of_split in He as (l1 & l2 & Hrows).
    rewrite counted_rows. unfold set_barcode. simpl. rewrite Hrows.
    rewrite (update_by_id_succeeds (EnergyDrink.id existing) _ l1 l2 existing).
    + simpl. apply (quiet_by_barcode _ drink bc (with_barcode (Some bc) existing));
        [done|done| |done].
      simpl. apply elem_of_app. right. by left.
    + done.
    + apply Forall_forall. intros r Hr.
      rewrite Hrows in Hids. by apply (NoDup_fmap_split EnergyDrink.id l1 l2 existing r).
    + intros (old & Hold & [Hid|[Ht|[_ Hbc]]])%Exists_exists; simpl in *.
      * rewrite Hrows in Hids. by apply (NoDup_fmap_split EnergyDrink.id l1 l2 existing old).
      * rewrite Hrows in Htriples.
        by apply (NoDup_fmap_split Catalog.triple l1 l2 existing old).
      * apply (Hnobarcode old); [|done]. rewrite Hrows.
        apply elem_of_app in Hold as [?|?]; apply elem_of_app; [by left|right; by right].
Qed.

Lemma Forall2_filled_filter (t : string * string * Z) (l k : list EnergyDrink.t) :
  Forall2 filled l k →
  Forall2 filled (filter (λ r, Catalog.triple r = t) l) (filter (λ r, Catalog.triple r = t) k).
Proof.
  induction 1 as [|x y l k Hxy _ IH]; [constructor|].
  assert (Ht : Catalog.triple y = Catalog.triple x)
    by (destruct Hxy as [-> |(_ & bc & _ & ->)]; done).
  rewrite !filter_cons. rewrite Ht. case_decide; [by constructor|done].
Qed.

(** A drink that is quiet stays quiet through the turn of another. *)
Lemma quiet_kept (c : Catalog.Catalog) (k : Counters) (drink other : DrinkData) :
  quiet c drink → quiet (ingest_drink (c, k) other).1 drink.
Proof.
  intros (e & rest & Hex & Hcond).
  destruct (ingest_drink_keeps c k other) as (kept & new & Hrows & Hkept & _).
  set (c' := (ingest_drink (c, k) other).1) in *.
  assert (He : e ∈ Catalog.rows c).
  { apply (existingDrink_elem c drink). rewrite Hex. by left. }
  assert (Hstay : ∀ x, x ∈ Catalog.rows c → Js.truthy_string (EnergyDrink.barcode x) = true →
                       x ∈ Catalog.rows c').
  { intros x Hx Hxb. rewrite Hrows. apply elem_of_app. left.
    apply list_elem_of_lookup in Hx as (j & Hj).
    destruct (Forall2_lookup_l _ _ _ _ _ Hkept Hj) as (y & Hy & [-> |(Hnone & _)]).
    - by apply list_elem_of_lookup_2 in Hy.
    - congruence. }
  destruct (Js.truthy_string (barcode_of drink)) eqn:Htruthy.
  - rewrite andb_true_r in Hcond. apply negb_false_iff in Hcond.
    destruct (barcode_of drink) as [bc|] eqn:Hb; [|done].
    destruct (decide (Exists (λ x, EnergyDrink.barcode x = Some bc) (Catalog.rows c')))
      as [(x & Hx & Hxbc)%Exists_exists|Hnone].
    { by apply (quiet_by_barcode c' drink bc x). }
    (* no row has the barcode: the rows are found by their triple, now as before *)
    assert (Hex' : existingDrink c' drink
                   = select_by_triple c' (brand drink) (flavor drink) (standards drink).1).
    { unfold existingDrink. cbv zeta. rewrite Hb. simpl in Htruthy. simpl. rewrite Htruthy.
      unfold select_by_barcode. destruct (filter _ (Catalog.rows c')) as [|y l] eqn:Hf; [done|].
      exfalso. apply Hnone, Exists_exists. exists y.
      assert (Hin : y ∈ filter (λ r, EnergyDrink.barcode r = Some bc) (Catalog.rows c'))
        by (rewrite Hf; by left).
      apply list_elem_of_filter in Hin as [? ?]. done. }
    assert (Hex0 : existingDrink c drink
                   = select_by_triple c (brand drink) (flavor drink) (standards drink).1).
    { unfold existingDrink. cbv zeta. rewrite Hb. simpl in Htruthy. simpl. rewrite Htruthy.
      unfold select_by_barcode. destruct (filter _ (Catalog.rows c)) as [|y l] eqn:Hf; [done|].
      exfalso. apply Hnone, Exists_exists. exists y.
      assert (Hin : y ∈ filter (λ r, EnergyDrink.barcode r = Some bc) (Catalog.rows c))
        by (rewrite Hf; by left).
      apply list_elem_of_filter in Hin as [Hybc Hy]. split; [|done].
      apply Hstay; [done|]. by rewrite Hybc. }
    rewrite Hex0 in Hex. unfold quiet. rewrite Hex', Hb.
    unfold select_by_triple in *. rewrite Hrows, filter_app.
    pose proof (Forall2_filled_filter (brand drink, flavor drink, (standards drink).1)
                  _ _ Hkept) as Hf.
    rewrite Hex in Hf. apply Forall2_cons_inv_l in Hf as (e' & rest' & He' & _ & ->).
    eexists e', _. split; [reflexivity|].
    destruct He' as [-> |(Hnone' & _)]; [|congruence].
    by rewrite Hcond.
  - (* no barcode to give: a row of the triple is enough *)
    assert (Hex0 : existingDrink c drink
                   = select_by_triple c (brand drink) (flavor drink) (standards drink).1).
    { unfold existingDrink. cbv zeta. by rewrite Htruthy. }
    unfold quiet, existingDrink. cbv zeta. rewrite Htruthy.
    rewrite Hex0 in Hex. unfold select_by_triple in *. rewrite Hrows, filter_app.
    pose proof (Forall2_filled_filter (brand drink, flavor drink, (standards drink).1)
                  _ _ Hkept) as Hf.
    rewrite Hex in Hf. apply Forall2_cons_inv_l in Hf as (e' & rest' & _ & _ & ->).
    eexists e', _. split; [reflexivity|].
    by rewrite andb_false_r.
Qed.

Lemma quiet_kept_fold (drinks : list DrinkData) (c : Catalog.Catalog) (k : Counters)
    (drink : DrinkData) :
  quiet c drink → quiet (fold_left ingest_drink drinks (c, k)).1 drink.
Proof.
  revert c k. induction drinks as [|other rest IH]; intros c k Hq; cbn [fold_left]; [done|].
  pose proof (quiet_kept c k drink other Hq) as Hq1.
  destruct (ingest_drink (c, k) other) as [c1 k1]. by apply IH.
Qed.

Lemma ingest_fold_quiet (drinks : list DrinkData) (c : Catalog.Catalog) (k : Counters) :
  Catalog.reachable c → Forall (λ d, barcode_of d ≠ Some "") drinks →
  Forall (quiet (fold_left ingest_drink drinks (c, k)).1) drinks.
Proof.
  revert c k. induction drinks as [|drink rest IH]; intros c k Hreach Hok; [constructor|].
  apply Forall_cons in Hok as [Hd Hrest]. cbn [fold_left].
  pose proof (ingest_drink_quiet c k drink Hreach Hd) as Hq.
  pose proof (ingest_drink_reachable c k drink Hreach) as Hreach1.
  destruct (ingest_drink (c, k) drink) as [c1 k1]. cbn [fst] in *.
  constructor; [by apply quiet_kept_fold|by apply IH].
Qed.

Lemma quiet_fold (drinks : list DrinkData) (c : Catalog.Catalog) (k : Counters) :
  Forall (quiet c) drinks →
  fold_left ingest_drink drinks (c, k)
  = (c, mkCounters (inserted k) (updated k) (skipped k + length drinks)).
Proof.
  revert k. induction drinks as [|drink rest IH]; intros k Hq; cbn [fold_left].
  { destruct k. simpl. by rewrite Nat.add_0_r. }
  apply Forall_cons in Hq as [(e & rest' & Hex & Hcond) Hrest].
  unfold ingest_drink at 2. cbv zeta. rewrite Hex, Hcond.
  rewrite (IH _ Hrest). simpl. f_equal. f_equal. lia.
Qed.

(** X25.  A second run of the script has nothing to do.  From a catalog
    the statements can reach, and for a file in which no UPC consists of
    zeros alone, the script run again on the catalog it has left inserts
    nothing, updates nothing, skips every drink and leaves the catalog,
    its sequence included, as it was. *)
Theorem ingest_twice_changes_nothing (c : Catalog.Catalog) (drinks : list DrinkData) :
  Catalog.reachable c →
  Forall (λ d, barcode_of d ≠ Some "") drinks →
  let first := ingestDrinks c drinks in
  ingestDrinks first.1 drinks = (first.1, mkCounters 0 0 (length drinks)).
Proof.
  intros Hreach Hok first. subst first. unfold ingestDrinks at 1.
  rewrite quiet_fold; [done|]. by apply ingest_fold_quiet.
Qed.

Lemma ingest_twice_changes_nothing_witness :
  let first := ingestDrinks Catalog.two_red_bulls [monster_original] in
  length (Catalog.rows first.1) = 3%nat
  ∧ ingestDrinks first.1 [monster_original] = (first.1, mkCounters 0 0 1).
Proof.
  intros first. split; [reflexivity|].
  assert (Hreach : Catalog.reachable Catalog.two_red_bulls)
    by (do 2 apply Catalog.reach_exec; apply Catalog.reach_empty).
  assert (Hok : Forall (λ d, barcode_of d ≠ Some "") [monster_original])
    by (apply Forall_singleton; by vm_compute).
  exact (ingest_twice_changes_nothing Catalog.two_red_bulls [monster_original] Hreach Hok).
Defined.

(** The condition on the UPCs is needed: with a UPC of zeros alone the
    second run can insert a drink that the first run has skipped. *)
Lemma zero_upc_inserted_by_second_run :
  let drinks := [mkDrink "Bang" "Peach" (Some "0"); mkDrink "Reign" "Lemon" (Some "0");
                 mkDrink "Bang" "Peach" (Some "123")] in
  let first := ingestDrinks Catalog.empty drinks in
  first.2 = mkCounters 1 1 1
  ∧ (ingestDrinks first.1 drinks).2 = mkCounters 1 0 2.
Proof. by vm_compute. Qed.

End IngestFacts.

(** ** Properties of the deletion of a drink *)

Module DrinksAdminFacts.
Import DrinksAdmin ScanKeys.

(** X26.  Only a 200 answer changes the database, and an id that no
    drink has is answered 500.  After a 200 answer no drink has the id, no
    row of the inventory refers to it, and the stores, the other drinks and
    the other rows of the inventory are as they were; the foreign keys of
    the inventory, if they held, still hold. *)
Theorem delete_cascades (db : Db) (id : option (parsed Z)) :
  let out := DELETE db id in
  (out.2.1 = 200 ↔ ∃ n, id = Some (Num n) ∧ Exists (λ d, EnergyDrink.id d = n) (energy_drinks db))
  ∧ (out.2.1 ≠ 200 → out.1 = db)
  ∧ (∀ n, id = Some (Num n) → out.2.1 = 200 →
       stores out.1 = stores db
       ∧ energy_drinks out.1 = filter (λ d, EnergyDrink.id d ≠ n) (energy_drinks db)
       ∧ store_inventory out.1
         = filter (λ r, StoreInventory.drink_id r ≠ n) (store_inventory db)
       ∧ Forall (λ d, EnergyDrink.id d ≠ n) (energy_drinks out.1)
       ∧ Forall (λ r, StoreInventory.drink_id r ≠ n) (store_inventory out.1))
  ∧ (references_hold db → references_hold out.1).
Proof.
  intros out. subst out. unfold DELETE. cbv zeta.
  destruct id as [[|n]|]; cbn [fst snd].
  - split; [split; [done|by intros (n & ? & _)]|]. by repeat split.
  - destruct (decide (Exists _ (energy_drinks db))) as [Hex|Hnone]; cbn [fst snd].
    + split; [split; [intros _; by exists n|done]|]. split; [done|]. split.
      * intros n' [= <-] _. unfold delete_drink. simpl. repeat split; try done.
        -- apply Forall_forall. by intros d [? _]%list_elem_of_filter.
        -- apply Forall_forall. by intros r [? _]%list_elem_of_filter.
      * unfold references_hold, delete_drink. simpl. intros Href.
        apply Forall_forall. intros r [Hr Hin]%list_elem_of_filter.
        rewrite Forall_forall in Href. destruct (Href r Hin) as [Hs Hd]. split; [done|].
        apply Exists_exists in Hd as (d & Hd & Hid). apply Exists_exists. exists d.
        split; [|done]. apply list_elem_of_filter. split; [congruence|done].
    + split; [split; [done|]|by repeat split]. by intros (n' & [= <-] & ?).
  - split; [split; [done|by intros (n & ? & _)]|]. by repeat split.
Qed.



End DrinksAdminFacts.

(** ** Properties of the creation of a drink *)

Module DrinksCreateFacts.
Import DrinksCreate.

Section Handler.
Context `{JsIntegers}.





End Handler.


End DrinksCreateFacts.
